(** * contourguessr-api: the challenge-id codec and the refresh cache

    A shallow embedding of [repos/challenge_id.go] and [repos/repos.go].

    Conventions.
    - A Go [int] is a [Z]; a [byte] is a [Z] in [0, 256); a [uint32] is a
      [Z] in [0, 2^32).  Narrowing conversions and shifts that can overflow
      are written out with [u8] and [u32].
    - A Go [string] is a sequence of bytes: [String.string].
    - A Go function that returns [(T, error)] returns a [result T]; a
      [panic] is the third constructor, so that a crash is never confused
      with a returned error.
    - Go maps are [gmap]s. *)

From Stdlib Require Import ZArith List String Ascii Bool Lia Btauto.
From Stdlib Require Import QArith Qreduction DecimalString DecimalZ DecimalPos.
From coqutil Require Import Z.bitblast.
From stdpp Require Import gmap strings list fin_maps.

Local Open Scope Z_scope.

(** ** Errors, panics and results *)

(** The [error] values the package can hand to a caller.
    [CorruptInputError] is [encoding/base32]'s (the offset of the bad
    byte); the two sentinels are the package's own; [OtherError] stands
    for store and network errors, which the package passes through. *)
Inductive error : Type :=
| CorruptInputError (offset : Z)
| NoChallengesAvailableError
| ChallengeNotFoundError
| OtherError (msg : string).

Inductive result (A : Type) : Type :=
| Ok (a : A)
| Err (e : error)
| Panic (msg : string).
Arguments Ok {A} a.
Arguments Err {A} e.
Arguments Panic {A} msg.

Definition rbind {A B} (r : result A) (k : A -> result B) : result B :=
  match r with
  | Ok a => k a
  | Err e => Err e
  | Panic m => Panic m
  end.

Notation "'let!' x ':=' r 'in' k" := (rbind r (fun x => k))
  (at level 10, x name, r at level 100, k at level 200, only parsing).

(** ** Fixed-width integers *)

Definition u8 (z : Z) : Z := z mod 2 ^ 8.
Definition u32 (z : Z) : Z := z mod 2 ^ 32.

Definition byte_of_ascii (c : ascii) : Z := Z.of_N (N_of_ascii c).
Definition ascii_of_byte (b : Z) : ascii := ascii_of_N (Z.to_N b).

(** [[]byte(s)] and [string(bs)]. *)
Definition bytes_of_string (s : string) : list Z :=
  map byte_of_ascii (list_ascii_of_string s).
Definition string_of_bytes (bs : list Z) : string :=
  string_of_list_ascii (map ascii_of_byte bs).

(** ** [encoding/base32] with the package's alphabet and no padding

    The package builds
    [base32.NewEncoding("abcdefghijklmnopqrstuvwxyz234567").WithPadding(base32.NoPadding)].
    The standard library is not part of the repository; what follows is
    its [Encode] and [decode], specialised to that alphabet, with
    [padChar = NoPadding = -1]. *)
Module base32.

Definition encoder : string := "abcdefghijklmnopqrstuvwxyz234567"%string.

(** [enc.encode[i]] *)
Definition encode (i : Z) : Z :=
  nth (Z.to_nat i) (bytes_of_string encoder) 0.

Fixpoint index_of (b : Z) (l : list Z) (i : Z) : Z :=
  match l with
  | [] => 255
  | c :: l' => if c =? b then i else index_of b l' (i + 1)
  end.

(** [enc.decodeMap[b]]: the index of [b] in the alphabet, [0xFF] for a
    byte that is not in it. *)
Definition decodeMap (b : Z) : Z := index_of b (bytes_of_string encoder) 0.

(** [byte(enc.padChar)]: the conversion of the rune [-1] to a byte. *)
Definition padByte : Z := u8 (-1).

(** The tail of [Encode]: the five-bit groups of the last [remain]
    bytes ([1 <= remain <= 4]), written as the [switch] with
    [fallthrough] has it: [val] gathers the bytes from the last one to
    the first, and each case stores the groups it has complete. *)
Definition remainGroups (remain : Z) (s0 s1 s2 s3 : Z) : list Z :=
  let val := 0 in
  let '(val, d56) :=
    if 4 <=? remain then
      let val := Z.lor val s3 in
      (val, [Z.land (Z.shiftr val 2) 31;
             Z.land (u32 (Z.shiftl val 3)) 31])
    else (val, []) in
  let '(val, d4) :=
    if 3 <=? remain then
      let val := Z.lor val (Z.shiftl s2 8) in
      (val, [Z.land (Z.shiftr val 7) 31])
    else (val, []) in
  let '(val, d23) :=
    if 2 <=? remain then
      let val := Z.lor val (Z.shiftl s1 16) in
      (val, [Z.land (Z.shiftr val 17) 31;
             Z.land (Z.shiftr val 12) 31])
    else (val, []) in
  let '(val, d01) :=
    if 1 <=? remain then
      let val := Z.lor val (Z.shiftl s0 24) in
      (val, [Z.land (Z.shiftr val 27) 31;
             Z.land (Z.shiftr val 22) 31])
    else (val, []) in
  d01 ++ d23 ++ d4 ++ d56.

(** One full quantum of [Encode]: the eight five-bit groups of five
    bytes. *)
Definition quantumGroups (s0 s1 s2 s3 s4 : Z) : list Z :=
  let hi := Z.lor (Z.lor (Z.lor (Z.shiftl s0 24) (Z.shiftl s1 16))
                    (Z.shiftl s2 8)) s3 in
  let lo := Z.lor (u32 (Z.shiftl hi 8)) s4 in
  [Z.land (Z.shiftr hi 27) 31;
   Z.land (Z.shiftr hi 22) 31;
   Z.land (Z.shiftr hi 17) 31;
   Z.land (Z.shiftr hi 12) 31;
   Z.land (Z.shiftr hi 7) 31;
   Z.land (Z.shiftr hi 2) 31;
   Z.land (Z.shiftr lo 5) 31;
   Z.land lo 31].

(** [Encode], without padding: every group is written as its symbol,
    [dst[k] = enc.encode[group]]. *)
Fixpoint Encode (src : list Z) : list Z :=
  match src with
  | s0 :: s1 :: s2 :: s3 :: s4 :: rest =>
      map encode (quantumGroups s0 s1 s2 s3 s4) ++ Encode rest
  | [s0; s1; s2; s3] => map encode (remainGroups 4 s0 s1 s2 s3)
  | [s0; s1; s2] => map encode (remainGroups 3 s0 s1 s2 0)
  | [s0; s1] => map encode (remainGroups 2 s0 s1 0 0)
  | [s0] => map encode (remainGroups 1 s0 0 0 0)
  | [] => []
  end.

Definition EncodeToString (src : list Z) : string :=
  string_of_bytes (Encode src).

(** [stripNewlines]: CR and LF are dropped before decoding. *)
Definition stripNewlines (src : list Z) : list Z :=
  List.filter (fun b => negb ((b =? 13) || (b =? 10))) src.

(** The result of reading one quantum: the symbols read, how many of
    them, whether the input ended, and what is left of the input. *)
Record quantum := {
  dbuf : list Z;
  dlen : Z;
  fin : bool;
  rest : list Z
}.

(** Is there a byte that is not the padding byte among the first [k]
    bytes of [src]?  The offset of the first one. *)
Fixpoint badPadding (k : nat) (i : Z) (src : list Z) : option Z :=
  match k, src with
  | S k', b :: src' =>
      if b =? padByte then badPadding k' (i + 1) src' else Some i
  | _, _ => None
  end.

(** The inner loop of [decode], [for j := 0; j < 8;], with
    [k = 8 - j] and [olen] the length of the whole input. *)
Fixpoint readQuantum (k : nat) (j : Z) (buf : list Z) (src : list Z)
    (olen : Z) : error + quantum :=
  match k with
  | O => inr {| dbuf := buf; dlen := 8; fin := false; rest := src |}
  | S k' =>
      match src with
      | [] =>
          (* no padding is expected: the input ends here *)
          inr {| dbuf := buf; dlen := j; fin := true; rest := [] |}
      | b :: src' =>
          let len := Z.of_nat (length src') in
          if (b =? padByte) && (2 <=? j) && (len <? 8) then
            if len + j <? 8 - 1 then inl (CorruptInputError olen)
            else
              match badPadding (Z.to_nat (8 - 1 - j)) 0 src' with
              | Some i => inl (CorruptInputError (olen - len + i - 1))
              | None =>
                  if (j =? 1) || (j =? 3) || (j =? 6)
                  then inl (CorruptInputError (olen - len - 1))
                  else inr {| dbuf := buf; dlen := j; fin := true;
                              rest := src' |}
              end
          else
            let d := decodeMap b in
            if d =? 255 then inl (CorruptInputError (olen - len - 1))
            else readQuantum k' (j + 1) (buf ++ [d]) src' olen
      end
  end.

(** The packing [switch] of [decode]: eight five-bit symbols give up to
    five bytes; the cases fall through, so the bytes come out for
    [dlen] 8, 7, 5, 4 and 2, and no byte at all for 1, 3 and 6. *)
Definition pack (n : Z) (buf : list Z) : list Z :=
  let d i := nth i buf 0 in
  let b0 := u8 (Z.lor (u8 (Z.shiftl (d 0%nat) 3)) (Z.shiftr (d 1%nat) 2)) in
  let b1 := u8 (Z.lor (Z.lor (u8 (Z.shiftl (d 1%nat) 6))
                             (u8 (Z.shiftl (d 2%nat) 1)))
                      (Z.shiftr (d 3%nat) 4)) in
  let b2 := u8 (Z.lor (u8 (Z.shiftl (d 3%nat) 4)) (Z.shiftr (d 4%nat) 1)) in
  let b3 := u8 (Z.lor (Z.lor (u8 (Z.shiftl (d 4%nat) 7))
                             (u8 (Z.shiftl (d 5%nat) 2)))
                      (Z.shiftr (d 6%nat) 3)) in
  let b4 := u8 (Z.lor (u8 (Z.shiftl (d 6%nat) 5)) (d 7%nat)) in
  if n =? 8 then [b0; b1; b2; b3; b4]
  else if n =? 7 then [b0; b1; b2; b3]
  else if n =? 5 then [b0; b1; b2]
  else if n =? 4 then [b0; b1]
  else if n =? 2 then [b0]
  else [].

(** The outer loop of [decode], [for len(src) > 0 && !end].  Every turn
    consumes at least one byte, so [fuel = len(src)] turns are enough
    (lemma [decodeLoop_fuel] below). *)
Fixpoint decodeLoop (fuel : nat) (src : list Z) (stop : bool) (olen : Z)
    (dst : list Z) : error + list Z :=
  match src with
  | [] => inr dst
  | _ :: _ =>
      if stop then inr dst
      else
        match fuel with
        | O => inr dst
        | S fuel' =>
            match readQuantum 8 0 [] src olen with
            | inl e => inl e
            | inr q =>
                decodeLoop fuel' (rest q) (fin q) olen
                  (dst ++ pack (dlen q) (dbuf q))
            end
        end
  end.

Definition decode (src : list Z) : error + list Z :=
  decodeLoop (length src) src false (Z.of_nat (length src)) [].

Definition DecodeString (s : string) : error + list Z :=
  decode (stripNewlines (bytes_of_string s)).

End base32.

(** ** [encoding/binary], big endian *)
Module BigEndian.

(** [PutUint32(b, v)] on a four-byte slice. *)
Definition PutUint32 (v : Z) : list Z :=
  [u8 (Z.shiftr v 24); u8 (Z.shiftr v 16); u8 (Z.shiftr v 8); u8 v].

(** [Uint32(b)]: reads the first four bytes; panics on a shorter slice. *)
Definition Uint32 (b : list Z) : result Z :=
  match b with
  | b0 :: b1 :: b2 :: b3 :: _ =>
      Ok (Z.lor (Z.lor (Z.lor b3 (Z.shiftl b2 8)) (Z.shiftl b1 16))
                (Z.shiftl b0 24))
  | _ => Panic "index out of range"%string
  end.

End BigEndian.

(** ** [challenge_id.go] *)

(** [for bytes[0] == 0 { bytes = bytes[1:] }]: indexing an empty slice
    panics. *)
Fixpoint stripZeroBytes (bytes : list Z) : result (list Z) :=
  match bytes with
  | [] => Panic "index out of range"%string
  | b :: bytes' => if b =? 0 then stripZeroBytes bytes' else Ok bytes
  end.

Definition encodeChallengeID (id : Z) : result string :=
  if (id <=? 0) || (id >=? 4294967295) then Panic "id out of bounds"%string
  else
    let bytes := BigEndian.PutUint32 (u32 id) in
    let! bytes := stripZeroBytes bytes in
    Ok (base32.EncodeToString bytes).

(** [for len(bytes) < 4 { bytes = append([]byte{0}, bytes...) }]; the
    loop runs at most four times. *)
Fixpoint padZeroBytes (n : nat) (bytes : list Z) : list Z :=
  match n with
  | O => bytes
  | S n' =>
      if Z.of_nat (length bytes) <? 4 then padZeroBytes n' (0 :: bytes)
      else bytes
  end.

Definition decodeChallengeID (id : string) : result Z :=
  match base32.DecodeString id with
  | inl err => Err err
  | inr bytes => BigEndian.Uint32 (padZeroBytes 4 bytes)
  end.

(** ** [strconv] and [unicode/utf8] *)
Module strconv.

(** [FormatInt(i, 10)] *)
Definition FormatInt (i : Z) : string := NilZero.string_of_int (Z.to_int i).

(** [Atoi], on the decimal numerals [FormatInt] prints; anything else
    is a syntax error.  The package only ever parses what it has just
    formatted. *)
Definition Atoi (s : string) : result Z :=
  match NilZero.int_of_string s with
  | Some d => Ok (Z.of_int d)
  | None => Err (OtherError ("strconv.Atoi: parsing: invalid syntax"%string))
  end.

End strconv.

Module utf8.

Definition between (lo b hi : Z) : bool := (lo <=? b) && (b <=? hi).

(** A continuation byte, [0x80..0xBF]. *)
Definition cont (b : Z) : bool := between 128 b 191.

(** [utf8.Valid]: the first byte fixes the length of the sequence and
    the range of the second byte, which rules out overlong forms,
    surrogates and code points above [U+10FFFF]. *)
Fixpoint Valid (p : list Z) : bool :=
  match p with
  | [] => true
  | b0 :: p1 =>
      if b0 <? 128 then Valid p1
      else if between 194 b0 223 then
        match p1 with
        | b1 :: p2 => cont b1 && Valid p2
        | _ => false
        end
      else if between 224 b0 239 then
        match p1 with
        | b1 :: b2 :: p3 =>
            (if b0 =? 224 then between 160 b1 191
             else if b0 =? 237 then between 128 b1 159
             else cont b1)
            && cont b2 && Valid p3
        | _ => false
        end
      else if between 240 b0 244 then
        match p1 with
        | b1 :: b2 :: b3 :: p4 =>
            (if b0 =? 240 then between 144 b1 191
             else if b0 =? 244 then between 128 b1 143
             else cont b1)
            && cont b2 && cont b3 && Valid p4
        | _ => false
        end
      else false
  end.

End utf8.

(** ** [math/rand]: finite distributions

    [rand.Intn(n)] draws from [0, n) uniformly and panics for [n <= 0].
    A computation that draws random numbers is its distribution of
    outcomes: a finite list of outcomes with their weights, which are
    rationals that add up to one. *)
Definition dist (A : Type) : Type := list (Q * A).

Definition dret {A} (a : A) : dist A := [(1%Q, a)].

Definition dbind {A B} (d : dist A) (k : A -> dist B) : dist B :=
  flat_map (fun wa => map (fun wb => (Qmult (fst wa) (fst wb), snd wb))
                          (k (snd wa))) d.

(** The weight of the outcomes that satisfy [E]. *)
Fixpoint prob {A} (E : A -> bool) (d : dist A) : Q :=
  match d with
  | [] => 0%Q
  | (w, a) :: d' => if E a then Qplus w (prob E d') else prob E d'
  end.

(** A random computation that may fail or panic. *)
Definition rand (A : Type) : Type := dist (result A).

Definition rand_ret {A} (r : result A) : rand A := dret r.

Definition rand_bind {A B} (d : rand A) (k : A -> rand B) : rand B :=
  dbind d (fun r =>
    match r with
    | Ok a => k a
    | Err e => dret (Err e)
    | Panic m => dret (Panic m)
    end).

Notation "'draw!' x ':=' d 'in' k" := (rand_bind d (fun x => k))
  (at level 10, x name, d at level 100, k at level 200, only parsing).

Definition Intn (n : Z) : rand Z :=
  if n <=? 0 then dret (Panic "invalid argument to Intn"%string)
  else map (fun i => (Qmake 1 (Z.to_pos n), Ok (Z.of_nat i)))
           (seq 0 (Z.to_nat n)).

(** [s[i]] on a slice: out of range panics. *)
Definition index {A} (s : list A) (i : Z) : result A :=
  if (i <? 0) || (Z.of_nat (length s) <=? i)
  then Panic "index out of range"%string
  else match nth_error s (Z.to_nat i) with
       | Some a => Ok a
       | None => Panic "index out of range"%string
       end.

(** [len(s)] *)
Definition len {A} (s : list A) : Z := Z.of_nat (length s).

(** ** What the package consumes: the store and the network *)

(** A query gives the error of [Query], or rows; scanning a row gives its
    columns, or an error.  [rows.Next] ends the loop at the last row the
    store delivers; the code never looks at [rows.Err]. *)
Definition rows (R : Type) : Type := list (error + R).
Definition query (R : Type) : Type := error + rows R.

(** A [float64] is its IEEE 754 bit pattern and a [time.Time] its
    nanoseconds: the package stores them and never computes with them. *)
Definition float64 : Type := Z.

Module time.
Definition Time : Type := Z.
End time.

(** [io.ReadAll(resp.Body)] *)
Inductive body : Type :=
| BodyRead (bytes : list Z)
| BodyError (msg : string).

(** One attempt of the capability fetch, as the network answers it:
    [http.NewRequestWithContext] fails, or [c.Do] fails (also on the
    ten-second timeout), or there is a response. *)
Inductive exchange : Type :=
| NewRequestError (msg : string)
| DoError (msg : string)
| Response (StatusCode : Z) (Body : body).

(** ** [repos.go], the revision of lines 423 to 898 *)
Module repos.

Module PictureSrc.
Record t := { Src : string; Width : Z; Height : Z }.
End PictureSrc.

(** The anonymous structs inside [Challenge]: the types of its fields
    [Geo], [Src], [Photographer] and [R]. *)
Module LngLat.
Record t := { Lng : float64; Lat : float64 }.
End LngLat.

Module Pictures.
Record t := {
  Preview : PictureSrc.t;
  Regular : PictureSrc.t;
  Large : PictureSrc.t
}.
End Pictures.

Module Credit.
Record t := { Icon : string; Text : string; Link : string }.
End Credit.

Module XY.
Record t := { X : float64; Y : float64 }.
End XY.

Module Challenge.
Record t := {
  ID : string;
  RegionID : string;
  Geo : LngLat.t;
  Title : string;
  DescriptionHTML : string;
  DateTaken : option time.Time;
  Link : string;
  Src : Pictures.t;
  Photographer : Credit.t;
  R : XY.t
}.

(** The zero value of the struct, as [new(Challenge)] gives it. *)
Definition zero : t :=
  let pic := {| PictureSrc.Src := EmptyString; PictureSrc.Width := 0;
                PictureSrc.Height := 0 |} in
  {| ID := EmptyString; RegionID := EmptyString;
     Geo := {| LngLat.Lng := 0; LngLat.Lat := 0 |};
     Title := EmptyString; DescriptionHTML := EmptyString;
     DateTaken := None; Link := EmptyString;
     Src := {| Pictures.Preview := pic; Pictures.Regular := pic;
               Pictures.Large := pic |};
     Photographer := {| Credit.Icon := EmptyString;
                        Credit.Text := EmptyString;
                        Credit.Link := EmptyString |};
     R := {| XY.X := 0; XY.Y := 0 |} |}.

(** [c.ID = id; c.RegionID = regionID] *)
Definition identify (c : t) (id regionID : string) : t :=
  {| ID := id; RegionID := regionID; Geo := Geo c; Title := Title c;
     DescriptionHTML := DescriptionHTML c; DateTaken := DateTaken c;
     Link := Link c; Src := Src c; Photographer := Photographer c;
     R := R c |}.
End Challenge.

Module MapLayer.
Record t := {
  ID : string;
  Name : string;
  CapabilitiesXML : string;
  Layer : string;
  MatrixSet : string;
  Resolutions : list float64;
  DefaultResolution : float64;
  OSBranding : bool;
  ExtraAttributions : list string
}.

(** The zero value of the struct. *)
Definition zero : t :=
  {| ID := EmptyString; Name := EmptyString;
     CapabilitiesXML := EmptyString; Layer := EmptyString;
     MatrixSet := EmptyString; Resolutions := []; DefaultResolution := 0;
     OSBranding := false; ExtraAttributions := [] |}.

Definition setID (ml : t) (id : string) : t :=
  {| ID := id; Name := Name ml; CapabilitiesXML := CapabilitiesXML ml;
     Layer := Layer ml; MatrixSet := MatrixSet ml;
     Resolutions := Resolutions ml;
     DefaultResolution := DefaultResolution ml;
     OSBranding := OSBranding ml;
     ExtraAttributions := ExtraAttributions ml |}.

Definition setOSBranding (ml : t) (b : bool) : t :=
  {| ID := ID ml; Name := Name ml; CapabilitiesXML := CapabilitiesXML ml;
     Layer := Layer ml; MatrixSet := MatrixSet ml;
     Resolutions := Resolutions ml;
     DefaultResolution := DefaultResolution ml;
     OSBranding := b;
     ExtraAttributions := ExtraAttributions ml |}.

Definition setCapabilitiesXML (ml : t) (xml : string) : t :=
  {| ID := ID ml; Name := Name ml; CapabilitiesXML := xml;
     Layer := Layer ml; MatrixSet := MatrixSet ml;
     Resolutions := Resolutions ml;
     DefaultResolution := DefaultResolution ml;
     OSBranding := OSBranding ml;
     ExtraAttributions := ExtraAttributions ml |}.
End MapLayer.

Module BBox.
Record t := {
  MinLng : float64; MaxLng : float64; MaxLat : float64; MinLat : float64
}.
End BBox.

Module Region.
Record t := {
  ID : string;
  GeoJSON : string;
  Name : string;
  CountryISO2 : string;
  LogoURL : string;
  BBox : BBox.t;
  MapLayer : MapLayer.t
}.

(** The zero value of the struct, as [var r Region] gives it. *)
Definition zero : t :=
  {| ID := EmptyString; GeoJSON := EmptyString; Name := EmptyString;
     CountryISO2 := EmptyString; LogoURL := EmptyString;
     BBox := {| BBox.MinLng := 0; BBox.MaxLng := 0; BBox.MaxLat := 0;
                BBox.MinLat := 0 |};
     MapLayer := MapLayer.zero |}.

Definition setID (r : t) (id : string) : t :=
  {| ID := id; GeoJSON := GeoJSON r; Name := Name r;
     CountryISO2 := CountryISO2 r; LogoURL := LogoURL r;
     BBox := BBox r; MapLayer := MapLayer r |}.

Definition setMapLayer (r : t) (ml : MapLayer.t) : t :=
  {| ID := ID r; GeoJSON := GeoJSON r; Name := Name r;
     CountryISO2 := CountryISO2 r; LogoURL := LogoURL r;
     BBox := BBox r; MapLayer := ml |}.
End Region.

(** *** The capability fetch *)

(** The operation [fetchCapabilities] hands to [backoff.Retry], on one
    exchange. *)
Definition attempt (x : exchange) : error + string :=
  match x with
  | NewRequestError msg => inl (OtherError msg)
  | DoError msg => inl (OtherError msg)
  | Response StatusCode Body =>
      if negb (StatusCode =? 200) then
        let body :=
          match Body with
          | BodyRead v => string_of_bytes v
          | BodyError msg => ("<error reading body: " ++ msg ++ ">")%string
          end in
        inl (OtherError ("unexpected status code "
                         ++ strconv.FormatInt StatusCode ++ ": " ++ body)%string)
      else
        match Body with
        | BodyError msg => inl (OtherError msg)
        | BodyRead xml =>
            if negb (utf8.Valid xml) then inl (OtherError "invalid utf-8"%string)
            else inr (string_of_bytes xml)
        end
  end.

(** [backoff.Retry]: the operation runs until it succeeds or
    [NextBackOff] says [Stop], which the exponential policy does once
    its one minute of elapsed time is spent; the error returned is the
    one of the last run.  [x] answers the first run and [later] the runs
    the policy still allows, in order. *)
Fixpoint Retry (x : exchange) (later : list exchange) : error + string :=
  match attempt x with
  | inr out => inr out
  | inl err =>
      match later with
      | [] => inl err
      | x' :: later' => Retry x' later'
      end
  end.

Definition fetchCapabilities (x : exchange) (later : list exchange)
    : error + string :=
  Retry x later.

(** What the network answers, in one refresh cycle, to the runs of the
    fetch for layer [id] at [url]. *)
Definition network : Type := Z -> string -> exchange * list exchange.

(** *** Rows *)

(** A row of the challenge query: [c] holds the columns scanned into
    the new [Challenge], whose [ID] and [RegionID] are still empty. *)
Module ChallengeRow.
Record t := { internalID : Z; internalRegionID : Z; c : Challenge.t }.
End ChallengeRow.

(** A row of the region query; [r] holds the columns scanned into the
    new [Region]. *)
Module RegionRow.
Record t := { internalID : Z; r : Region.t }.
End RegionRow.

(** A row of the map-layer query; [ml] holds the columns scanned into
    the new [MapLayer], the capabilities URL in [CapabilitiesXML]. *)
Module LayerRow.
Record t := { internalID : Z; ml : MapLayer.t; osBranding : option bool }.
End LayerRow.

(** What the store answers to one region refresh. *)
Module RegionStore.
Record t := {
  Begin : option error;
  regions : query RegionRow.t;
  mapLayers : query LayerRow.t;
  regionMapLayers : query (Z * Z)
}.
End RegionStore.

(** The snapshot fields of [Repo], which [mu] guards, and its methods.
    The maps of pointers are maps of values: a published [Challenge] is
    never written again.  The methods wait for [initWg] first: they
    run on a repo that both refreshers have loaded once. *)
Module Repo.
Record t := {
  regions : gmap Z Region.t;
  challenges : gmap Z Challenge.t;
  challengesByRegion : gmap Z (list Challenge.t);
  regionsWithChallenges : list Z
}.

(** The repo [New] builds, before any refresh: nil maps. *)
Definition New : t :=
  {| regions := ∅; challenges := ∅; challengesByRegion := ∅;
     regionsWithChallenges := [] |}.

Definition Regions (r : t) : gmap Z Region.t := regions r.

(** The first half of [RandomChallenge]: the region to draw from. *)
Definition pickRegion (r : t) (region : option Z) : rand Z :=
  match region with
  | Some regionID => rand_ret (Ok regionID)
  | None =>
      draw! i := Intn (len (regionsWithChallenges r)) in
      rand_ret (index (regionsWithChallenges r) i)
  end.

(** The second half: a challenge of that region.  A missing key reads
    as the nil slice. *)
Definition pickChallenge (r : t) (regionID : Z) : rand Challenge.t :=
  let list := default [] (challengesByRegion r !! regionID) in
  if len list =? 0 then rand_ret (Err NoChallengesAvailableError)
  else
    draw! i := Intn (len list) in
    rand_ret (index list i).

Definition RandomChallenge (r : t) (region : option Z)
    : rand Challenge.t :=
  draw! regionID := pickRegion r region in
  pickChallenge r regionID.

Definition Challenge (r : t) (id : string) : result Challenge.t :=
  match decodeChallengeID id with
  | Ok internalID =>
      match challenges r !! internalID with
      | Some val => Ok val
      | None => Err ChallengeNotFoundError
      end
  | Err err => Err err
  | Panic m => Panic m
  end.

Definition ChallengesPerRegion (r : t) : gmap Z Z :=
  len <$> challengesByRegion r.
(** *** The region refresh *)

Fixpoint scanRegions (rs : rows RegionRow.t) (out : gmap Z Region.t)
    : result (gmap Z Region.t) :=
  match rs with
  | [] => Ok out
  | inl err :: _ => Err err
  | inr row :: rs' =>
      let internalID := RegionRow.internalID row in
      let r := Region.setID (RegionRow.r row)
                 (strconv.FormatInt internalID) in
      scanRegions rs' (<[internalID := r]> out)
  end.

Fixpoint scanMapLayers (rs : rows LayerRow.t)
    (mapLayers : gmap Z MapLayer.t) : result (gmap Z MapLayer.t) :=
  match rs with
  | [] => Ok mapLayers
  | inl err :: _ => Err err
  | inr row :: rs' =>
      let internalID := LayerRow.internalID row in
      let ml := MapLayer.setID (LayerRow.ml row)
                  (strconv.FormatInt internalID) in
      let ml := match LayerRow.osBranding row with
                | Some b => MapLayer.setOSBranding ml b
                | None => ml
                end in
      scanMapLayers rs' (<[internalID := ml]> mapLayers)
  end.

(** One turn of the fan-out, with its goroutine run to the end: the
    fetch for one layer, then [delete(mapLayers, id)] or
    [mapLayers[id].CapabilitiesXML = xml].  Every goroutine touches
    the entry of its own id only, so the order of the turns does not
    matter. *)
Definition enrich (net : network) (mapLayers : result (gmap Z MapLayer.t))
    (entry : Z * MapLayer.t) : result (gmap Z MapLayer.t) :=
  let! mapLayers := mapLayers in
  let ml := snd entry in
  match strconv.Atoi (MapLayer.ID ml) with
  | Ok id =>
      let url := MapLayer.CapabilitiesXML ml in
      match fetchCapabilities (fst (net id url)) (snd (net id url)) with
      | inl err => Ok (delete id mapLayers)
      | inr xml =>
          match mapLayers !! id with
          | Some ml' =>
              Ok (<[id := MapLayer.setCapabilitiesXML ml' xml]> mapLayers)
          | None => Panic "nil pointer dereference"%string
          end
      end
  | Err err => Panic "strconv.Atoi"%string
  | Panic m => Panic m
  end.

Definition enrichAll (net : network) (mapLayers : gmap Z MapLayer.t)
    : result (gmap Z MapLayer.t) :=
  fold_left (enrich net) (map_to_list mapLayers) (Ok mapLayers).

Fixpoint attachMapLayers (rs : rows (Z * Z))
    (mapLayers : gmap Z MapLayer.t) (out : gmap Z Region.t)
    : result (gmap Z Region.t) :=
  match rs with
  | [] => Ok out
  | inl err :: _ => Err err
  | inr (regionID, mlID) :: rs' =>
      match out !! regionID with
      | None => attachMapLayers rs' mapLayers out
      | Some prevRegionValue =>
          match mapLayers !! mlID with
          | None => attachMapLayers rs' mapLayers (delete regionID out)
          | Some ml =>
              attachMapLayers rs' mapLayers
                (<[regionID := Region.setMapLayer prevRegionValue ml]> out)
          end
      end
  end.

(** Everything [updateRegions] does before it takes the lock. *)
Definition loadRegions (db : RegionStore.t) (net : network)
    : result (gmap Z Region.t) :=
  match RegionStore.Begin db with
  | Some err => Err err
  | None =>
      match RegionStore.regions db with
      | inl err => Err err
      | inr rs =>
          let! out := scanRegions rs ∅ in
          match RegionStore.mapLayers db with
          | inl err => Err err
          | inr rs =>
              let! mapLayers := scanMapLayers rs ∅ in
              let! mapLayers := enrichAll net mapLayers in
              match RegionStore.regionMapLayers db with
              | inl err => Err err
              | inr rs => attachMapLayers rs mapLayers out
              end
          end
      end
  end.

(** [updateRegions]: the repo after the call and what the call
    returns. *)
Definition updateRegions (r : t) (db : RegionStore.t) (net : network)
    : t * result unit :=
  match loadRegions db net with
  | Ok out =>
      ({| regions := out; challenges := challenges r;
          challengesByRegion := challengesByRegion r;
          regionsWithChallenges := regionsWithChallenges r |}, Ok tt)
  | Err err => (r, Err err)
  | Panic m => (r, Panic m)
  end.

(** *** The challenge refresh *)

Fixpoint scanChallenges (rs : rows ChallengeRow.t)
    (challenges : gmap Z Challenge.t)
    (challengesByRegion : gmap Z (list Challenge.t))
    : result (gmap Z Challenge.t * gmap Z (list Challenge.t)) :=
  match rs with
  | [] => Ok (challenges, challengesByRegion)
  | inl err :: _ => Err err
  | inr row :: rs' =>
      let internalID := ChallengeRow.internalID row in
      let internalRegionID := ChallengeRow.internalRegionID row in
      let! id := encodeChallengeID internalID in
      let c := Challenge.identify (ChallengeRow.c row) id
                 (strconv.FormatInt internalRegionID) in
      scanChallenges rs'
        (<[internalID := c]> challenges)
        (<[internalRegionID :=
             default [] (challengesByRegion !! internalRegionID) ++ [c]]>
           challengesByRegion)
  end.

(** [for regionID := range challengesByRegion]: the keys, in the
    order the map gives them, which Go leaves open. *)
Definition keys (challengesByRegion : gmap Z (list Challenge.t))
    : list Z :=
  map fst (map_to_list challengesByRegion).

Definition updateChallenges (r : t) (db : query ChallengeRow.t)
    : t * result unit :=
  match db with
  | inl err => (r, Err err)
  | inr rs =>
      match scanChallenges rs ∅ ∅ with
      | Ok (challenges, challengesByRegion) =>
          ({| regions := regions r; challenges := challenges;
              challengesByRegion := challengesByRegion;
              regionsWithChallenges := keys challengesByRegion |}, Ok tt)
      | Err err => (r, Err err)
      | Panic m => (r, Panic m)
      end
  end.
End Repo.

End repos.

(** ** [repos.go], the revision of lines 1 to 421

    The earlier revision of the file.  Identifiers are integers in its
    structs, and its challenge refresh differs in one line.  [PictureSrc]
    and the nested structs are the later revision's. *)
Module repos_rev1.

Module Challenge.
Record t := {
  ID : string;
  RegionID : Z;
  Lng : float64;
  Lat : float64;
  Title : string;
  DescriptionHTML : string;
  DateTaken : option time.Time;
  Link : string;
  Src : repos.Pictures.t;
  Photographer : repos.Credit.t;
  R : repos.XY.t
}.

Definition zero : t :=
  {| ID := EmptyString; RegionID := 0; Lng := 0; Lat := 0;
     Title := EmptyString; DescriptionHTML := EmptyString;
     DateTaken := None; Link := EmptyString;
     Src := repos.Challenge.Src repos.Challenge.zero;
     Photographer := repos.Challenge.Photographer repos.Challenge.zero;
     R := repos.Challenge.R repos.Challenge.zero |}.

Definition setRegionID (c : t) (regionID : Z) : t :=
  {| ID := ID c; RegionID := regionID; Lng := Lng c; Lat := Lat c;
     Title := Title c; DescriptionHTML := DescriptionHTML c;
     DateTaken := DateTaken c; Link := Link c; Src := Src c;
     Photographer := Photographer c; R := R c |}.

(** [c.ID = id] *)
Definition setID (c : t) (id : string) : t :=
  {| ID := id; RegionID := RegionID c; Lng := Lng c; Lat := Lat c;
     Title := Title c; DescriptionHTML := DescriptionHTML c;
     DateTaken := DateTaken c; Link := Link c; Src := Src c;
     Photographer := Photographer c; R := R c |}.
End Challenge.

Module MapLayer.
Record t := {
  ID : Z;
  Name : string;
  CapabilitiesXML : string;
  Layer : string;
  MatrixSet : string;
  Resolutions : list float64;
  DefaultResolution : float64;
  OSBranding : bool;
  ExtraAttributions : list string
}.
End MapLayer.

Module Region.
Record t := {
  ID : Z;
  GeoJSON : string;
  Name : string;
  CountryISO2 : string;
  LogoURL : string;
  MinLng : float64;
  MaxLng : float64;
  MinLat : float64;
  MaxLat : float64;
  MapLayer : MapLayer.t
}.
End Region.

(** A row of the challenge query: [c] holds the columns scanned into
    the new [Challenge], [RegionID] among them; [ID] is still empty. *)
Module ChallengeRow.
Record t := { internalID : Z; c : Challenge.t }.
End ChallengeRow.

Module Repo.
Record t := {
  regions : gmap Z Region.t;
  challenges : gmap Z Challenge.t;
  challengesByRegion : gmap Z (list Challenge.t);
  regionsWithChallenges : list Z
}.

Definition New : t :=
  {| regions := ∅; challenges := ∅; challengesByRegion := ∅;
     regionsWithChallenges := [] |}.

Definition Challenge (r : t) (id : string) : result Challenge.t :=
  match decodeChallengeID id with
  | Ok internalID =>
      match challenges r !! internalID with
      | Some val => Ok val
      | None => Err ChallengeNotFoundError
      end
  | Err err => Err err
  | Panic m => Panic m
  end.

(** The loop of [updateChallenges]; line 406 stores the challenge
    under [c.RegionID]. *)
Fixpoint scanChallenges (rs : rows ChallengeRow.t)
    (challenges : gmap Z Challenge.t)
    (challengesByRegion : gmap Z (list Challenge.t))
    : result (gmap Z Challenge.t * gmap Z (list Challenge.t)) :=
  match rs with
  | [] => Ok (challenges, challengesByRegion)
  | inl err :: _ => Err err
  | inr row :: rs' =>
      let internalID := ChallengeRow.internalID row in
      let! id := encodeChallengeID internalID in
      let c := Challenge.setID (ChallengeRow.c row) id in
      scanChallenges rs'
        (<[Challenge.RegionID c := c]> challenges)
        (<[Challenge.RegionID c :=
             default [] (challengesByRegion !! Challenge.RegionID c)
             ++ [c]]>
           challengesByRegion)
  end.

Definition keys (challengesByRegion : gmap Z (list Challenge.t))
    : list Z :=
  map fst (map_to_list challengesByRegion).

Definition updateChallenges (r : t) (db : query ChallengeRow.t)
    : t * result unit :=
  match db with
  | inl err => (r, Err err)
  | inr rs =>
      match scanChallenges rs ∅ ∅ with
      | Ok (challenges, challengesByRegion) =>
          ({| regions := regions r; challenges := challenges;
              challengesByRegion := challengesByRegion;
              regionsWithChallenges := keys challengesByRegion |}, Ok tt)
      | Err err => (r, Err err)
      | Panic m => (r, Panic m)
      end
  end.
End Repo.

End repos_rev1.

(** ** The vocabulary of the statements *)

Import repos.

(** A five-bit group and a byte, as ranges of [Z]. *)
Definition group (g : Z) : Prop := 0 <= g < 32.
Definition byte (b : Z) : Prop := 0 <= b < 256.

(** What the decoder needs of the symbol of a group: it maps back to the
    group, and it is a byte that is neither the padding byte nor a line
    break. *)
Definition symbol_ok (g : Z) : bool :=
  let c := base32.encode g in
  (base32.decodeMap c =? g) && negb (c =? base32.padByte) &&
  negb ((c =? 13) || (c =? 10)) && (0 <=? c) && (c <? 256) &&
  negb (g =? 255).

(** A byte the decoder maps to a group. *)
Definition symbol (b : Z) : Prop := base32.decodeMap b <> 255.

(** The alphabet, as the set of bytes of [encoder]. *)
Definition inAlphabet (b : Z) : Prop := In b (bytes_of_string base32.encoder).

(** What it is for the store to fail: a query does, or a row does not
    scan; during a region refresh, [Begin] may fail too. *)
Definition failed {R} (q : query R) : Prop :=
  match q with
  | inl _ => True
  | inr rs => exists err, In (inl err) rs
  end.

Definition storeFails (db : RegionStore.t) : Prop :=
  RegionStore.Begin db <> None \/ failed (RegionStore.regions db) \/
  failed (RegionStore.mapLayers db) \/ failed (RegionStore.regionMapLayers db).

(** A run of the fetch that fails. *)
Definition fails (x : exchange) : Prop := exists err, attempt x = inl err.

(** The challenge a row becomes. *)
Definition loaded (row : ChallengeRow.t) (id : string) : Challenge.t :=
  Challenge.identify (ChallengeRow.c row) id
    (strconv.FormatInt (ChallengeRow.internalRegionID row)).

(** The internal ids of the rows. *)
Definition rowIDs (rs : rows ChallengeRow.t) : list Z :=
  flat_map (fun x => match x with
                     | inr row => [ChallengeRow.internalID row]
                     | inl _ => []
                     end) rs.

(** The challenges of the rows of one region, in the order of the rows. *)
Definition loadedOf (regionID : Z) (rs : rows ChallengeRow.t)
    : list Challenge.t :=
  flat_map (fun x =>
    match x with
    | inr row =>
        if ChallengeRow.internalRegionID row =? regionID then
          match encodeChallengeID (ChallengeRow.internalID row) with
          | Ok id => [loaded row id]
          | _ => []
          end
        else []
    | inl _ => []
    end) rs.

Fixpoint sumQ (l : list Q) : Q :=
  match l with
  | [] => 0%Q
  | q :: l' => Qplus q (sumQ l')
  end.

(** The mean of [f] under [d]. *)
Definition expect {A} (f : A -> Q) (d : dist A) : Q :=
  sumQ (map (fun wa => Qmult (fst wa) (f (snd wa))) d).

(** The indicator of an event. *)
Definition ind (b : bool) : Q := if b then 1%Q else 0%Q.

(** The events of the claims: stage one picks [regionID]; the call
    returns the challenge [c], told by its opaque id. *)
Definition picks (regionID : Z) (o : result Z) : bool :=
  match o with
  | Ok x => x =? regionID
  | _ => false
  end.

Definition returns (c : Challenge.t) (o : result Challenge.t) : bool :=
  match o with
  | Ok c' => String.eqb (Challenge.ID c') (Challenge.ID c)
  | _ => false
  end.

(** Every layer of the working set carries its key as its [ID]. *)
Definition keyed (mapLayers : gmap Z MapLayer.t) : Prop :=
  forall id ml, mapLayers !! id = Some ml ->
    MapLayer.ID ml = strconv.FormatInt id.

(** What the fetch of a layer gives in this cycle. *)
Definition fetched (net : network) (id : Z) (ml : MapLayer.t)
    : error + string :=
  fetchCapabilities (fst (net id (MapLayer.CapabilitiesXML ml)))
                    (snd (net id (MapLayer.CapabilitiesXML ml))).

(** The working set after the fan-out: a layer whose fetch failed is
    gone, and the others carry the text fetched. *)
Definition enriched (net : network) (id : Z) (ml : MapLayer.t)
    : option MapLayer.t :=
  match fetched net id ml with
  | inl _ => None
  | inr xml => Some (MapLayer.setCapabilitiesXML ml xml)
  end.

(** Sample answers of the store and of the network. *)
Module sample.

Definition refused : error := OtherError "connection refused".

(** A store that cannot begin a transaction. *)
Definition down : RegionStore.t :=
  {| RegionStore.Begin := Some refused; RegionStore.regions := inr [];
     RegionStore.mapLayers := inr [];
     RegionStore.regionMapLayers := inr [] |}.

Definition offline : network := fun _ _ => (DoError "no route to host", []).

(** A capabilities endpoint that answers 200 with an empty body. *)
Definition blank : network := fun _ _ => (Response 200 (BodyRead []), []).

Definition regionRow (internalID : Z) : error + RegionRow.t :=
  inr {| RegionRow.internalID := internalID; RegionRow.r := Region.zero |}.

Definition layerRow (internalID : Z) (url : string) : error + LayerRow.t :=
  inr {| LayerRow.internalID := internalID;
         LayerRow.ml := MapLayer.setCapabilitiesXML MapLayer.zero url;
         LayerRow.osBranding := None |}.

(** One active region, which no row of [region_map_layers] mentions. *)
Definition unlayered : RegionStore.t :=
  {| RegionStore.Begin := None;
     RegionStore.regions := inr [regionRow 1];
     RegionStore.mapLayers := inr [];
     RegionStore.regionMapLayers := inr [] |}.

(** One active region with its layer. *)
Definition layered : RegionStore.t :=
  {| RegionStore.Begin := None;
     RegionStore.regions := inr [regionRow 1];
     RegionStore.mapLayers := inr [layerRow 7 "https://maps.example/wmts"];
     RegionStore.regionMapLayers := inr [inr (1, 7)] |}.

Definition challengeRow (internalID internalRegionID : Z)
    : error + ChallengeRow.t :=
  inr {| ChallengeRow.internalID := internalID;
         ChallengeRow.internalRegionID := internalRegionID;
         ChallengeRow.c := Challenge.zero |}.

(** Three challenges: one in region 10, two in region 20. *)
Definition three : query ChallengeRow.t :=
  inr [challengeRow 1 10; challengeRow 2 20; challengeRow 3 20].

(** The earlier revision: challenge 5 in region 1. *)
Definition rev1Row : error + repos_rev1.ChallengeRow.t :=
  inr {| repos_rev1.ChallengeRow.internalID := 5;
         repos_rev1.ChallengeRow.c :=
           repos_rev1.Challenge.setRegionID repos_rev1.Challenge.zero 1 |}.

End sample.

(** ** [challenge_id_test.go]: the round-trip subtest *)

(** How a test function ends: it returns, [t.Fatal] or [t.Fatalf] stops
    it, or it panics. *)
Inductive verdict : Type :=
| Pass
| Fatal (err : error)
| Fatalf (expected got : Z)
| Panics (msg : string).

(** [for ; i < hi; i++ { ... }], with [n] turns to go.
    [encodeChallengeID] has no error result: it returns or panics. *)
Fixpoint roundTripLoop (n : nat) (i : Z) : verdict :=
  match n with
  | O => Pass
  | S n' =>
      match encodeChallengeID i with
      | Ok encoded =>
          match decodeChallengeID encoded with
          | Ok decoded =>
              if negb (i =? decoded) then Fatalf i decoded
              else roundTripLoop n' (i + 1)
          | Err err => Fatal err
          | Panic m => Panics m
          end
      | Err err => Fatal err
      | Panic m => Panics m
      end
  end.

(** The subtest ["round trip"]: [for i := 0; i < 1000; i++]. *)
Definition TestChallengeID_round_trip : verdict := roundTripLoop 1000 0.

(** ** More vocabulary *)

(** A row that scans and whose internal id the codec accepts. *)
Definition goodRow (x : error + ChallengeRow.t) : Prop :=
  exists row, x = inr row /\ 1 <= ChallengeRow.internalID row <= 2 ^ 32 - 2.

(** The number of rows of a region. *)
Definition rowsIn (regionID : Z) (rs : rows ChallengeRow.t) : Z :=
  len (List.filter (fun x => match x with
                             | inr row =>
                                 ChallengeRow.internalRegionID row =? regionID
                             | inl _ => false
                             end) rs).

(** ** The updater loops

    [challengesUpdater] and [regionsUpdater] run one refresh cycle, end
    the process with [log.Fatalf] when it returns an error, signal
    [initWg] otherwise, and then [select] for ever on their ticker and
    on the context.  What [select] delivers is the input of the model:
    a tick, with what the store (and the network) answer to the cycle it
    starts, or the cancellation.  Each updater writes its own fields of
    the repo only. *)
Inductive event (A : Type) : Type :=
| Tick (answer : A)
| Done.
Arguments Tick {A} answer.
Arguments Done {A}.

(** Where an updater stands after the events: in its loop, returned
    after the cancellation, or the process has ended, by [log.Fatalf]
    or by the panic of the goroutine. *)
Inductive standing : Type :=
| Selecting
| Returned
| Fatal_exit (err : error)
| Crashed (msg : string).

Module Updater.
Record t := { repo : Repo.t; initDone : bool; now : standing }.
End Updater.

(** The [for { select { ... } }] of [challengesUpdater]: an error of a
    cycle is logged and the loop goes on. *)
Fixpoint challengesTicks (r : Repo.t)
    (events : list (event (query ChallengeRow.t))) : Repo.t * standing :=
  match events with
  | [] => (r, Selecting)
  | Done :: _ => (r, Returned)
  | Tick db :: events' =>
      match Repo.updateChallenges r db with
      | (r', Panic m) => (r', Crashed m)
      | (r', _) => challengesTicks r' events'
      end
  end.

Definition challengesUpdater (r : Repo.t) (first : query ChallengeRow.t)
    (events : list (event (query ChallengeRow.t))) : Updater.t :=
  match Repo.updateChallenges r first with
  | (r', Ok _) =>
      {| Updater.repo := fst (challengesTicks r' events);
         Updater.initDone := true;
         Updater.now := snd (challengesTicks r' events) |}
  | (r', Err err) =>
      {| Updater.repo := r'; Updater.initDone := false;
         Updater.now := Fatal_exit err |}
  | (r', Panic m) =>
      {| Updater.repo := r'; Updater.initDone := false;
         Updater.now := Crashed m |}
  end.

(** The same loop in [regionsUpdater]. *)
Fixpoint regionsTicks (r : Repo.t)
    (events : list (event (RegionStore.t * network))) : Repo.t * standing :=
  match events with
  | [] => (r, Selecting)
  | Done :: _ => (r, Returned)
  | Tick (db, net) :: events' =>
      match Repo.updateRegions r db net with
      | (r', Panic m) => (r', Crashed m)
      | (r', _) => regionsTicks r' events'
      end
  end.

Definition regionsUpdater (r : Repo.t) (first : RegionStore.t * network)
    (events : list (event (RegionStore.t * network))) : Updater.t :=
  match Repo.updateRegions r (fst first) (snd first) with
  | (r', Ok _) =>
      {| Updater.repo := fst (regionsTicks r' events);
         Updater.initDone := true;
         Updater.now := snd (regionsTicks r' events) |}
  | (r', Err err) =>
      {| Updater.repo := r'; Updater.initDone := false;
         Updater.now := Fatal_exit err |}
  | (r', Panic m) =>
      {| Updater.repo := r'; Updater.initDone := false;
         Updater.now := Crashed m |}
  end.

(** What a region refresh never writes. *)
Definition challengeFields (r : Repo.t)
    : gmap Z Challenge.t * gmap Z (list Challenge.t) * list Z :=
  (Repo.challenges r, Repo.challengesByRegion r, Repo.regionsWithChallenges r).

(** ** The handlers of the server that call the repo

    [handleGetChallenge] and [handleGetRandomChallenge] of the server's
    [main] package.  A handler answers with [http.Error(w, msg, code)],
    or with status 200 and the JSON encoding of a value; a panic is the
    repo's. *)
Inductive reply (A : Type) : Type :=
| HttpError (msg : string) (code : Z)
| Json (a : A).
Arguments HttpError {A} msg code.
Arguments Json {A} a.

(** [errors.Is] tells the sentinel from every other error. *)
Definition handleGetChallenge (repo : Repo.t) (id : string)
    : result (reply Challenge.t) :=
  match Repo.Challenge repo id with
  | Err ChallengeNotFoundError => Ok (HttpError "challenge not found" 404)
  | Err _ => Ok (HttpError "internal server error" 500)
  | Ok challenge => Ok (Json challenge)
  | Panic m => Panic m
  end.

Section handlers.

(** [strconv.Atoi] on what the client sent: the handler only looks at
    whether it returns an error. *)
Variable Atoi : string -> result Z.


End handlers.

(** The event that a call returns a value. *)
Definition answered {A} (o : result A) : bool :=
  match o with
  | Ok _ => true
  | _ => false
  end.

(** * Proofs *)

(** ** Bit-level reasoning on bytes *)

Lemma testbit_u8 a i : Z.testbit (u8 a) i = (i <? 8) && Z.testbit a i.
Proof. unfold u8. apply Z.testbit_mod_pow2. lia. Qed.

Lemma testbit_u32 a i : Z.testbit (u32 a) i = (i <? 32) && Z.testbit a i.
Proof. unfold u32. apply Z.testbit_mod_pow2. lia. Qed.

Lemma u8_range a : 0 <= u8 a < 256.
Proof. unfold u8. change (2 ^ 8) with 256. apply Z.mod_pos_bound. lia. Qed.

Lemma u8_small x : 0 <= x < 256 -> u8 x = x.
Proof. intros. unfold u8. apply Z.mod_small. lia. Qed.

Lemma u32_small x : 0 <= x < 2 ^ 32 -> u32 x = x.
Proof. intros. unfold u32. apply Z.mod_small. lia. Qed.

(** One rewriting step that pushes [Z.testbit] through an operation of
    the code. *)
Ltac bits_step :=
  first
  [ rewrite Z.lor_spec | rewrite Z.land_spec
  | rewrite testbit_u8 | rewrite testbit_u32
  | rewrite Z.shiftl_spec' | rewrite Z.shiftr_spec'
  | rewrite Z.testbit_0_l ].

(** Evaluate the bit positions, which are closed terms. *)
Ltac norm_index :=
  repeat match goal with
  | |- context [Z.testbit ?a ?i] =>
      lazymatch i with
      | Zpos _ => fail
      | Z0 => fail
      | Zneg _ => fail
      | _ => let v := eval cbv in i in
             change (Z.testbit a i) with (Z.testbit a v)
      end
  end.

(** At a fixed bit position: both sides become boolean formulas over the
    bits of the input bytes. *)
Ltac bits_at :=
  repeat bits_step; norm_index;
  repeat match goal with
  | |- context [Z.testbit ?a (Zneg ?p)] =>
      rewrite (Z.testbit_neg_r a (Zneg p)) by lia
  | |- context [Z.testbit (Zpos ?p) ?i] =>
      let v := eval cbv in (Z.testbit (Zpos p) i) in
      change (Z.testbit (Zpos p) i) with v
  | |- context [?a <? ?b] =>
      let v := eval cbv in (a <? b) in change (a <? b) with v
  end;
  cbn [andb orb negb]; try btauto.

(** An equation between two bytes, both of the form [u8 _]: bit by bit
    below 8, and nothing above. *)
Ltac byte_bits :=
  let i := fresh "i" in
  let Hi := fresh "Hi" in
  apply Z.bits_inj'; intros i Hi;
  destruct (Z.ltb_spec i 8);
  [ assert (Hc : i = 0 \/ i = 1 \/ i = 2 \/ i = 3 \/
                 i = 4 \/ i = 5 \/ i = 6 \/ i = 7) by lia;
    destruct Hc as [->|[->|[->|[->|[->|[->|[->| ->]]]]]]]; bits_at
  | rewrite !testbit_u8; destruct (Z.ltb_spec i 8); [lia | reflexivity] ].

Ltac bytes_eq :=
  repeat match goal with
  | |- cons _ _ = cons _ _ => apply (f_equal2 (@cons Z))
  end; try reflexivity; byte_bits.

Ltac unfold_pack :=
  unfold base32.pack, base32.remainGroups, base32.quantumGroups;
  cbn [nth Z.eqb Pos.eqb Z.leb Z.compare Pos.compare Pos.compare_cont app].

(** ** [decode] undoes the grouping of [Encode] *)

Lemma pack_remain1 s0 :
  base32.pack 2 (base32.remainGroups 1 (u8 s0) 0 0 0) = [u8 s0].
Proof. unfold_pack. bytes_eq. Qed.

Lemma pack_remain2 s0 s1 :
  base32.pack 4 (base32.remainGroups 2 (u8 s0) (u8 s1) 0 0) = [u8 s0; u8 s1].
Proof. unfold_pack. bytes_eq. Qed.

Lemma pack_remain3 s0 s1 s2 :
  base32.pack 5 (base32.remainGroups 3 (u8 s0) (u8 s1) (u8 s2) 0)
  = [u8 s0; u8 s1; u8 s2].
Proof. unfold_pack. bytes_eq. Qed.

Lemma pack_remain4 s0 s1 s2 s3 :
  base32.pack 7 (base32.remainGroups 4 (u8 s0) (u8 s1) (u8 s2) (u8 s3))
  = [u8 s0; u8 s1; u8 s2; u8 s3].
Proof. unfold_pack. bytes_eq. Qed.

Lemma pack_quantum s0 s1 s2 s3 s4 :
  base32.pack 8 (base32.quantumGroups (u8 s0) (u8 s1) (u8 s2) (u8 s3) (u8 s4))
  = [u8 s0; u8 s1; u8 s2; u8 s3; u8 s4].
Proof. unfold_pack. bytes_eq. Qed.

(** ** The alphabet *)


Lemma Zrange_forallb (P : Z -> bool) (n : nat) :
  forallb P (map Z.of_nat (seq 0 n)) = true ->
  forall g, 0 <= g < Z.of_nat n -> P g = true.
Proof.
  intros H g Hg. rewrite forallb_forall in H. apply H.
  apply in_map_iff. exists (Z.to_nat g). split; [lia|].
  apply in_seq. lia.
Qed.


Lemma encode_symbol g : group g -> symbol_ok g = true.
Proof. apply (Zrange_forallb symbol_ok 32). vm_compute. reflexivity. Qed.

Lemma land31_group x : group (Z.land x 31).
Proof.
  unfold group. change 31 with (Z.ones 5). rewrite Z.land_ones by lia.
  change (2 ^ 5) with 32. apply Z.mod_pos_bound. lia.
Qed.

Lemma remainGroups_group r s0 s1 s2 s3 :
  Forall group (base32.remainGroups r s0 s1 s2 s3).
Proof.
  unfold base32.remainGroups.
  destruct (4 <=? r), (3 <=? r), (2 <=? r), (1 <=? r); cbn [app];
    repeat constructor; apply land31_group.
Qed.

Lemma quantumGroups_group s0 s1 s2 s3 s4 :
  Forall group (base32.quantumGroups s0 s1 s2 s3 s4).
Proof. unfold base32.quantumGroups. repeat constructor; apply land31_group. Qed.

(** ** Reading symbols back *)

Lemma symbol_ok_inv g :
  group g ->
  base32.decodeMap (base32.encode g) = g /\
  (base32.encode g =? base32.padByte) = false /\
  ((base32.encode g =? 13) || (base32.encode g =? 10)) = false /\
  byte (base32.encode g) /\ (g =? 255) = false.
Proof.
  intros Hg. pose proof (encode_symbol g Hg) as H. unfold symbol_ok in H.
  cbv zeta in H. rewrite !andb_true_iff, !negb_true_iff in H.
  destruct H as [[[[[H1 H2] H3] H4] H5] H6].
  apply Z.eqb_eq in H1. apply Z.leb_le in H4. apply Z.ltb_lt in H5.
  unfold byte. repeat split; assumption.
Qed.

(** A run of [length gs < k] symbols followed by the end of the input:
    the quantum is the run itself. *)
Lemma readQuantum_symbols gs : forall k j buf olen,
  Forall group gs -> (length gs < k)%nat ->
  base32.readQuantum k j buf (map base32.encode gs) olen =
  inr {| base32.dbuf := buf ++ gs; base32.dlen := j + Z.of_nat (length gs);
         base32.fin := true; base32.rest := [] |}.
Proof.
  induction gs as [|g gs IH]; intros k j buf olen Hgs Hk.
  - destruct k; [cbn in Hk; lia|]. cbn. rewrite app_nil_r, Z.add_0_r. reflexivity.
  - destruct k; [cbn in Hk; lia|].
    inversion Hgs as [|? ? Hg Hgs']; subst.
    destruct (symbol_ok_inv g Hg) as (Hd & Hp & _ & _ & Hff).
    cbn [map base32.readQuantum]. rewrite Hp. cbn [andb]. rewrite Hd, Hff.
    rewrite IH by (cbn in Hk; auto; lia).
    rewrite <- app_assoc. cbn [app length]. do 2 f_equal. lia.
Qed.

(** Eight symbols: a full quantum, and the input goes on. *)
Lemma readQuantum_full gs : forall k j buf src olen,
  Forall group gs -> length gs = k ->
  base32.readQuantum k j buf (map base32.encode gs ++ src) olen =
  inr {| base32.dbuf := buf ++ gs; base32.dlen := 8;
         base32.fin := false; base32.rest := src |}.
Proof.
  induction gs as [|g gs IH]; intros k j buf src olen Hgs Hk; subst k.
  - cbn. rewrite app_nil_r. reflexivity.
  - inversion Hgs as [|? ? Hg Hgs']; subst.
    destruct (symbol_ok_inv g Hg) as (Hd & Hp & _ & _ & Hff).
    cbn [map base32.readQuantum length app]. rewrite Hp. cbn [andb]. rewrite Hd, Hff.
    rewrite IH by auto. rewrite <- app_assoc. reflexivity.
Qed.

Lemma decodeLoop_symbols gs fuel olen dst :
  Forall group gs -> (0 < length gs < 8)%nat ->
  base32.decodeLoop (S fuel) (map base32.encode gs) false olen dst =
  inr (dst ++ base32.pack (Z.of_nat (length gs)) gs).
Proof.
  intros Hgs Hlen. destruct gs as [|g gs]; [cbn in Hlen; lia|].
  cbn [map base32.decodeLoop].
  change (base32.encode g :: map base32.encode gs)
    with (map base32.encode (g :: gs)).
  rewrite readQuantum_symbols by (auto; lia).
  cbn [base32.rest base32.fin base32.dlen base32.dbuf app].
  destruct fuel; reflexivity.
Qed.

Lemma stripNewlines_symbols gs :
  Forall group gs ->
  base32.stripNewlines (map base32.encode gs) = map base32.encode gs.
Proof.
  induction 1 as [|g gs Hg _ IH]; [reflexivity|].
  destruct (symbol_ok_inv g Hg) as (_ & _ & Hn & _).
  cbn [map]. unfold base32.stripNewlines in *. cbn [List.filter].
  rewrite Hn. cbn [negb]. f_equal. exact IH.
Qed.

(** ** Strings and bytes *)

Lemma byte_of_ascii_of_byte b : byte b -> byte_of_ascii (ascii_of_byte b) = b.
Proof.
  intros Hb. unfold byte_of_ascii, ascii_of_byte, byte in *.
  rewrite N_ascii_embedding by lia. lia.
Qed.

Lemma bytes_of_string_of_bytes bs :
  Forall byte bs -> bytes_of_string (string_of_bytes bs) = bs.
Proof.
  intros H. unfold bytes_of_string, string_of_bytes.
  rewrite list_ascii_of_string_of_list_ascii.
  induction H as [|b bs Hb _ IH]; [reflexivity|].
  cbn [map]. rewrite byte_of_ascii_of_byte by assumption. f_equal. exact IH.
Qed.

Lemma encode_bytes gs : Forall group gs -> Forall byte (map base32.encode gs).
Proof.
  induction 1 as [|g gs Hg _ IH]; constructor; [|exact IH].
  apply (symbol_ok_inv g Hg).
Qed.

Lemma decode_symbols gs :
  Forall group gs -> (0 < length gs < 8)%nat ->
  base32.decode (map base32.encode gs) =
  inr (base32.pack (Z.of_nat (length gs)) gs).
Proof.
  intros Hgs Hlen. unfold base32.decode. rewrite length_map.
  destruct (length gs) as [|n] eqn:E; [lia|].
  rewrite decodeLoop_symbols by (auto; lia). rewrite E. reflexivity.
Qed.

Lemma DecodeString_symbols gs :
  Forall group gs -> (0 < length gs < 8)%nat ->
  base32.DecodeString (string_of_bytes (map base32.encode gs)) =
  inr (base32.pack (Z.of_nat (length gs)) gs).
Proof.
  intros Hgs Hlen. unfold base32.DecodeString.
  rewrite bytes_of_string_of_bytes by (apply encode_bytes; assumption).
  rewrite stripNewlines_symbols by assumption.
  apply decode_symbols; assumption.
Qed.

(** [DecodeString] undoes [EncodeToString] on the slices the codec
    produces: one to four bytes. *)
Lemma DecodeString_EncodeToString bs :
  Forall byte bs -> (0 < length bs <= 4)%nat ->
  base32.DecodeString (base32.EncodeToString bs) = inr bs.
Proof.
  intros Hbs Hlen. unfold base32.EncodeToString.
  destruct bs as [|s0 [|s1 [|s2 [|s3 [|s4 bs]]]]]; cbn in Hlen; try lia;
    repeat match goal with
    | H : Forall byte (_ :: _) |- _ =>
        let Hb := fresh "Hb" in
        let Ht := fresh "Ht" in
        inversion H as [|? ? Hb Ht]; subst; clear H;
        apply u8_small in Hb
    end;
    cbn [base32.Encode];
    rewrite DecodeString_symbols
      by (first [apply remainGroups_group | cbn; lia]);
    cbn [base32.remainGroups length Z.of_nat Pos.of_succ_nat Pos.succ
         Z.leb Z.compare Pos.compare Pos.compare_cont app]; f_equal.
  - rewrite <- Hb. apply pack_remain1.
  - rewrite <- Hb, <- Hb0. apply pack_remain2.
  - rewrite <- Hb, <- Hb0, <- Hb1. apply pack_remain3.
  - rewrite <- Hb, <- Hb0, <- Hb1, <- Hb2. apply pack_remain4.
Qed.

(** ** Big-endian words *)

Lemma PutUint32_bytes v : Forall byte (BigEndian.PutUint32 v).
Proof. unfold BigEndian.PutUint32. repeat constructor; apply u8_range. Qed.

Lemma Uint32_PutUint32 v :
  0 <= v < 2 ^ 32 -> BigEndian.Uint32 (BigEndian.PutUint32 v) = Ok v.
Proof.
  intros Hv. unfold BigEndian.Uint32, BigEndian.PutUint32. f_equal.
  rewrite <- (Z.mod_small v (2 ^ 32)) at 5 by lia.
  unfold u8. Z.bitblast.
Qed.

(** ** The codec *)

(** Stripping the leading zero bytes of a four-byte slice that is not all
    zero leaves a non-empty suffix, and padding it again gives the slice
    back. *)
Lemma stripZeroBytes_pad b0 b1 b2 b3 :
  [b0; b1; b2; b3] <> [0; 0; 0; 0] ->
  exists bs,
    stripZeroBytes [b0; b1; b2; b3] = Ok bs /\
    (0 < length bs <= 4)%nat /\
    padZeroBytes 4 bs = [b0; b1; b2; b3] /\
    (Forall byte [b0; b1; b2; b3] -> Forall byte bs).
Proof.
  intros Hnz. cbn [stripZeroBytes].
  destruct (Z.eqb_spec b0 0) as [->|H0];
    [destruct (Z.eqb_spec b1 0) as [->|H1];
      [destruct (Z.eqb_spec b2 0) as [->|H2];
        [destruct (Z.eqb_spec b3 0) as [->|H3]; [congruence|]|]|]|];
    eexists; (split; [reflexivity|]);
    (split; [cbn; lia|]); (split; [reflexivity|]); intros Hb;
    repeat match goal with
    | H : Forall byte (_ :: _ :: _) |- Forall byte (_ :: _) =>
        first [exact H | inversion H; subst; clear H]
    end; assumption.
Qed.

Lemma encodeChallengeID_in_domain id :
  1 <= id <= 2 ^ 32 - 2 ->
  exists bs,
    encodeChallengeID id = Ok (base32.EncodeToString bs) /\
    Forall byte bs /\ (0 < length bs <= 4)%nat /\
    padZeroBytes 4 bs = BigEndian.PutUint32 id.
Proof.
  intros Hid. unfold encodeChallengeID.
  destruct (Z.leb_spec id 0); [lia|].
  destruct (Z.geb_spec id 4294967295); [lia|]. cbn [orb].
  rewrite u32_small by lia.
  destruct (stripZeroBytes_pad (u8 (Z.shiftr id 24)) (u8 (Z.shiftr id 16))
              (u8 (Z.shiftr id 8)) (u8 id)) as (bs & Hs & Hl & Hp & Hb).
  - intros E. pose proof (Uint32_PutUint32 id ltac:(lia)) as HU.
    unfold BigEndian.PutUint32 in HU. rewrite E in HU. cbn in HU.
    injection HU as HU. vm_compute in HU. lia.
  - exists bs. unfold BigEndian.PutUint32. rewrite Hs. cbn [rbind].
    repeat split; try assumption; try lia.
    apply Hb. apply PutUint32_bytes.
Qed.

Lemma decode_encodeChallengeID id :
  1 <= id <= 2 ^ 32 - 2 ->
  exists s, encodeChallengeID id = Ok s /\ decodeChallengeID s = Ok id.
Proof.
  intros Hid.
  destruct (encodeChallengeID_in_domain id Hid) as (bs & He & Hb & Hl & Hp).
  eexists. split; [exact He|].
  unfold decodeChallengeID.
  rewrite DecodeString_EncodeToString by assumption.
  rewrite Hp. apply Uint32_PutUint32. lia.
Qed.

(** ** What [decode] rejects *)


Lemma padByte_255 : base32.padByte = 255.
Proof. reflexivity. Qed.

Lemma readQuantum_error k : forall j buf src olen e,
  base32.readQuantum k j buf src olen = inl e ->
  exists off, e = CorruptInputError off.
Proof.
  induction k as [|k IH]; intros j buf src olen e H; cbn [base32.readQuantum] in H; [discriminate|].
  destruct src as [|b src]; [discriminate|].
  destruct ((b =? base32.padByte) && (2 <=? j) &&
            (Z.of_nat (length src) <? 8)).
  - destruct (Z.of_nat (length src) + j <? 8 - 1);
      [injection H as <-; eauto|].
    destruct (base32.badPadding _ _ _); [injection H as <-; eauto|].
    destruct ((j =? 1) || (j =? 3) || (j =? 6));
      [injection H as <-; eauto | discriminate].
  - destruct (base32.decodeMap b =? 255); [injection H as <-; eauto|].
    eapply IH; eassumption.
Qed.

(** Without the byte [0xFF] in the input there is no padding to see:
    a quantum is a run of symbols, and it ends with the input. *)
Lemma readQuantum_symbols_only k : forall j buf src olen q,
  Forall (fun b => b <> 255) src ->
  base32.readQuantum k j buf src olen = inr q ->
  exists pre,
    src = pre ++ base32.rest q /\ Forall symbol pre /\
    (base32.fin q = true -> base32.rest q = []) /\
    (k <> 0%nat -> src <> [] -> pre <> []).
Proof.
  induction k as [|k IH]; intros j buf src olen q Hsrc H; cbn [base32.readQuantum] in H.
  - injection H as <-. exists []. cbn. repeat split; try constructor;
      congruence.
  - destruct src as [|b src].
    + injection H as <-. exists []. cbn. repeat split; try constructor;
        congruence.
    + inversion Hsrc as [|? ? Hb Hsrc']; subst.
      rewrite padByte_255 in H.
      destruct (Z.eqb_spec b 255) as [|_]; [contradiction|]. cbn [andb] in H.
      destruct (Z.eqb_spec (base32.decodeMap b) 255) as [|Hd]; [discriminate|].
      destruct (IH _ _ _ _ _ Hsrc' H) as (pre & Hpre & Hsym & Hfin & _).
      exists (b :: pre). repeat split.
      * cbn. congruence.
      * constructor; assumption.
      * assumption.
      * discriminate.
Qed.

Lemma decodeLoop_rejects fuel : forall src olen dst,
  (length src <= fuel)%nat ->
  Forall (fun b => b <> 255) src ->
  Exists (fun b => ~ symbol b) src ->
  exists off, base32.decodeLoop fuel src false olen dst
              = inl (CorruptInputError off).
Proof.
  induction fuel as [|fuel IH]; intros src olen dst Hlen Hsrc Hbad.
  - destruct src; [inversion Hbad | cbn in Hlen; lia].
  - destruct src as [|b src]; [inversion Hbad|].
    cbn [base32.decodeLoop].
    destruct (base32.readQuantum 8 0 [] (b :: src) olen) as [e|q] eqn:Hq.
    + destruct (readQuantum_error _ _ _ _ _ _ Hq) as [off ->]. eauto.
    + destruct (readQuantum_symbols_only _ _ _ _ _ _ Hsrc Hq)
        as (pre & Hpre & Hsym & Hfin & Hne).
      assert (Hbad' : Exists (fun b => ~ symbol b) (base32.rest q)).
      { rewrite Hpre in Hbad. apply Exists_app in Hbad as [Hbad|Hbad];
          [|exact Hbad].
        apply Exists_exists in Hbad as (x & Hx & Hnx).
        rewrite Forall_forall in Hsym. exfalso. apply Hnx, Hsym, Hx. }
      assert (Hf : base32.fin q = false).
      { destruct (base32.fin q); [|reflexivity].
        rewrite Hfin in Hbad' by reflexivity. inversion Hbad'. }
      rewrite Hf. apply IH.
      * assert (pre <> []) by (apply Hne; discriminate).
        apply (f_equal (@length Z)) in Hpre. rewrite length_app in Hpre.
        cbn [length] in Hpre, Hlen. destruct pre; [congruence|].
        cbn [length] in Hpre. lia.
      * rewrite Hpre in Hsrc. apply Forall_app in Hsrc. apply Hsrc.
      * exact Hbad'.
Qed.

(** The fuel of [decodeLoop] is never what ends the loop: every turn
    shortens the input. *)
Lemma readQuantum_shorter k : forall j buf src olen q,
  base32.readQuantum k j buf src olen = inr q ->
  (length (base32.rest q) <= length src)%nat /\
  (k <> 0%nat -> src <> [] -> length (base32.rest q) < length src)%nat.
Proof.
  induction k as [|k IH]; intros j buf src olen q H; cbn [base32.readQuantum] in H.
  - injection H as <-. cbn. split; [lia|congruence].
  - destruct src as [|b src].
    + injection H as <-. cbn. split; [lia|congruence].
    + destruct ((b =? base32.padByte) && (2 <=? j) &&
                (Z.of_nat (length src) <? 8)).
      * destruct (Z.of_nat (length src) + j <? 8 - 1); [discriminate|].
        destruct (base32.badPadding _ _ _); [discriminate|].
        destruct ((j =? 1) || (j =? 3) || (j =? 6)); [discriminate|].
        injection H as <-. cbn. split; intros; lia.
      * destruct (base32.decodeMap b =? 255); [discriminate|].
        apply IH in H as [H _]. cbn [length]. split; intros; lia.
Qed.

Lemma decodeLoop_fuel fuel : forall fuel' src stop olen dst,
  (length src <= fuel)%nat -> (length src <= fuel')%nat ->
  base32.decodeLoop fuel src stop olen dst =
  base32.decodeLoop fuel' src stop olen dst.
Proof.
  induction fuel as [|fuel IH]; intros fuel' src stop olen dst H H'.
  - destruct src; [|cbn in H; lia]. destruct fuel'; reflexivity.
  - destruct src as [|b src]; [destruct fuel'; reflexivity|].
    destruct fuel' as [|fuel']; [cbn in H'; lia|].
    cbn [base32.decodeLoop]. destruct stop; [reflexivity|].
    destruct (base32.readQuantum 8 0 [] (b :: src) olen) as [e|q] eqn:Hq;
      [reflexivity|].
    apply readQuantum_shorter in Hq as [_ Hq].
    specialize (Hq ltac:(discriminate) ltac:(discriminate)).
    cbn [length] in *. apply IH; lia.
Qed.

Lemma decodeLoop_error fuel : forall src stop olen dst e,
  base32.decodeLoop fuel src stop olen dst = inl e ->
  exists off, e = CorruptInputError off.
Proof.
  induction fuel as [|fuel IH]; intros src stop olen dst e H.
  - destruct src; cbn in H; [discriminate|]. destruct stop; discriminate.
  - destruct src as [|b src]; cbn [base32.decodeLoop] in H; [discriminate|].
    destruct stop; [discriminate|].
    destruct (base32.readQuantum 8 0 [] (b :: src) olen) as [e'|q] eqn:Hq.
    + injection H as <-. eapply readQuantum_error; eassumption.
    + eapply IH; eassumption.
Qed.

(** [decodeChallengeID] returns an integer or a [CorruptInputError]; it
    never panics, and what it returns is a [uint32]. *)
Lemma padZeroBytes_length n : forall bytes,
  (4 <= n + length bytes)%nat -> (4 <= length (padZeroBytes n bytes))%nat.
Proof.
  induction n as [|n IH]; intros bytes H; cbn [padZeroBytes]; [lia|].
  destruct (Z.ltb_spec (Z.of_nat (length bytes)) 4); [|lia].
  apply IH. cbn [length]. lia.
Qed.

Lemma decodeChallengeID_total id :
  (exists internalID, decodeChallengeID id = Ok internalID) \/
  (exists off, decodeChallengeID id = Err (CorruptInputError off)).
Proof.
  unfold decodeChallengeID, base32.DecodeString, base32.decode.
  destruct (base32.decodeLoop _ _ _ _ _) as [e|bytes] eqn:H.
  - right. apply decodeLoop_error in H as [off ->]. eauto.
  - left. pose proof (padZeroBytes_length 4 bytes ltac:(lia)) as Hl.
    destruct (padZeroBytes 4 bytes) as [|b0 [|b1 [|b2 [|b3 rest]]]];
      cbn in Hl; try lia.
    cbn. eauto.
Qed.


Lemma index_of_absent b l : forall i, ~ In b l -> base32.index_of b l i = 255.
Proof.
  induction l as [|c l IH]; intros i H; cbn [base32.index_of]; [reflexivity|].
  destruct (Z.eqb_spec c b) as [->|_]; [exfalso; apply H; left; reflexivity|].
  apply IH. intros Hin. apply H. right. exact Hin.
Qed.

Lemma symbol_inAlphabet b : symbol b -> inAlphabet b.
Proof.
  unfold symbol, inAlphabet, base32.decodeMap. intros H.
  destruct (in_dec Z.eq_dec b (bytes_of_string base32.encoder)) as [|Hn];
    [assumption|].
  exfalso. apply H. apply index_of_absent. exact Hn.
Qed.

(** [decodeChallengeID] rejects a string that has a byte outside the
    alphabet other than CR and LF, when no byte of the string is
    [0xFF]. *)
Lemma decodeChallengeID_rejects s :
  Forall (fun b => b <> 255) (bytes_of_string s) ->
  Exists (fun b => ~ inAlphabet b /\ b <> 13 /\ b <> 10) (bytes_of_string s) ->
  exists off, decodeChallengeID s = Err (CorruptInputError off).
Proof.
  intros Hff Hbad. unfold decodeChallengeID, base32.DecodeString, base32.decode.
  set (src := base32.stripNewlines (bytes_of_string s)).
  destruct (decodeLoop_rejects (length src) src (Z.of_nat (length src)) [])
    as [off ->]; [lia| | |eauto].
  - unfold src, base32.stripNewlines. rewrite List.Forall_forall in *.
    intros b Hb. apply filter_In in Hb as [Hb _]. auto.
  - unfold src, base32.stripNewlines.
    apply List.Exists_exists in Hbad as (b & Hb & Hna & H13 & H10).
    apply List.Exists_exists. exists b. split.
    + apply filter_In. split; [exact Hb|].
      destruct (Z.eqb_spec b 13); [contradiction|].
      destruct (Z.eqb_spec b 10); [contradiction|]. reflexivity.
    + intros Hs. apply Hna. apply symbol_inAlphabet. exact Hs.
Qed.

(** ** The claims about the codec *)

(** C1. The codec is a bijection on [1 .. 2^32 - 2]: decoding the
    encoding of an identifier of the domain succeeds and gives the
    identifier back, so encoding is injective there; outside the domain,
    at zero and below and from [2^32 - 1] on, encoding panics. *)
Theorem codec_bijection :
  (forall id, 1 <= id <= 2 ^ 32 - 2 ->
     exists s, encodeChallengeID id = Ok s /\ decodeChallengeID s = Ok id) /\
  (forall id id' s, 1 <= id <= 2 ^ 32 - 2 -> 1 <= id' <= 2 ^ 32 - 2 ->
     encodeChallengeID id = Ok s -> encodeChallengeID id' = Ok s ->
     id = id') /\
  (forall id, id <= 0 \/ 2 ^ 32 - 1 <= id ->
     encodeChallengeID id = Panic "id out of bounds"%string).
Proof.
  split; [exact decode_encodeChallengeID|]. split.
  - intros id id' s Hid Hid' He He'.
    destruct (decode_encodeChallengeID id Hid) as (s1 & H1 & D1).
    destruct (decode_encodeChallengeID id' Hid') as (s2 & H2 & D2).
    congruence.
  - intros id Hid. unfold encodeChallengeID.
    destruct (Z.leb_spec id 0); [reflexivity|].
    destruct (Z.geb_spec id 4294967295); [reflexivity|]. lia.
Qed.

Lemma codec_bijection_witness :
  (exists s, encodeChallengeID 16777216 = Ok s /\
             decodeChallengeID s = Ok 16777216) /\
  encodeChallengeID 4294967295 = Panic "id out of bounds"%string.
Proof.
  split.
  - apply (proj1 codec_bijection 16777216). lia.
  - apply (proj2 (proj2 codec_bijection) 4294967295). lia.
Defined.

(** C9, as the code has it.  The fixed samples encode and decode as
    stated.  [decodeChallengeID] fails, with the decoder's
    [CorruptInputError], for every string that has a byte outside the
    alphabet other than CR and LF, which the decoder skips, when the
    string has no byte [0xFF], which the decoder without padding takes
    for its padding. *)
Theorem codec_samples :
  encodeChallengeID 1 = Ok "ae"%string /\
  encodeChallengeID 42 = Ok "fi"%string /\
  encodeChallengeID 2048 = Ok "baaa"%string /\
  decodeChallengeID "ae" = Ok 1 /\
  decodeChallengeID "fi" = Ok 42 /\
  decodeChallengeID "baaa" = Ok 2048 /\
  (forall s,
     Forall (fun b => b <> 255) (bytes_of_string s) ->
     Exists (fun b => ~ inAlphabet b /\ b <> 13 /\ b <> 10)
            (bytes_of_string s) ->
     exists off, decodeChallengeID s = Err (CorruptInputError off)).
Proof.
  repeat (split; [vm_compute; reflexivity|]).
  exact decodeChallengeID_rejects.
Qed.

Lemma codec_samples_witness :
  exists off, decodeChallengeID "not-base32!" = Err (CorruptInputError off).
Proof.
  apply (proj2 (proj2 (proj2 (proj2 (proj2 (proj2 codec_samples)))))).
  - vm_compute. repeat constructor; lia.
  - apply Exists_cons_tl, Exists_cons_tl, Exists_cons_tl, Exists_cons_hd.
    vm_compute. repeat split; lia.
Defined.

(** C9 as stated fails: a string with a line feed has a character
    outside the alphabet, and [decodeChallengeID] accepts it. *)
Lemma codec_samples_counterexample :
  ~ (forall s,
       Exists (fun b => ~ inAlphabet b) (bytes_of_string s) ->
       exists e, decodeChallengeID s = Err e).
Proof.
  intros H.
  destruct (H (String "a" (String "e" (String (ascii_of_N 10) EmptyString))))
    as [e He].
  - apply Exists_cons_tl, Exists_cons_tl, Exists_cons_hd.
    vm_compute. intros Hin.
    repeat (destruct Hin as [Hin|Hin]; [lia|]). exact Hin.
  - vm_compute in He. discriminate He.
Qed.

(** C10. [decodeChallengeID] accepts strings that [encodeChallengeID]
    never produces: ["aa"] decodes to 0, which is outside the domain, and
    ["aaaq"] decodes to 1 as ["ae"] does; so decoding is not injective on
    what it accepts, and encoding what it decodes does not always give
    the string back. *)
Theorem decode_outside_image :
  decodeChallengeID "aa" = Ok 0 /\
  encodeChallengeID 0 = Panic "id out of bounds"%string /\
  decodeChallengeID "aaaq" = Ok 1 /\
  decodeChallengeID "ae" = Ok 1 /\
  encodeChallengeID 1 = Ok "ae"%string /\
  ~ (forall s s' id, decodeChallengeID s = Ok id ->
       decodeChallengeID s' = Ok id -> s = s') /\
  ~ (forall s id, decodeChallengeID s = Ok id ->
       encodeChallengeID id = Ok s).
Proof.
  repeat (split; [vm_compute; reflexivity|]). split.
  - intros H. specialize (H "aaaq"%string "ae"%string 1).
    discriminate H; vm_compute; reflexivity.
  - intros H. specialize (H "aaaq"%string 1).
    assert (E : encodeChallengeID 1 = Ok "aaaq"%string)
      by (apply H; vm_compute; reflexivity).
    vm_compute in E. discriminate E.
Qed.

(** ** The queries *)


(** C4. [Challenge] fails with the decoder's error, a
    [CorruptInputError], for an opaque id the codec rejects; it fails
    with [ChallengeNotFoundError], which is another error, for an id that
    decodes to an internal id the snapshot does not have; and for an id
    that decodes to an internal id of the snapshot it returns the
    challenge stored under it. *)
Theorem Challenge_errors (r : Repo.t) (id : string) :
  (forall err, decodeChallengeID id = Err err ->
     Repo.Challenge r id = Err err /\
     (exists off, err = CorruptInputError off) /\
     err <> ChallengeNotFoundError) /\
  (forall internalID, decodeChallengeID id = Ok internalID ->
     Repo.challenges r !! internalID = None ->
     Repo.Challenge r id = Err ChallengeNotFoundError) /\
  (forall internalID val, decodeChallengeID id = Ok internalID ->
     Repo.challenges r !! internalID = Some val ->
     Repo.Challenge r id = Ok val).
Proof.
  unfold Repo.Challenge. repeat split.
  - rewrite H. reflexivity.
  - destruct (decodeChallengeID_total id) as [[i Hi]|[off Hoff]];
      [congruence|]. exists off. congruence.
  - destruct (decodeChallengeID_total id) as [[i Hi]|[off Hoff]];
      congruence.
  - intros internalID Hd Hl. rewrite Hd, Hl. reflexivity.
  - intros internalID val Hd Hl. rewrite Hd, Hl. reflexivity.
Qed.

Lemma Challenge_errors_witness :
  (exists off, Repo.Challenge Repo.New "not-base32!"
               = Err (CorruptInputError off)) /\
  Repo.Challenge Repo.New "honmt7y" = Err ChallengeNotFoundError.
Proof.
  split.
  - exists 3.
    apply (proj1 (Challenge_errors Repo.New "not-base32!")
             (CorruptInputError 3)).
    vm_compute. reflexivity.
  - apply (proj1 (proj2 (Challenge_errors Repo.New "honmt7y")) 999999999).
    + vm_compute. reflexivity.
    + reflexivity.
Defined.

(** The opaque id of the witness is the one of 999999999. *)
Example encode_999999999 : encodeChallengeID 999999999 = Ok "honmt7y"%string.
Proof. vm_compute. reflexivity. Qed.

(** With a region id, [RandomChallenge] fails with
    [NoChallengesAvailableError] when the region has no list or an empty
    one. *)
Lemma RandomChallenge_region_empty (r : Repo.t) (regionID : Z) :
  default [] (Repo.challengesByRegion r !! regionID) = [] ->
  Repo.RandomChallenge r (Some regionID)
  = dret (Err NoChallengesAvailableError).
Proof.
  intros H. unfold Repo.RandomChallenge, Repo.pickRegion, Repo.pickChallenge.
  cbn. rewrite H. reflexivity.
Qed.

(** Without a region id and without regions that have challenges,
    [rand.Intn(0)] panics. *)
Lemma RandomChallenge_no_regions (r : Repo.t) :
  Repo.regionsWithChallenges r = [] ->
  Repo.RandomChallenge r None
  = dret (Panic "invalid argument to Intn"%string).
Proof.
  intros H. unfold Repo.RandomChallenge, Repo.pickRegion. rewrite H.
  reflexivity.
Qed.

(** C3, where the code departs from it.  After a challenge refresh that
    loaded no row, [RandomChallenge(nil)] does not return
    [NoChallengesAvailableError]: it panics, with certainty. *)
Theorem RandomChallenge_empty_pool :
  let r := fst (Repo.updateChallenges Repo.New (inr [])) in
  snd (Repo.updateChallenges Repo.New (inr [])) = Ok tt /\
  Repo.regionsWithChallenges r = [] /\
  Repo.RandomChallenge r None
  = [(1%Q, Panic "invalid argument to Intn"%string)] /\
  Repo.RandomChallenge r (Some 1)
  = [(1%Q, Err NoChallengesAvailableError)].
Proof. vm_compute. repeat split; reflexivity. Qed.

(** ** The refresh cycles *)

(** A cycle that does not return [nil] leaves the repo as it was. *)
Lemma updateRegions_not_ok (r : Repo.t) db net :
  snd (Repo.updateRegions r db net) <> Ok tt ->
  fst (Repo.updateRegions r db net) = r.
Proof.
  unfold Repo.updateRegions. destruct (Repo.loadRegions db net); cbn;
    congruence.
Qed.

Lemma updateChallenges_not_ok (r : Repo.t) db :
  snd (Repo.updateChallenges r db) <> Ok tt ->
  fst (Repo.updateChallenges r db) = r.
Proof.
  unfold Repo.updateChallenges. destruct db as [err|rs]; [reflexivity|].
  destruct (Repo.scanChallenges rs ∅ ∅) as [[ch cbr]| |]; cbn; congruence.
Qed.

(** A row that fails to scan keeps a loop from ending well. *)
Lemma scanRegions_scan_error rs : forall out err,
  In (inl err) rs -> forall out', Repo.scanRegions rs out <> Ok out'.
Proof.
  induction rs as [|[e|row] rs IH]; intros out err Hin out';
    cbn [Repo.scanRegions]; [destruct Hin|discriminate|].
  destruct Hin as [Hin|Hin]; [discriminate|]. eapply IH; eassumption.
Qed.

Lemma scanMapLayers_scan_error rs : forall m err,
  In (inl err) rs -> forall m', Repo.scanMapLayers rs m <> Ok m'.
Proof.
  induction rs as [|[e|row] rs IH]; intros m err Hin m';
    cbn [Repo.scanMapLayers]; [destruct Hin|discriminate|].
  destruct Hin as [Hin|Hin]; [discriminate|]. eapply IH; eassumption.
Qed.

Lemma attachMapLayers_scan_error rs mapLayers : forall out err,
  In (inl err) rs ->
  forall out', Repo.attachMapLayers rs mapLayers out <> Ok out'.
Proof.
  induction rs as [|[e|[regionID mlID]] rs IH]; intros out err Hin out';
    cbn [Repo.attachMapLayers]; [destruct Hin|discriminate|].
  destruct Hin as [Hin|Hin]; [discriminate|].
  destruct (out !! regionID); [destruct (mapLayers !! mlID)|];
    eapply IH; eassumption.
Qed.

Lemma scanChallenges_scan_error rs : forall ch cbr err,
  In (inl err) rs -> forall res, Repo.scanChallenges rs ch cbr <> Ok res.
Proof.
  induction rs as [|[e|row] rs IH]; intros ch cbr err Hin res;
    cbn [Repo.scanChallenges]; [destruct Hin|discriminate|].
  destruct Hin as [Hin|Hin]; [discriminate|].
  destruct (encodeChallengeID _); cbn [rbind]; [|discriminate..].
  eapply IH; eassumption.
Qed.


Lemma loadRegions_store_error db net :
  storeFails db -> forall out, Repo.loadRegions db net <> Ok out.
Proof.
  unfold storeFails, Repo.loadRegions. intros H out.
  destruct (RegionStore.Begin db); [discriminate|].
  destruct H as [H|H]; [congruence|].
  destruct (RegionStore.regions db) as [e|rs]; [discriminate|].
  destruct (Repo.scanRegions rs ∅) as [out0| |] eqn:Hs; cbn [rbind];
    [|discriminate..].
  destruct H as [[err H]|H];
    [exfalso; eapply scanRegions_scan_error; eassumption|].
  destruct (RegionStore.mapLayers db) as [e|rs']; [discriminate|].
  destruct (Repo.scanMapLayers rs' ∅) as [m| |] eqn:Hm; cbn [rbind];
    [|discriminate..].
  destruct H as [[err H]|H];
    [exfalso; eapply scanMapLayers_scan_error; eassumption|].
  destruct (Repo.enrichAll net m) as [m'| |]; cbn [rbind]; [|discriminate..].
  destruct (RegionStore.regionMapLayers db) as [e|rs'']; [discriminate|].
  destruct H as [err H]. eapply attachMapLayers_scan_error; eassumption.
Qed.

(** C6. A refresh cycle that returns an error has published nothing:
    the repo is what it was, in all four snapshot fields.  A store that
    fails makes the cycle return without success.  A cycle that succeeds
    replaces its fields, the regions or the three challenge fields, in
    one step, and leaves the others. *)
Theorem refresh_failure_atomic (r : Repo.t) :
  (forall db net err, snd (Repo.updateRegions r db net) = Err err ->
     fst (Repo.updateRegions r db net) = r) /\
  (forall db err, snd (Repo.updateChallenges r db) = Err err ->
     fst (Repo.updateChallenges r db) = r) /\
  (forall db net, storeFails db ->
     snd (Repo.updateRegions r db net) <> Ok tt /\
     fst (Repo.updateRegions r db net) = r) /\
  (forall db, failed db ->
     snd (Repo.updateChallenges r db) <> Ok tt /\
     fst (Repo.updateChallenges r db) = r) /\
  (forall db net, snd (Repo.updateRegions r db net) = Ok tt ->
     exists out, Repo.loadRegions db net = Ok out /\
       fst (Repo.updateRegions r db net) =
       {| Repo.regions := out; Repo.challenges := Repo.challenges r;
          Repo.challengesByRegion := Repo.challengesByRegion r;
          Repo.regionsWithChallenges := Repo.regionsWithChallenges r |}) /\
  (forall db, snd (Repo.updateChallenges r db) = Ok tt ->
     exists rs challenges challengesByRegion,
       db = inr rs /\
       Repo.scanChallenges rs ∅ ∅ = Ok (challenges, challengesByRegion) /\
       fst (Repo.updateChallenges r db) =
       {| Repo.regions := Repo.regions r; Repo.challenges := challenges;
          Repo.challengesByRegion := challengesByRegion;
          Repo.regionsWithChallenges := Repo.keys challengesByRegion |}).
Proof.
  assert (Hr : forall db net, storeFails db ->
            snd (Repo.updateRegions r db net) <> Ok tt).
  { intros db net H. unfold Repo.updateRegions.
    pose proof (loadRegions_store_error db net H) as Hl.
    destruct (Repo.loadRegions db net) as [out| |]; cbn;
      [exfalso; exact (Hl out eq_refl)|discriminate..]. }
  assert (Hc : forall db, failed db ->
            snd (Repo.updateChallenges r db) <> Ok tt).
  { intros db H. unfold Repo.updateChallenges.
    destruct db as [e|rs]; [discriminate|]. destruct H as [err H].
    pose proof (scanChallenges_scan_error rs ∅ ∅ err H) as Hs.
    destruct (Repo.scanChallenges rs ∅ ∅) as [[ch cbr]| |]; cbn;
      [exfalso; eapply Hs; reflexivity|discriminate..]. }
  split; [|split; [|split; [|split; [|split]]]].
  - intros db net err H. apply updateRegions_not_ok. congruence.
  - intros db err H. apply updateChallenges_not_ok. congruence.
  - intros db net H. split; [|apply updateRegions_not_ok]; apply Hr, H.
  - intros db H. split; [|apply updateChallenges_not_ok]; apply Hc, H.
  - intros db net. unfold Repo.updateRegions.
    destruct (Repo.loadRegions db net) as [out| |]; cbn; [|discriminate..].
    intros _. exists out. split; reflexivity.
  - intros db. unfold Repo.updateChallenges.
    destruct db as [e|rs]; [discriminate|].
    destruct (Repo.scanChallenges rs ∅ ∅) as [[ch cbr]| |] eqn:Hs; cbn;
      [|discriminate..].
    intros _. exists rs, ch, cbr. split; [reflexivity|]. split; [exact Hs|].
    reflexivity.
Qed.


Lemma refresh_failure_atomic_witness :
  fst (Repo.updateRegions Repo.New sample.down sample.offline) = Repo.New /\
  fst (Repo.updateChallenges Repo.New (inl sample.refused)) = Repo.New /\
  fst (Repo.updateChallenges Repo.New
         (inr [sample.challengeRow 1 10; inl sample.refused])) = Repo.New.
Proof.
  split; [|split].
  - apply (proj1 (refresh_failure_atomic Repo.New) sample.down sample.offline
             sample.refused).
    reflexivity.
  - apply (proj1 (proj2 (refresh_failure_atomic Repo.New))
             (inl sample.refused) sample.refused).
    reflexivity.
  - apply (proj1 (proj2 (proj2 (proj2 (refresh_failure_atomic Repo.New))))
             (inr [sample.challengeRow 1 10; inl sample.refused])).
    exists sample.refused. right. left. reflexivity.
Defined.

(** A region that a row ties to a layer the working set has lost is not
    published. *)
Lemma attachMapLayers_gone rs mapLayers regionID : forall out out',
  out !! regionID = None ->
  Repo.attachMapLayers rs mapLayers out = Ok out' ->
  out' !! regionID = None.
Proof.
  induction rs as [|[e|[regionID' mlID]] rs IH]; intros out out' Hnone H;
    cbn [Repo.attachMapLayers] in H.
  - injection H as <-. exact Hnone.
  - discriminate.
  - destruct (out !! regionID') as [prev|] eqn:Hprev;
      [|eapply IH; eassumption].
    assert (regionID' <> regionID) by congruence.
    destruct (mapLayers !! mlID);
      (eapply IH; [|exact H]).
    + rewrite lookup_insert_ne by assumption. exact Hnone.
    + rewrite lookup_delete_ne by assumption. exact Hnone.
Qed.

Lemma attachMapLayers_drops rs mapLayers regionID mlID : forall out out',
  In (inr (regionID, mlID)) rs ->
  mapLayers !! mlID = None ->
  Repo.attachMapLayers rs mapLayers out = Ok out' ->
  out' !! regionID = None.
Proof.
  induction rs as [|[e|[regionID' mlID']] rs IH]; intros out out' Hin Hml H;
    cbn [Repo.attachMapLayers] in H.
  - destruct Hin.
  - discriminate.
  - destruct Hin as [Hin|Hin].
    + injection Hin as -> ->. rewrite Hml in H.
      destruct (out !! regionID) eqn:Hprev.
      * eapply attachMapLayers_gone; [|exact H]. apply lookup_delete_eq.
      * eapply attachMapLayers_gone; eassumption.
    + destruct (out !! regionID'); [destruct (mapLayers !! mlID')|];
        eapply IH; eassumption.
Qed.

(** [Atoi] reads back what [FormatInt] prints. *)
Lemma Atoi_FormatInt i : strconv.Atoi (strconv.FormatInt i) = Ok i.
Proof.
  unfold strconv.Atoi, strconv.FormatInt.
  rewrite NilZero.isi.
  - rewrite DecimalZ.of_to. reflexivity.
  - destruct i as [|p|p]; cbn; try discriminate.
    intros [= H]. apply (Unsigned.to_uint_nonnil p H).
  - destruct i as [|p|p]; cbn; try discriminate.
    intros [= H]. apply (Unsigned.to_uint_nonnil p H).
Qed.


Lemma scanMapLayers_keyed rs : forall m m',
  keyed m -> Repo.scanMapLayers rs m = Ok m' -> keyed m'.
Proof.
  induction rs as [|[e|row] rs IH]; intros m m' Hk H;
    cbn [Repo.scanMapLayers] in H.
  - injection H as <-. exact Hk.
  - discriminate.
  - refine (IH _ _ _ H). intros id ml Hl.
    destruct (Z.eq_dec (LayerRow.internalID row) id) as [E|Hne].
    + rewrite E, lookup_insert_eq in Hl. injection Hl as <-.
      destruct (LayerRow.osBranding row); reflexivity.
    + rewrite lookup_insert_ne in Hl by assumption. eapply Hk, Hl.
Qed.



Lemma enrich_fold net entries : forall acc,
  NoDup (map fst entries) ->
  (forall id ml, In (id, ml) entries ->
     acc !! id = Some ml /\ MapLayer.ID ml = strconv.FormatInt id) ->
  exists acc',
    fold_left (Repo.enrich net) entries (Ok acc) = Ok acc' /\
    (forall id ml, In (id, ml) entries -> acc' !! id = enriched net id ml) /\
    (forall id, ~ In id (map fst entries) -> acc' !! id = acc !! id).
Proof.
  induction entries as [|[id0 ml0] entries IH]; intros acc Hnd Hin.
  - exists acc. split; [reflexivity|]. split; [intros ? ? []|reflexivity].
  - cbn [map fst] in Hnd. apply NoDup_cons in Hnd as [Hfresh Hnd].
    rewrite list_elem_of_In in Hfresh.
    destruct (Hin id0 ml0 (or_introl eq_refl)) as [Hacc HID].
    cbn [fold_left]. unfold Repo.enrich at 2. cbn [rbind snd fst].
    rewrite HID, Atoi_FormatInt. fold (fetched net id0 ml0). rewrite Hacc.
    set (acc1 := match fetched net id0 ml0 with
                 | inl _ => delete id0 acc
                 | inr xml => <[id0 := MapLayer.setCapabilitiesXML ml0 xml]> acc
                 end).
    assert (Hstep : match fetched net id0 ml0 with
                    | inl _ => Ok (delete id0 acc)
                    | inr xml =>
                        Ok (<[id0 := MapLayer.setCapabilitiesXML ml0 xml]> acc)
                    end = Ok acc1)
      by (unfold acc1; destruct (fetched net id0 ml0); reflexivity).
    rewrite Hstep.
    assert (H1 : acc1 !! id0 = enriched net id0 ml0).
    { unfold acc1, enriched. destruct (fetched net id0 ml0).
      - apply lookup_delete_eq.
      - apply lookup_insert_eq. }
    assert (Hne : forall id, id <> id0 -> acc1 !! id = acc !! id).
    { intros id Hid. unfold acc1. destruct (fetched net id0 ml0).
      - apply lookup_delete_ne. congruence.
      - apply lookup_insert_ne. congruence. }
    destruct (IH acc1 Hnd) as (acc' & Hfold & Hent & Hrest).
    { intros id ml Hi. assert (id <> id0).
      { intros ->. apply Hfresh. apply (in_map fst _ _ Hi). }
      rewrite Hne by assumption. apply Hin. right. exact Hi. }
    exists acc'. split; [exact Hfold|]. split.
    + intros id ml [[= <- <-]|Hi]; [|apply Hent, Hi].
      rewrite Hrest by exact Hfresh. exact H1.
    + intros id Hid. cbn [map fst] in Hid.
      rewrite Hrest by (intros Hi; apply Hid; right; exact Hi).
      apply Hne. intros ->. apply Hid. left. reflexivity.
Qed.

Lemma enrichAll_keyed net mapLayers :
  keyed mapLayers ->
  exists mapLayers',
    Repo.enrichAll net mapLayers = Ok mapLayers' /\
    forall id, mapLayers' !! id
               = match mapLayers !! id with
                 | Some ml => enriched net id ml
                 | None => None
                 end.
Proof.
  intros Hk. unfold Repo.enrichAll.
  destruct (enrich_fold net (map_to_list mapLayers) mapLayers)
    as (m' & Hfold & Hent & Hrest).
  - apply NoDup_fst_map_to_list.
  - intros id ml Hin. rewrite <- list_elem_of_In in Hin.
    apply elem_of_map_to_list in Hin. split; [exact Hin|]. eapply Hk, Hin.
  - exists m'. split; [exact Hfold|]. intros id.
    destruct (mapLayers !! id) as [ml|] eqn:Hl.
    + apply Hent. rewrite <- list_elem_of_In.
      apply elem_of_map_to_list. exact Hl.
    + rewrite Hrest; [exact Hl|]. intros Hin.
      apply in_map_iff in Hin as ([id' ml] & E & Hin). cbn in E. subst id'.
      rewrite <- list_elem_of_In in Hin. apply elem_of_map_to_list in Hin.
      congruence.
Qed.

(** A region of the result carries a layer of the working set, the one
    of a row that names the region, or no row names it and it is as the
    region query left it. *)
Lemma attachMapLayers_published rs mapLayers regionID region : forall out out',
  Repo.attachMapLayers rs mapLayers out = Ok out' ->
  out' !! regionID = Some region ->
  (exists mlID ml, In (inr (regionID, mlID)) rs /\
     mapLayers !! mlID = Some ml /\ Region.MapLayer region = ml) \/
  (out !! regionID = Some region /\
   forall mlID, ~ In (inr (regionID, mlID)) rs).
Proof.
  induction rs as [|[e|[regionID' mlID']] rs IH]; intros out out' H Hl;
    cbn [Repo.attachMapLayers] in H.
  - injection H as <-. right. split; [exact Hl|]. intros ? [].
  - discriminate.
  - assert (Hstep : forall out1,
              Repo.attachMapLayers rs mapLayers out1 = Ok out' ->
              (out1 !! regionID = Some region ->
               (exists mlID ml, In (inr (regionID, mlID))
                                   (inr (regionID', mlID') :: rs) /\
                  mapLayers !! mlID = Some ml /\ Region.MapLayer region = ml) \/
               (out !! regionID = Some region /\
                forall mlID, ~ In (inr (regionID, mlID))
                                  (inr (regionID', mlID') :: rs))) ->
              (exists mlID ml, In (inr (regionID, mlID))
                                  (inr (regionID', mlID') :: rs) /\
                 mapLayers !! mlID = Some ml /\ Region.MapLayer region = ml) \/
              (out !! regionID = Some region /\
               forall mlID, ~ In (inr (regionID, mlID))
                                 (inr (regionID', mlID') :: rs))).
    { intros out1 H1 Hout1.
      destruct (IH _ _ H1 Hl) as [(mlID & ml & Hin & Hm & Hr)|[Ho Hno]].
      - left. exists mlID, ml. split; [right; exact Hin|]. split; assumption.
      - exact (Hout1 Ho). }
    destruct (out !! regionID') as [prev|] eqn:Hprev.
    + destruct (mapLayers !! mlID') as [ml|] eqn:Hml.
      * apply (Hstep _ H). intros Ho.
        destruct (Z.eq_dec regionID' regionID) as [->|Hne].
        -- rewrite lookup_insert_eq in Ho. injection Ho as <-.
           left. exists mlID', ml. split; [left; reflexivity|].
           split; [exact Hml|reflexivity].
        -- rewrite lookup_insert_ne in Ho by assumption.
           destruct (IH _ _ H Hl) as [(mlID & ml0 & Hin & Hm & Hr)|[_ Hno]].
           ++ left. exists mlID, ml0. split; [right; exact Hin|].
              split; assumption.
           ++ right. split; [exact Ho|]. intros mlID [[= E _]|Hin];
                [congruence|eapply Hno, Hin].
      * apply (Hstep _ H). intros Ho.
        destruct (Z.eq_dec regionID' regionID) as [->|Hne].
        -- rewrite lookup_delete_eq in Ho. discriminate Ho.
        -- rewrite lookup_delete_ne in Ho by assumption.
           destruct (IH _ _ H Hl) as [(mlID & ml0 & Hin & Hm & Hr)|[_ Hno]].
           ++ left. exists mlID, ml0. split; [right; exact Hin|].
              split; assumption.
           ++ right. split; [exact Ho|]. intros mlID [[= E _]|Hin];
                [congruence|eapply Hno, Hin].
    + apply (Hstep _ H). intros Ho.
      destruct (IH _ _ H Hl) as [(mlID & ml0 & Hin & Hm & Hr)|[_ Hno]].
      * left. exists mlID, ml0. split; [right; exact Hin|]. split; assumption.
      * right. split; [exact Ho|]. intros mlID [[= E _]|Hin];
          [congruence|eapply Hno, Hin].
Qed.

(** What a region refresh that succeeds publishes.  A region that a row
    of [region_map_layers] ties to a layer whose fetch failed, or to a
    layer the layer query did not give, is not published.  A published
    region that some row names carries a layer with the text fetched for
    it in this cycle, the body of a response with status 200.  A
    published region that no row names is as the region query left
    it. *)
Lemma loadRegions_publishes db net out :
  Repo.loadRegions db net = Ok out ->
  exists regionRows layerRows pairs regions layers,
    RegionStore.regions db = inr regionRows /\
    RegionStore.mapLayers db = inr layerRows /\
    RegionStore.regionMapLayers db = inr pairs /\
    Repo.scanRegions regionRows ∅ = Ok regions /\
    Repo.scanMapLayers layerRows ∅ = Ok layers /\
    (forall regionID mlID, In (inr (regionID, mlID)) pairs ->
       match layers !! mlID with
       | Some ml => enriched net mlID ml = None
       | None => True
       end ->
       out !! regionID = None) /\
    (forall regionID region, out !! regionID = Some region ->
       (exists mlID ml xml, In (inr (regionID, mlID)) pairs /\
          layers !! mlID = Some ml /\ fetched net mlID ml = inr xml /\
          Region.MapLayer region = MapLayer.setCapabilitiesXML ml xml) \/
       (regions !! regionID = Some region /\
        forall mlID, ~ In (inr (regionID, mlID)) pairs)).
Proof.
  unfold Repo.loadRegions. intros H.
  destruct (RegionStore.Begin db); [discriminate|].
  destruct (RegionStore.regions db) as [e|regionRows]; [discriminate|].
  destruct (Repo.scanRegions regionRows ∅) as [regions| |] eqn:Hr;
    cbn [rbind] in H; [|discriminate..].
  destruct (RegionStore.mapLayers db) as [e|layerRows]; [discriminate|].
  destruct (Repo.scanMapLayers layerRows ∅) as [layers| |] eqn:Hm;
    cbn [rbind] in H; [|discriminate..].
  assert (Hk : keyed layers).
  { eapply scanMapLayers_keyed; [|exact Hm]. intros id ml E.
    rewrite lookup_empty in E. discriminate E. }
  destruct (enrichAll_keyed net layers Hk) as (layers' & He & Hl').
  rewrite He in H. cbn [rbind] in H.
  destruct (RegionStore.regionMapLayers db) as [e|pairs]; [discriminate|].
  exists regionRows, layerRows, pairs, regions, layers.
  do 3 (split; [reflexivity|]). split; [exact Hr|]. split; [exact Hm|].
  split.
  - intros regionID mlID Hin Hgone.
    eapply attachMapLayers_drops; [exact Hin| |exact H].
    rewrite Hl'. destruct (layers !! mlID); [exact Hgone|reflexivity].
  - intros regionID region Hout.
    destruct (attachMapLayers_published _ _ _ _ _ _ H Hout)
      as [(mlID & ml' & Hin & Hml & Hreg)|[Ho Hno]].
    + left. rewrite Hl' in Hml.
      destruct (layers !! mlID) as [ml|] eqn:Hlay; [|discriminate].
      unfold enriched in Hml.
      destruct (fetched net mlID ml) as [e|xml] eqn:Hf; [discriminate|].
      injection Hml as <-. exists mlID, ml, xml.
      repeat split; assumption.
    + right. split; assumption.
Qed.

(** C2, where the code departs from it.  A refresh publishes an active
    region that no row of [region_map_layers] mentions with the zero
    [MapLayer], and a region whose layer was fetched with an empty body
    with that empty text: [CapabilitiesXML] is empty in the published
    snapshot. *)
Theorem regions_published_without_capabilities :
  (let r := Repo.updateRegions Repo.New sample.unlayered sample.offline in
   snd r = Ok tt /\
   exists region, Repo.Regions (fst r) !! 1 = Some region /\
     Region.MapLayer region = MapLayer.zero /\
     MapLayer.CapabilitiesXML (Region.MapLayer region) = EmptyString) /\
  (let r := Repo.updateRegions Repo.New sample.layered sample.blank in
   snd r = Ok tt /\
   exists region, Repo.Regions (fst r) !! 1 = Some region /\
     MapLayer.ID (Region.MapLayer region) = "7"%string /\
     MapLayer.CapabilitiesXML (Region.MapLayer region) = EmptyString).
Proof.
  split; cbv zeta; (split; [vm_compute; reflexivity|]);
    eexists; (split; [vm_compute; reflexivity|]); split; reflexivity.
Qed.

(** C7, where the earlier revision departs from it.  Its refresh stores
    challenge 5 of region 1 under key 1, the region id: the published map
    has nothing under 5, and [Challenge] does not find the challenge under
    its own opaque id. *)
Theorem rev1_challenges_keyed_by_region :
  let r := repos_rev1.Repo.updateChallenges repos_rev1.Repo.New
             (inr [sample.rev1Row]) in
  snd r = Ok tt /\
  repos_rev1.Repo.challenges (fst r) !! 5 = None /\
  (exists c, repos_rev1.Repo.challenges (fst r) !! 1 = Some c /\
             repos_rev1.Challenge.ID c = "au"%string) /\
  encodeChallengeID 5 = Ok "au"%string /\
  repos_rev1.Repo.Challenge (fst r) "au" = Err ChallengeNotFoundError.
Proof.
  cbv zeta. split; [vm_compute; reflexivity|].
  split; [vm_compute; reflexivity|].
  split; [eexists; split; vm_compute; reflexivity|].
  split; vm_compute; reflexivity.
Qed.

(** ** What the later revision's challenge refresh publishes *)

Lemma encodeChallengeID_domain id s :
  encodeChallengeID id = Ok s -> 1 <= id <= 2 ^ 32 - 2.
Proof.
  unfold encodeChallengeID.
  destruct (Z.leb_spec id 0); [discriminate|].
  destruct (Z.geb_spec id 4294967295); [discriminate|]. lia.
Qed.

Lemma scanChallenges_other rs i : forall ch cbr ch' cbr',
  Repo.scanChallenges rs ch cbr = Ok (ch', cbr') ->
  ~ In i (rowIDs rs) -> ch' !! i = ch !! i.
Proof.
  induction rs as [|[e|row] rs IH]; intros ch cbr ch' cbr' H Hi;
    cbn [Repo.scanChallenges] in H.
  - injection H as <- _. reflexivity.
  - discriminate.
  - destruct (encodeChallengeID _) as [id| |]; cbn [rbind] in H;
      [|discriminate..].
    cbn [rowIDs flat_map app] in Hi. fold (rowIDs rs) in Hi.
    rewrite (IH _ _ _ _ H) by (intros Hin; apply Hi; right; exact Hin).
    apply lookup_insert_ne. intros E. apply Hi. left. exact E.
Qed.

Lemma scanChallenges_binds rs row : forall ch cbr ch' cbr',
  Repo.scanChallenges rs ch cbr = Ok (ch', cbr') ->
  NoDup (rowIDs rs) -> In (inr row) rs ->
  exists id, encodeChallengeID (ChallengeRow.internalID row) = Ok id /\
             ch' !! ChallengeRow.internalID row = Some (loaded row id).
Proof.
  induction rs as [|[e|row'] rs IH]; intros ch cbr ch' cbr' H Hnd Hin;
    cbn [Repo.scanChallenges] in H.
  - destruct Hin.
  - discriminate.
  - destruct (encodeChallengeID (ChallengeRow.internalID row'))
      as [id| |] eqn:He; cbn [rbind] in H; [|discriminate..].
    cbn [rowIDs flat_map app] in Hnd. fold (rowIDs rs) in Hnd.
    apply NoDup_cons in Hnd as [Hfresh Hnd].
    destruct Hin as [Hin|Hin].
    + injection Hin as ->. exists id. split; [exact He|].
      rewrite (scanChallenges_other _ _ _ _ _ _ H)
        by (rewrite <- list_elem_of_In; exact Hfresh).
      apply lookup_insert_eq.
    + eapply IH; eassumption.
Qed.

Lemma scanChallenges_byRegion rs regionID : forall ch cbr ch' cbr',
  Repo.scanChallenges rs ch cbr = Ok (ch', cbr') ->
  default [] (cbr' !! regionID)
  = default [] (cbr !! regionID) ++ loadedOf regionID rs.
Proof.
  induction rs as [|[e|row] rs IH]; intros ch cbr ch' cbr' H;
    cbn [Repo.scanChallenges] in H.
  - injection H as _ <-. cbn. rewrite app_nil_r. reflexivity.
  - discriminate.
  - cbn [loadedOf flat_map]. fold (loadedOf regionID rs).
    destruct (encodeChallengeID _) as [id| |]; cbn [rbind] in H;
      [|discriminate..].
    rewrite (IH _ _ _ _ H). rewrite lookup_insert.
    destruct (Z.eqb_spec (ChallengeRow.internalRegionID row) regionID)
      as [E|Hne];
      destruct (decide (ChallengeRow.internalRegionID row = regionID));
      try contradiction.
    + unfold loaded. rewrite E. cbn -[loadedOf].
      rewrite <- app_assoc. reflexivity.
    + reflexivity.
Qed.

(** Every list of the region map has a challenge. *)
Lemma scanChallenges_nonempty rs : forall ch cbr ch' cbr',
  Repo.scanChallenges rs ch cbr = Ok (ch', cbr') ->
  (forall regionID list, cbr !! regionID = Some list -> list <> []) ->
  forall regionID list, cbr' !! regionID = Some list -> list <> [].
Proof.
  induction rs as [|[e|row] rs IH]; intros ch cbr ch' cbr' H Hinv;
    cbn [Repo.scanChallenges] in H.
  - injection H as _ <-. exact Hinv.
  - discriminate.
  - destruct (encodeChallengeID _) as [id| |]; cbn [rbind] in H;
      [|discriminate..].
    apply (IH _ _ _ _ H). intros regionID list Hl.
    destruct (Z.eq_dec (ChallengeRow.internalRegionID row) regionID)
      as [E|Hne].
    + rewrite E, lookup_insert_eq in Hl. injection Hl as <-.
      intros E'. apply app_eq_nil in E' as [_ E']. discriminate E'.
    + rewrite lookup_insert_ne in Hl by assumption. eapply Hinv, Hl.
Qed.

(** The later revision does what C7 says.  After a refresh that
    succeeds on rows with distinct internal ids, the challenge map binds
    the internal id of every row to the row's challenge, and [Challenge]
    returns it for the opaque id; the region map binds a region id to the
    region's challenges in the order of the rows; and the list of regions
    has every key of the region map once, each with a challenge. *)
Lemma updateChallenges_publishes (r : Repo.t) rs :
  snd (Repo.updateChallenges r (inr rs)) = Ok tt ->
  let r' := fst (Repo.updateChallenges r (inr rs)) in
  (NoDup (rowIDs rs) ->
   forall row, In (inr row) rs ->
     exists id, encodeChallengeID (ChallengeRow.internalID row) = Ok id /\
       Repo.challenges r' !! ChallengeRow.internalID row
       = Some (loaded row id) /\
       Repo.Challenge r' id = Ok (loaded row id)) /\
  (forall regionID,
     default [] (Repo.challengesByRegion r' !! regionID)
     = loadedOf regionID rs) /\
  NoDup (Repo.regionsWithChallenges r') /\
  (forall regionID,
     In regionID (Repo.regionsWithChallenges r') <->
     loadedOf regionID rs <> []).
Proof.
  unfold Repo.updateChallenges.
  destruct (Repo.scanChallenges rs ∅ ∅) as [[ch cbr]| |] eqn:Hs; cbn;
    [intros _|discriminate..].
  assert (Hby : forall regionID,
            default [] (cbr !! regionID) = loadedOf regionID rs).
  { intros regionID. rewrite (scanChallenges_byRegion _ _ _ _ _ _ Hs).
    rewrite lookup_empty. reflexivity. }
  split; [|split; [exact Hby|split]].
  - intros Hnd row Hin.
    destruct (scanChallenges_binds _ _ _ _ _ _ Hs Hnd Hin) as (id & He & Hl).
    exists id. split; [exact He|]. split; [exact Hl|].
    unfold Repo.Challenge. cbn.
    destruct (decode_encodeChallengeID _ (encodeChallengeID_domain _ _ He))
      as (s & He' & Hd).
    assert (s = id) by congruence. subst s. rewrite Hd, Hl. reflexivity.
  - unfold Repo.keys. apply NoDup_fst_map_to_list.
  - intros regionID. unfold Repo.keys. rewrite <- Hby.
    rewrite <- list_elem_of_In, list_elem_of_fmap. split.
    + intros [[k list] [-> Hin]]. apply elem_of_map_to_list in Hin.
      cbn. rewrite Hin. cbn.
      eapply (scanChallenges_nonempty _ _ _ _ _ Hs); [|exact Hin].
      intros ? ? E. rewrite lookup_empty in E. discriminate E.
    + intros Hne. destruct (cbr !! regionID) as [list|] eqn:Hl;
        [|contradiction].
      exists (regionID, list). split; [reflexivity|].
      apply elem_of_map_to_list. exact Hl.
Qed.

(** ** The capability fetch *)

Example utf8_valid :
  utf8.Valid (bytes_of_string "<Capabilities/>") = true /\
  utf8.Valid [195; 169] = true /\ utf8.Valid [226; 130; 172] = true /\
  utf8.Valid [240; 159; 151; 186] = true.
Proof. repeat split. Qed.

Example utf8_invalid :
  utf8.Valid [255] = false /\ utf8.Valid [192; 128] = false /\
  utf8.Valid [237; 160; 128] = false /\
  utf8.Valid [244; 144; 128; 128] = false /\ utf8.Valid [195] = false.
Proof. repeat split. Qed.


Lemma attempt_succeeds x out :
  attempt x = inr out <->
  exists xml, x = Response 200 (BodyRead xml) /\ utf8.Valid xml = true /\
              out = string_of_bytes xml.
Proof.
  split.
  - destruct x as [msg|msg|code [xml|msg]]; cbn [attempt]; try discriminate.
    + destruct (Z.eqb_spec code 200) as [->|_]; cbn [negb]; [|discriminate].
      destruct (utf8.Valid xml) eqn:Hv; cbn [negb]; [|discriminate].
      intros [= <-]. exists xml. repeat split. exact Hv.
    + destruct (code =? 200); discriminate.
  - intros (xml & -> & Hv & ->). cbn. rewrite Hv. reflexivity.
Qed.

Lemma Retry_success x later out :
  attempt x = inr out -> Retry x later = inr out.
Proof. intros H. destruct later; cbn [Retry]; rewrite H; reflexivity. Qed.

Lemma last_In {A} (l : list A) : forall x, In (List.last l x) (x :: l).
Proof.
  induction l as [|y l IH]; intros x; [left; reflexivity|].
  cbn [List.last]. destruct l as [|z l]; [right; left; reflexivity|].
  destruct (IH x) as [H|H]; [left; exact H|right; right; exact H].
Qed.

Lemma last_cons {A} (l : list A) : forall a d,
  List.last (a :: l) d = List.last l a.
Proof.
  induction l as [|b l IH]; intros a d; [reflexivity|].
  change (List.last (a :: b :: l) d) with (List.last (b :: l) d).
  rewrite !IH. reflexivity.
Qed.

Lemma Retry_exhausted later : forall x,
  (forall y, In y (x :: later) -> fails y) ->
  Retry x later = attempt (List.last later x).
Proof.
  induction later as [|x' later IH]; intros x H.
  - cbn. destruct (H x (or_introl eq_refl)) as [err ->]. reflexivity.
  - cbn [Retry]. destruct (H x (or_introl eq_refl)) as [err ->].
    rewrite IH by (intros y Hy; apply H; right; exact Hy).
    rewrite last_cons. reflexivity.
Qed.

Lemma Retry_first_success pre : forall x y post out,
  (forall z, In z (x :: pre) -> fails z) ->
  attempt y = inr out ->
  Retry x (pre ++ y :: post) = inr out.
Proof.
  induction pre as [|x' pre IH]; intros x y post out H Hy.
  - cbn [app Retry]. destruct (H x (or_introl eq_refl)) as [err ->].
    apply Retry_success. exact Hy.
  - cbn [app Retry]. destruct (H x (or_introl eq_refl)) as [err ->].
    apply IH; [|exact Hy]. intros z Hz. apply H. right. exact Hz.
Qed.

(** A fetch that succeeds returns what one of its runs returned. *)
Lemma Retry_inr later : forall x out,
  Retry x later = inr out ->
  exists y, In y (x :: later) /\ attempt y = inr out.
Proof.
  induction later as [|x' later IH]; intros x out H; cbn [Retry] in H.
  - destruct (attempt x) as [e|s] eqn:Hx; [discriminate|].
    exists x. split; [left; reflexivity|]. congruence.
  - destruct (attempt x) as [e|s] eqn:Hx.
    + destruct (IH _ _ H) as (y & Hy & Ha). exists y.
      split; [right; exact Hy|exact Ha].
    + exists x. split; [left; reflexivity|]. congruence.
Qed.

(** C8, as the code has it.  One run of the fetch succeeds exactly when
    there is a response, its status is 200, its body can be read and is
    valid UTF-8; the body is then returned as text.  A response with
    another status gives an error that carries the status and the body
    read.  The fetch returns the result of the first run that succeeds;
    when every run the backoff policy allows fails, it returns the error
    of the last one. *)
Theorem fetchCapabilities_attempts :
  (forall x out,
     attempt x = inr out <->
     exists xml, x = Response 200 (BodyRead xml) /\
                 utf8.Valid xml = true /\ out = string_of_bytes xml) /\
  (forall code v, code <> 200 ->
     attempt (Response code (BodyRead v))
     = inl (OtherError ("unexpected status code " ++ strconv.FormatInt code
                        ++ ": " ++ string_of_bytes v)%string)) /\
  (forall x later out,
     attempt x = inr out -> fetchCapabilities x later = inr out) /\
  (forall x pre y post out,
     (forall z, In z (x :: pre) -> fails z) -> attempt y = inr out ->
     fetchCapabilities x (pre ++ y :: post) = inr out) /\
  (forall x later,
     (forall y, In y (x :: later) -> fails y) ->
     fetchCapabilities x later = attempt (List.last later x) /\
     fails (List.last later x)).
Proof.
  split; [exact attempt_succeeds|]. split.
  - intros code v H. cbn [attempt].
    destruct (Z.eqb_spec code 200); [contradiction|]. reflexivity.
  - split; [exact Retry_success|]. split.
    + intros x pre y post out. apply Retry_first_success.
    + intros x later H. split; [apply Retry_exhausted, H|].
      apply H, last_In.
Qed.

Lemma fetchCapabilities_attempts_witness :
  fetchCapabilities (DoError "timeout")
    [Response 503 (BodyRead (bytes_of_string "busy"));
     Response 200 (BodyRead (bytes_of_string "<Capabilities/>"))]
  = inr "<Capabilities/>"%string /\
  fetchCapabilities (DoError "timeout")
    [Response 503 (BodyRead (bytes_of_string "busy"))]
  = inl (OtherError "unexpected status code 503: busy").
Proof.
  split.
  - apply (proj1 (proj2 (proj2 (proj2 fetchCapabilities_attempts)))
             (DoError "timeout")
             [Response 503 (BodyRead (bytes_of_string "busy"))]
             (Response 200 (BodyRead (bytes_of_string "<Capabilities/>")))
             []).
    + intros z [<-|[<-|[]]]; eexists; reflexivity.
    + reflexivity.
  - apply (proj2 (proj2 (proj2 (proj2 fetchCapabilities_attempts)))
             (DoError "timeout")
             [Response 503 (BodyRead (bytes_of_string "busy"))]).
    intros z [<-|[<-|[]]]; eexists; reflexivity.
Defined.

(** C8 as stated fails: a response with status 204 and an empty body has
    a 2xx status and a body that is valid UTF-8, and the run fails. *)
Lemma fetchCapabilities_attempts_counterexample :
  ~ (forall code xml, 200 <= code <= 299 -> utf8.Valid xml = true ->
       exists out, attempt (Response code (BodyRead xml)) = inr out).
Proof.
  intros H. destruct (H 204 [] ltac:(lia) eq_refl) as [out Hout].
  discriminate Hout.
Qed.

(** ** More on the codec *)

Lemma pack_bytes n buf : Forall byte (base32.pack n buf).
Proof.
  unfold base32.pack.
  destruct (n =? 8); [|destruct (n =? 7); [|destruct (n =? 5);
    [|destruct (n =? 4); [|destruct (n =? 2)]]]];
    repeat constructor; apply u8_range.
Qed.

Lemma decodeLoop_bytes fuel : forall src stop olen dst out,
  Forall byte dst ->
  base32.decodeLoop fuel src stop olen dst = inr out -> Forall byte out.
Proof.
  induction fuel as [|fuel IH]; intros src stop olen dst out Hdst H.
  - destruct src; cbn in H; [|destruct stop]; injection H as <-; exact Hdst.
  - destruct src as [|b src]; cbn [base32.decodeLoop] in H;
      [injection H as <-; exact Hdst|].
    destruct stop; [injection H as <-; exact Hdst|].
    destruct (base32.readQuantum 8 0 [] (b :: src) olen) as [e|q];
      [discriminate|].
    eapply IH; [|exact H]. apply Forall_app. split; [exact Hdst|].
    apply pack_bytes.
Qed.

Lemma padZeroBytes_bytes n : forall bytes,
  Forall byte bytes -> Forall byte (padZeroBytes n bytes).
Proof.
  induction n as [|n IH]; intros bytes H; cbn [padZeroBytes]; [exact H|].
  destruct (Z.of_nat (length bytes) <? 4); [|exact H].
  apply IH. constructor; [unfold byte; lia|exact H].
Qed.

Lemma Uint32_range bs v :
  Forall byte bs -> BigEndian.Uint32 bs = Ok v -> 0 <= v < 2 ^ 32.
Proof.
  intros Hb H. destruct bs as [|b0 [|b1 [|b2 [|b3 bs]]]]; try discriminate H.
  cbn [BigEndian.Uint32] in H. injection H as <-.
  repeat match goal with
  | H : Forall byte (_ :: _) |- _ =>
      let Hx := fresh "Hx" in
      inversion H as [|? ? Hx ?]; subst; clear H; apply u8_small in Hx
  end.
  rewrite <- Hx, <- Hx0, <- Hx1, <- Hx2.
  match goal with |- 0 <= ?x < _ => assert (E : x = x mod 2 ^ 32) end.
  { unfold u8. Z.bitblast. }
  rewrite E. apply Z.mod_pos_bound. lia.
Qed.

(** X1. [decodeChallengeID] never panics, whatever the string: it
    returns an integer that fits a [uint32], or the decoder's
    [CorruptInputError]. *)
Theorem decodeChallengeID_uint32 (id : string) :
  (exists internalID,
     decodeChallengeID id = Ok internalID /\ 0 <= internalID < 2 ^ 32) \/
  (exists off, decodeChallengeID id = Err (CorruptInputError off)).
Proof.
  destruct (decodeChallengeID_total id) as [[v Hv]|H]; [left|right; exact H].
  exists v. split; [exact Hv|].
  unfold decodeChallengeID, base32.DecodeString, base32.decode in Hv.
  destruct (base32.decodeLoop _ _ _ _ _) as [e|bytes] eqn:H; [discriminate|].
  apply decodeLoop_bytes in H; [|constructor].
  eapply Uint32_range; [|exact Hv]. apply padZeroBytes_bytes. exact H.
Qed.

(** ** The shape of an opaque id *)

Lemma encode_inAlphabet g : group g -> inAlphabet (base32.encode g).
Proof.
  intros Hg. unfold inAlphabet, base32.encode. apply nth_In.
  unfold group in Hg. change (length (bytes_of_string base32.encoder)) with 32%nat.
  lia.
Qed.

Lemma encode_all_inAlphabet gs :
  Forall group gs -> Forall inAlphabet (map base32.encode gs).
Proof.
  induction 1 as [|g gs Hg _ IH]; constructor;
    [apply encode_inAlphabet; exact Hg|exact IH].
Qed.

Lemma string_of_bytes_length bs : String.length (string_of_bytes bs) = length bs.
Proof.
  unfold string_of_bytes. induction bs as [|b bs IH]; [reflexivity|].
  cbn [map string_of_list_ascii String.length]. rewrite IH. reflexivity.
Qed.

(** The byte of a word at a position is zero exactly when the word is
    small enough. *)
Lemma u8_shiftr_zero id k :
  0 <= k -> 0 <= id < 2 ^ (k + 8) ->
  (u8 (Z.shiftr id k) =? 0) = (id <? 2 ^ k).
Proof.
  intros Hk Hid. rewrite Z.shiftr_div_pow2 by lia.
  assert (Hp : 0 < 2 ^ k) by (apply Z.pow_pos_nonneg; lia).
  assert (Hq : 0 <= id / 2 ^ k < 256).
  { split; [apply Z.div_pos; lia|].
    apply Z.div_lt_upper_bound; [lia|].
    rewrite Z.pow_add_r in Hid by lia. change (2 ^ 8) with 256 in Hid. lia. }
  rewrite u8_small by exact Hq.
  destruct (Z.ltb_spec id (2 ^ k)) as [Hlt|Hge].
  - rewrite Z.div_small by lia. reflexivity.
  - apply Z.eqb_neq. intros E.
    pose proof (Z.div_mod id (2 ^ k) ltac:(lia)) as Hd.
    pose proof (Z.mod_pos_bound id (2 ^ k) Hp). rewrite E in Hd. lia.
Qed.

(** Induction on a slice in steps of five bytes, as [Encode] walks
    it. *)
Lemma quanta_ind (P : list Z -> Prop) :
  P [] -> (forall a, P [a]) -> (forall a b, P [a; b]) ->
  (forall a b c, P [a; b; c]) -> (forall a b c d, P [a; b; c; d]) ->
  (forall a b c d e rest, P rest -> P (a :: b :: c :: d :: e :: rest)) ->
  forall l, P l.
Proof.
  intros H0 H1 H2 H3 H4 H5 l.
  assert (H : forall n l, (length l <= n)%nat -> P l).
  { clear l. induction n as [|n IH]; intros l Hl.
    - destruct l; [exact H0|cbn in Hl; lia].
    - destruct l as [|a [|b [|c [|d [|e rest]]]]]; auto.
      apply H5. apply IH. cbn [length] in Hl. lia. }
  apply (H (length l)). lia.
Qed.

(** What [Encode] writes: the symbols of five-bit groups, eight for
    every five bytes, rounded up. *)
Lemma Encode_symbols bs :
  exists gs,
    base32.Encode bs = map base32.encode gs /\
    Forall group gs /\
    Z.of_nat (length gs) = (8 * Z.of_nat (length bs) + 4) / 5.
Proof.
  induction bs as [|a|a b|a b c|a b c d|a b c d e rest IH] using quanta_ind.
  - exists []. repeat split. constructor.
  - exists (base32.remainGroups 1 a 0 0 0).
    split; [reflexivity|]. split; [apply remainGroups_group|reflexivity].
  - exists (base32.remainGroups 2 a b 0 0).
    split; [reflexivity|]. split; [apply remainGroups_group|reflexivity].
  - exists (base32.remainGroups 3 a b c 0).
    split; [reflexivity|]. split; [apply remainGroups_group|reflexivity].
  - exists (base32.remainGroups 4 a b c d).
    split; [reflexivity|]. split; [apply remainGroups_group|reflexivity].
  - destruct IH as (gs & He & Hg & Hl).
    exists (base32.quantumGroups a b c d e ++ gs).
    split; [|split].
    + change (base32.Encode (a :: b :: c :: d :: e :: rest))
        with (map base32.encode (base32.quantumGroups a b c d e)
              ++ base32.Encode rest).
      rewrite He, map_app. reflexivity.
    + apply Forall_app. split; [apply quantumGroups_group|exact Hg].
    + rewrite length_app. unfold base32.quantumGroups at 1.
      cbn [length]. rewrite Nat2Z.inj_add, Hl.
      replace (Z.of_nat (S (S (S (S (S (length rest)))))))
        with (Z.of_nat (length rest) + 5) by lia.
      replace (8 * (Z.of_nat (length rest) + 5) + 4)
        with ((8 * Z.of_nat (length rest) + 4) + 8 * 5) by lia.
      rewrite Z.div_add by lia. change (Z.of_nat 8) with 8. lia.
Qed.

Lemma EncodeToString_shape bs :
  Forall inAlphabet (bytes_of_string (base32.EncodeToString bs)) /\
  Z.of_nat (String.length (base32.EncodeToString bs))
  = (8 * Z.of_nat (length bs) + 4) / 5.
Proof.
  destruct (Encode_symbols bs) as (gs & He & Hg & Hl).
  unfold base32.EncodeToString. rewrite He. split.
  - rewrite bytes_of_string_of_bytes by (apply encode_bytes; exact Hg).
    apply encode_all_inAlphabet. exact Hg.
  - rewrite string_of_bytes_length, length_map. exact Hl.
Qed.

(** X2. The opaque id of an internal id of the domain is made of
    characters of the alphabet only, and its length tells the magnitude
    of the internal id: two characters below [2^8], four below [2^16],
    five below [2^24] and seven from there on. *)
Theorem encodeChallengeID_shape (id : Z) :
  1 <= id <= 2 ^ 32 - 2 ->
  exists s,
    encodeChallengeID id = Ok s /\
    Forall inAlphabet (bytes_of_string s) /\
    Z.of_nat (String.length s)
    = (if id <? 2 ^ 8 then 2
       else if id <? 2 ^ 16 then 4
       else if id <? 2 ^ 24 then 5 else 7).
Proof.
  intros Hid. unfold encodeChallengeID.
  destruct (Z.leb_spec id 0); [lia|].
  destruct (Z.geb_spec id 4294967295); [lia|]. cbn [orb].
  rewrite u32_small by lia. unfold BigEndian.PutUint32.
  cbn [stripZeroBytes].
  rewrite (u8_shiftr_zero id 24) by (cbn; lia).
  destruct (Z.ltb_spec id (2 ^ 24)) as [H24|H24].
  - rewrite (u8_shiftr_zero id 16) by (cbn; lia).
    destruct (Z.ltb_spec id (2 ^ 16)) as [H16|H16].
    + rewrite (u8_shiftr_zero id 8) by (cbn; lia).
      destruct (Z.ltb_spec id (2 ^ 8)) as [H8|H8].
      * destruct (Z.eqb_spec (u8 id) 0) as [E|_];
          [rewrite u8_small in E by (cbn in H8; lia); lia|].
        cbn [rbind]. eexists. split; [reflexivity|].
        apply EncodeToString_shape.
      * cbn [rbind]. eexists. split; [reflexivity|].
        apply EncodeToString_shape.
    + destruct (Z.ltb_spec id (2 ^ 8)); [cbn in *; lia|].
      cbn [rbind]. eexists. split; [reflexivity|].
      apply EncodeToString_shape.
  - destruct (Z.ltb_spec id (2 ^ 8)); [cbn in *; lia|].
    destruct (Z.ltb_spec id (2 ^ 16)); [cbn in *; lia|].
    cbn [rbind]. eexists. split; [reflexivity|].
    apply EncodeToString_shape.
Qed.

Lemma encodeChallengeID_shape_witness :
  exists s,
    encodeChallengeID 70000 = Ok s /\
    Forall inAlphabet (bytes_of_string s) /\
    Z.of_nat (String.length s) = 5.
Proof. apply (encodeChallengeID_shape 70000). lia. Defined.

(** ** [DecodeString] undoes [EncodeToString] on every slice *)

Lemma Encode_length bs : (length bs <= length (base32.Encode bs))%nat.
Proof.
  destruct (Encode_symbols bs) as (gs & -> & _ & Hl). rewrite length_map.
  assert (Z.of_nat (length bs) <= (8 * Z.of_nat (length bs) + 4) / 5)
    by (apply Z.div_le_lower_bound; lia).
  lia.
Qed.

Lemma decodeLoop_Encode bs : forall fuel olen dst,
  Forall byte bs -> (length (base32.Encode bs) <= fuel)%nat ->
  base32.decodeLoop fuel (base32.Encode bs) false olen dst = inr (dst ++ bs).
Proof.
  induction bs as [|a|a b|a b c|a b c d|a b c d e rest IH] using quanta_ind;
    intros fuel olen dst Hb Hfuel;
    repeat match goal with
    | H : Forall byte (_ :: _) |- _ =>
        let Hx := fresh "Hx" in
        inversion H as [|? ? Hx ?]; subst; clear H; apply u8_small in Hx
    end.
  - cbn. destruct fuel; rewrite app_nil_r; reflexivity.
  - destruct fuel as [|fuel]; [cbn in Hfuel; lia|]. cbn [base32.Encode].
    rewrite decodeLoop_symbols by (first [apply remainGroups_group|cbn; lia]).
    rewrite <- Hx. f_equal. f_equal. apply pack_remain1.
  - destruct fuel as [|fuel]; [cbn in Hfuel; lia|]. cbn [base32.Encode].
    rewrite decodeLoop_symbols by (first [apply remainGroups_group|cbn; lia]).
    rewrite <- Hx, <- Hx0. f_equal. f_equal. apply pack_remain2.
  - destruct fuel as [|fuel]; [cbn in Hfuel; lia|]. cbn [base32.Encode].
    rewrite decodeLoop_symbols by (first [apply remainGroups_group|cbn; lia]).
    rewrite <- Hx, <- Hx0, <- Hx1. f_equal. f_equal. apply pack_remain3.
  - destruct fuel as [|fuel]; [cbn in Hfuel; lia|]. cbn [base32.Encode].
    rewrite decodeLoop_symbols by (first [apply remainGroups_group|cbn; lia]).
    rewrite <- Hx, <- Hx0, <- Hx1, <- Hx2. f_equal. f_equal. apply pack_remain4.
  - change (base32.Encode (a :: b :: c :: d :: e :: rest))
      with (map base32.encode (base32.quantumGroups a b c d e)
            ++ base32.Encode rest) in *.
    destruct fuel as [|fuel];
      [rewrite length_app, length_map in Hfuel; cbn in Hfuel; lia|].
    rewrite length_app, length_map in Hfuel.
    unfold base32.quantumGroups at 1 in Hfuel. cbn [length] in Hfuel.
    remember (base32.quantumGroups a b c d e) as q eqn:Hq.
    assert (Hgq : Forall group q) by (subst q; apply quantumGroups_group).
    assert (Hlq : length q = 8%nat) by (subst q; reflexivity).
    destruct q as [|g q]; [discriminate Hlq|].
    cbn [map app base32.decodeLoop].
    change (base32.encode g :: map base32.encode q ++ base32.Encode rest)
      with (map base32.encode (g :: q) ++ base32.Encode rest).
    rewrite readQuantum_full by assumption.
    cbn [base32.rest base32.fin base32.dlen base32.dbuf app].
    rewrite IH by (auto; lia).
    rewrite Hq, <- Hx, <- Hx0, <- Hx1, <- Hx2, <- Hx3, pack_quantum.
    rewrite <- app_assoc. reflexivity.
Qed.

Lemma DecodeString_EncodeToString_all bs :
  Forall byte bs -> base32.DecodeString (base32.EncodeToString bs) = inr bs.
Proof.
  intros Hb. unfold base32.DecodeString, base32.EncodeToString.
  destruct (Encode_symbols bs) as (gs & He & Hg & _).
  rewrite He, bytes_of_string_of_bytes by (apply encode_bytes; exact Hg).
  rewrite stripNewlines_symbols by exact Hg. rewrite <- He.
  unfold base32.decode. apply (decodeLoop_Encode bs _ _ []); [exact Hb|lia].
Qed.

(** X3. [decodeChallengeID] reads the first four decoded bytes as a
    big-endian word and ignores what follows them.  So every value of
    [0 .. 2^32 - 1] is decoded from its seven-character form, zero and
    [2^32 - 1] included, which [encodeChallengeID] refuses, and from
    every longer string that goes on after it. *)
Theorem decodeChallengeID_ignores_tail (v : Z) (tail : list Z) :
  0 <= v < 2 ^ 32 -> Forall byte tail ->
  decodeChallengeID (base32.EncodeToString (BigEndian.PutUint32 v ++ tail))
  = Ok v.
Proof.
  intros Hv Ht. unfold decodeChallengeID.
  rewrite DecodeString_EncodeToString_all
    by (apply Forall_app; split; [apply PutUint32_bytes|exact Ht]).
  unfold BigEndian.PutUint32. cbn [app padZeroBytes length Z.of_nat].
  destruct (Z.ltb_spec (Z.of_nat (S (S (S (S (length tail)))))) 4); [lia|].
  apply (Uint32_PutUint32 v) in Hv. unfold BigEndian.PutUint32 in Hv.
  cbn [BigEndian.Uint32] in *. exact Hv.
Qed.

Lemma decodeChallengeID_ignores_tail_witness :
  decodeChallengeID (base32.EncodeToString (BigEndian.PutUint32 1 ++ [7; 9]))
  = Ok 1 /\
  decodeChallengeID (base32.EncodeToString (BigEndian.PutUint32 4294967295 ++ []))
  = Ok 4294967295.
Proof.
  split.
  - apply (decodeChallengeID_ignores_tail 1 [7; 9]); [lia|].
    repeat constructor; unfold byte; lia.
  - apply (decodeChallengeID_ignores_tail 4294967295 []); [lia|constructor].
Defined.

(** ** The package's own round-trip test *)

Lemma roundTripLoop_pass n : forall i,
  1 <= i -> i + Z.of_nat n <= 2 ^ 32 - 1 -> roundTripLoop n i = Pass.
Proof.
  induction n as [|n IH]; intros i Hlo Hhi; [reflexivity|].
  cbn [roundTripLoop].
  destruct (decode_encodeChallengeID i ltac:(lia)) as (s & -> & ->).
  rewrite Z.eqb_refl. cbn [negb]. apply IH; lia.
Qed.

(** X4. The subtest ["round trip"] of [TestChallengeID] cannot pass: its
    loop starts at zero, where [encodeChallengeID] panics.  The same
    loop run over any range inside [1 .. 2^32 - 2] passes. *)
Theorem TestChallengeID_round_trip_panics :
  TestChallengeID_round_trip = Panics "id out of bounds" /\
  (forall n i, 1 <= i -> i + Z.of_nat n <= 2 ^ 32 - 1 ->
     roundTripLoop n i = Pass).
Proof.
  split; [reflexivity|]. intros n i. apply roundTripLoop_pass.
Qed.

Lemma TestChallengeID_round_trip_panics_witness :
  roundTripLoop 999 1 = Pass.
Proof.
  apply (proj2 TestChallengeID_round_trip_panics 999%nat 1); lia.
Defined.

(** ** The challenge refresh, row by row *)

Lemma scanChallenges_good pre : forall rest ch cbr,
  Forall goodRow pre ->
  exists ch' cbr',
    Repo.scanChallenges pre ch cbr = Ok (ch', cbr') /\
    Repo.scanChallenges (pre ++ rest) ch cbr = Repo.scanChallenges rest ch' cbr'.
Proof.
  induction pre as [|x pre IH]; intros rest ch cbr Hg.
  - exists ch, cbr. split; reflexivity.
  - inversion Hg as [|? ? (row & -> & Hid) Hg']; subst.
    cbn [app Repo.scanChallenges].
    destruct (decode_encodeChallengeID _ Hid) as (s & -> & _). cbn [rbind].
    apply IH. exact Hg'.
Qed.

Lemma scanChallenges_ok_rows rs : forall ch cbr res,
  Repo.scanChallenges rs ch cbr = Ok res -> Forall goodRow rs.
Proof.
  induction rs as [|[e|row] rs IH]; intros ch cbr res H;
    cbn [Repo.scanChallenges] in H; [constructor|discriminate|].
  destruct (encodeChallengeID (ChallengeRow.internalID row)) as [id| |] eqn:He;
    cbn [rbind] in H; [|discriminate..].
  constructor; [|eapply IH; exact H].
  exists row. split; [reflexivity|]. eapply encodeChallengeID_domain, He.
Qed.

(** X5. The first row that does not scan, or whose internal id is
    outside the codec's domain, decides how a challenge refresh ends.
    The refresh succeeds exactly when every row is good.  After good
    rows, a row that does not scan makes it return the scan error, and a
    row with an id at or below zero or from [2^32 - 1] on makes it
    panic, whatever follows; in both cases the repo is untouched. *)
Theorem updateChallenges_first_bad_row (r : Repo.t)
    (pre post : rows ChallengeRow.t) :
  Forall goodRow pre ->
  snd (Repo.updateChallenges r (inr pre)) = Ok tt /\
  (forall rs, snd (Repo.updateChallenges r (inr rs)) = Ok tt ->
     Forall goodRow rs) /\
  (forall err,
     Repo.updateChallenges r (inr (pre ++ inl err :: post)) = (r, Err err)) /\
  (forall row,
     ChallengeRow.internalID row <= 0 \/
     2 ^ 32 - 1 <= ChallengeRow.internalID row ->
     Repo.updateChallenges r (inr (pre ++ inr row :: post))
     = (r, Panic "id out of bounds"%string)).
Proof.
  intros Hg. unfold Repo.updateChallenges. split; [|split; [|split]].
  - destruct (scanChallenges_good pre [] ∅ ∅ Hg) as (ch & cbr & -> & _).
    reflexivity.
  - intros rs Hok.
    destruct (Repo.scanChallenges rs ∅ ∅) as [res| |] eqn:Hs;
      [|discriminate Hok..].
    eapply scanChallenges_ok_rows, Hs.
  - intros err.
    destruct (scanChallenges_good pre (inl err :: post) ∅ ∅ Hg)
      as (ch & cbr & _ & ->).
    reflexivity.
  - intros row Hrow.
    destruct (scanChallenges_good pre (inr row :: post) ∅ ∅ Hg)
      as (ch & cbr & _ & ->).
    cbn [Repo.scanChallenges]. unfold encodeChallengeID.
    destruct (Z.leb_spec (ChallengeRow.internalID row) 0) as [|Hpos];
      [reflexivity|].
    destruct (Z.geb_spec (ChallengeRow.internalID row) 4294967295);
      [reflexivity|lia].
Qed.

Lemma updateChallenges_first_bad_row_witness :
  snd (Repo.updateChallenges Repo.New (inr [sample.challengeRow 1 10]))
  = Ok tt /\
  Repo.updateChallenges Repo.New
    (inr ([sample.challengeRow 1 10] ++ sample.challengeRow 0 10 :: []))
  = (Repo.New, Panic "id out of bounds"%string).
Proof.
  assert (Hg : Forall goodRow [sample.challengeRow 1 10]).
  { constructor; [|constructor]. eexists. split; [reflexivity|cbn; lia]. }
  split.
  - apply (proj1 (updateChallenges_first_bad_row Repo.New _ [] Hg)).
  - apply (proj2 (proj2 (proj2 (updateChallenges_first_bad_row Repo.New _ []
                                  Hg)))
             {| ChallengeRow.internalID := 0;
                ChallengeRow.internalRegionID := 10;
                ChallengeRow.c := Challenge.zero |}).
    left. cbn. lia.
Defined.

(** ** The two indexes of the challenge snapshot *)

Lemma FormatInt_inj i j : strconv.FormatInt i = strconv.FormatInt j -> i = j.
Proof.
  intros H. apply (f_equal strconv.Atoi) in H.
  rewrite !Atoi_FormatInt in H. congruence.
Qed.

Lemma loadedOf_In regionID rs c :
  In c (loadedOf regionID rs) <->
  exists row id, In (inr row) rs /\
    ChallengeRow.internalRegionID row = regionID /\
    encodeChallengeID (ChallengeRow.internalID row) = Ok id /\
    c = loaded row id.
Proof.
  unfold loadedOf. rewrite in_flat_map. split.
  - intros ([e|row] & Hin & Hc); [destruct Hc|].
    destruct (Z.eqb_spec (ChallengeRow.internalRegionID row) regionID)
      as [E|_]; [|destruct Hc].
    destruct (encodeChallengeID (ChallengeRow.internalID row)) as [id| |]
      eqn:He; try destruct Hc as [Hc|[]]; try destruct Hc.
    exists row, id. repeat split; auto.
  - intros (row & id & Hin & E & He & ->). exists (inr row).
    split; [exact Hin|]. rewrite E, Z.eqb_refl, He. left. reflexivity.
Qed.

Lemma rowIDs_In rs i :
  In i (rowIDs rs) <->
  exists row, In (inr row) rs /\ ChallengeRow.internalID row = i.
Proof.
  unfold rowIDs. rewrite in_flat_map. split.
  - intros ([e|row] & Hin & Hi); [destruct Hi|].
    destruct Hi as [<-|[]]. exists row. split; [exact Hin|reflexivity].
  - intros (row & Hin & <-). exists (inr row). split; [exact Hin|].
    left. reflexivity.
Qed.

(** X6. After a challenge refresh that succeeds on rows with distinct
    internal ids the two indexes agree: a challenge is in the list of a
    region exactly when the challenge map holds it and its [RegionID] is
    the decimal of the region id.  Every challenge of a list can be
    fetched by its own opaque id. *)
Theorem updateChallenges_indexes_agree (r : Repo.t) rs :
  snd (Repo.updateChallenges r (inr rs)) = Ok tt ->
  NoDup (rowIDs rs) ->
  let r' := fst (Repo.updateChallenges r (inr rs)) in
  forall regionID c,
    (In c (default [] (Repo.challengesByRegion r' !! regionID)) <->
     exists internalID,
       Repo.challenges r' !! internalID = Some c /\
       Challenge.RegionID c = strconv.FormatInt regionID) /\
    (In c (default [] (Repo.challengesByRegion r' !! regionID)) ->
     Repo.Challenge r' (Challenge.ID c) = Ok c).
Proof.
  intros Hok Hnd r' regionID c.
  destruct (updateChallenges_publishes r rs Hok) as (Hbind & Hby & _ & _).
  fold r' in Hbind, Hby. specialize (Hbind Hnd). rewrite Hby.
  split; [split|].
  - intros Hin. apply loadedOf_In in Hin as (row & id & Hin & E & He & ->).
    destruct (Hbind row Hin) as (id' & He' & Hl & _).
    assert (id' = id) by congruence. subst id'.
    exists (ChallengeRow.internalID row). split; [exact Hl|].
    cbn. rewrite E. reflexivity.
  - intros (internalID & Hl & HR).
    assert (Hi : In internalID (rowIDs rs)).
    { destruct (in_dec Z.eq_dec internalID (rowIDs rs)) as [|Hn];
        [assumption|].
      exfalso. unfold r', Repo.updateChallenges in Hl, Hok.
      destruct (Repo.scanChallenges rs ∅ ∅) as [[ch cbr]| |] eqn:Hs;
        cbn in Hok, Hl; try discriminate Hok.
      rewrite (scanChallenges_other _ _ _ _ _ _ Hs Hn) in Hl.
      rewrite lookup_empty in Hl. discriminate Hl. }
    apply rowIDs_In in Hi as (row & Hin & <-).
    destruct (Hbind row Hin) as (id & He & Hl' & _).
    rewrite Hl' in Hl. injection Hl as <-.
    apply loadedOf_In. exists row, id. repeat split; auto.
    cbn in HR. apply FormatInt_inj. exact HR.
  - intros Hin. apply loadedOf_In in Hin as (row & id & Hin & E & He & ->).
    destruct (Hbind row Hin) as (id' & He' & _ & Hc).
    assert (id' = id) by congruence. subst id'. exact Hc.
Qed.

Lemma updateChallenges_indexes_agree_witness :
  let r' := fst (Repo.updateChallenges Repo.New sample.three) in
  let c := loaded {| ChallengeRow.internalID := 2;
                     ChallengeRow.internalRegionID := 20;
                     ChallengeRow.c := Challenge.zero |} "ai" in
  (In c (default [] (Repo.challengesByRegion r' !! 20)) <->
   exists internalID,
     Repo.challenges r' !! internalID = Some c /\
     Challenge.RegionID c = strconv.FormatInt 20) /\
  (In c (default [] (Repo.challengesByRegion r' !! 20)) ->
   Repo.Challenge r' (Challenge.ID c) = Ok c).
Proof.
  intros r' c.
  apply (updateChallenges_indexes_agree Repo.New
           [sample.challengeRow 1 10; sample.challengeRow 2 20;
            sample.challengeRow 3 20]).
  - vm_compute. reflexivity.
  - apply (bool_decide_unpack _). vm_compute. exact I.
Defined.

(** ** Counting the challenges of a region *)

Lemma loadedOf_length regionID rs :
  Forall goodRow rs -> len (loadedOf regionID rs) = rowsIn regionID rs.
Proof.
  unfold len, rowsIn, len, loadedOf.
  induction 1 as [|x rs (row & -> & Hid) _ IH]; [reflexivity|].
  cbn [flat_map List.filter].
  destruct (ChallengeRow.internalRegionID row =? regionID); [|exact IH].
  destruct (decode_encodeChallengeID _ Hid) as (s & -> & _).
  cbn [app length]. lia.
Qed.

(** X7. After a challenge refresh that succeeds, [ChallengesPerRegion]
    gives every region that has rows the number of its rows, and has no
    entry, rather than a zero, for a region without rows. *)
Theorem ChallengesPerRegion_counts (r : Repo.t) rs :
  snd (Repo.updateChallenges r (inr rs)) = Ok tt ->
  let r' := fst (Repo.updateChallenges r (inr rs)) in
  forall regionID,
    Repo.ChallengesPerRegion r' !! regionID
    = if rowsIn regionID rs =? 0 then None else Some (rowsIn regionID rs).
Proof.
  intros Hok r' regionID.
  destruct (updateChallenges_publishes r rs Hok) as (_ & Hby & _ & Hreg).
  fold r' in Hby, Hreg. specialize (Hby regionID).
  assert (Hg : Forall goodRow rs).
  { unfold Repo.updateChallenges in Hok.
    destruct (Repo.scanChallenges rs ∅ ∅) as [res| |] eqn:Hs;
      [|discriminate Hok..].
    eapply scanChallenges_ok_rows, Hs. }
  rewrite <- (loadedOf_length regionID rs Hg), <- Hby.
  unfold Repo.ChallengesPerRegion. rewrite lookup_fmap.
  destruct (Repo.challengesByRegion r' !! regionID) as [list|] eqn:Hl;
    [|reflexivity].
  cbn [fmap option_fmap option_map default from_option].
  assert (Hne : list <> []).
  { assert (Hin : In regionID (Repo.regionsWithChallenges r')).
    { unfold r', Repo.updateChallenges in *.
      destruct (Repo.scanChallenges rs ∅ ∅) as [[ch cbr]| |];
        cbn in *; try discriminate Hok.
      unfold Repo.keys. rewrite <- list_elem_of_In, list_elem_of_fmap.
      exists (regionID, list). split; [reflexivity|].
      apply elem_of_map_to_list. exact Hl. }
    apply Hreg in Hin. rewrite <- Hby in Hin. exact Hin. }
  destruct list as [|c list]; [congruence|].
  unfold len. cbn [length].
  destruct (Z.eqb_spec (Z.of_nat (S (length list))) 0); [lia|reflexivity].
Qed.

Lemma ChallengesPerRegion_counts_witness :
  let r' := fst (Repo.updateChallenges Repo.New sample.three) in
  Repo.ChallengesPerRegion r' !! 20 = Some 2 /\
  Repo.ChallengesPerRegion r' !! 30 = None.
Proof.
  split.
  - apply (ChallengesPerRegion_counts Repo.New
             [sample.challengeRow 1 10; sample.challengeRow 2 20;
              sample.challengeRow 3 20]).
    vm_compute. reflexivity.
  - apply (ChallengesPerRegion_counts Repo.New
             [sample.challengeRow 1 10; sample.challengeRow 2 20;
              sample.challengeRow 3 20]).
    vm_compute. reflexivity.
Defined.

(** ** What [RandomChallenge] can return *)

Lemma In_dbind {A B} (d : dist A) (k : A -> dist B) w b :
  In (w, b) (dbind d k) ->
  exists w1 a w2, In (w1, a) d /\ In (w2, b) (k a) /\ w = Qmult w1 w2.
Proof.
  unfold dbind. rewrite in_flat_map. intros ([w1 a] & Hd & Hk).
  apply in_map_iff in Hk as ([w2 b'] & E & Hk). cbn in E.
  injection E as <- <-. exists w1, a, w2. repeat split; assumption.
Qed.

Lemma In_Intn n w o :
  In (w, o) (Intn n) ->
  (n <= 0 /\ o = Panic "invalid argument to Intn"%string) \/
  (exists i, 0 <= i < n /\ o = Ok i).
Proof.
  unfold Intn. destruct (Z.leb_spec n 0) as [Hn|Hn].
  - intros [[= _ <-]|[]]. left. split; [exact Hn|reflexivity].
  - intros H. apply in_map_iff in H as (i & [= _ <-] & Hi).
    apply in_seq in Hi. right. exists (Z.of_nat i). split; [lia|reflexivity].
Qed.

Lemma index_In {A} (l : list A) i :
  0 <= i < len l -> exists a, index l i = Ok a /\ In a l.
Proof.
  unfold len, index. intros Hi.
  destruct (Z.ltb_spec i 0); [lia|].
  destruct (Z.leb_spec (Z.of_nat (length l)) i); [lia|]. cbn [orb].
  destruct (nth_error l (Z.to_nat i)) as [a|] eqn:E.
  - exists a. split; [reflexivity|]. eapply nth_error_In, E.
  - apply nth_error_None in E. lia.
Qed.

Lemma pickChallenge_support (r : Repo.t) regionID w o :
  In (w, o) (Repo.pickChallenge r regionID) ->
  match o with
  | Ok c => exists list,
      Repo.challengesByRegion r !! regionID = Some list /\ In c list
  | Err e =>
      e = NoChallengesAvailableError /\
      default [] (Repo.challengesByRegion r !! regionID) = []
  | Panic _ => False
  end.
Proof.
  unfold Repo.pickChallenge.
  destruct (Repo.challengesByRegion r !! regionID) as [list|] eqn:Hl;
    cbn [default from_option id].
  - destruct list as [|c0 list].
    + intros [[= _ <-]|[]]. split; reflexivity.
    + change (len (c0 :: list) =? 0) with false.
      unfold rand_bind. intros H.
      apply In_dbind in H as (w1 & a & w2 & Ha & Hk & _).
      apply In_Intn in Ha as [[Hn _]|(i & Hi & ->)];
        [unfold len in Hn; cbn [length] in Hn; lia|].
      destruct (index_In (c0 :: list) i Hi) as (c & E & Hc).
      unfold rand_ret, dret in Hk. rewrite E in Hk.
      destruct Hk as [[= _ <-]|[]]. exists (c0 :: list).
      split; [reflexivity|exact Hc].
  - intros [[= _ <-]|[]]. split; reflexivity.
Qed.

Lemma RandomChallenge_outcomes (r : Repo.t) (region : option Z) w o :
  In (w, o) (Repo.RandomChallenge r region) ->
  match o with
  | Ok c => exists regionID list,
      Repo.challengesByRegion r !! regionID = Some list /\ In c list /\
      match region with
      | Some given => regionID = given
      | None => In regionID (Repo.regionsWithChallenges r)
      end
  | Err e =>
      e = NoChallengesAvailableError /\
      exists regionID,
        default [] (Repo.challengesByRegion r !! regionID) = [] /\
        match region with
        | Some given => regionID = given
        | None => In regionID (Repo.regionsWithChallenges r)
        end
  | Panic _ => region = None /\ Repo.regionsWithChallenges r = []
  end.
Proof.
  unfold Repo.RandomChallenge, Repo.pickRegion. destruct region as [given|].
  - unfold rand_bind at 1, rand_ret, dret. cbn [dbind flat_map map app fst snd].
    rewrite app_nil_r. intros H.
    apply in_map_iff in H as ([w' o'] & [= _ <-] & H).
    apply pickChallenge_support in H. destruct o' as [c|e|m].
    + destruct H as (list & Hl & Hc). exists given, list. auto.
    + destruct H as [-> H]. split; [reflexivity|]. exists given. auto.
    + destruct H.
  - unfold rand_bind at 1. intros H.
    apply In_dbind in H as (w1 & o1 & w2 & H1 & H2 & _).
    unfold rand_bind in H1. apply In_dbind in H1 as (w3 & oi & w4 & Hi & Hx & _).
    apply In_Intn in Hi as [[Hn ->]|(i & Hi & ->)].
    + destruct Hx as [[= _ <-]|[]]. destruct H2 as [[= _ <-]|[]].
      split; [reflexivity|].
      destruct (Repo.regionsWithChallenges r); [reflexivity|].
      unfold len in Hn. cbn [length] in Hn. lia.
    + destruct (index_In _ i Hi) as (regionID & E & Hreg).
      unfold rand_ret in Hx. rewrite E in Hx.
      destruct Hx as [[= _ <-]|[]].
      apply pickChallenge_support in H2. destruct o as [c|e|m].
      * destruct H2 as (list & Hl & Hc). exists regionID, list. auto.
      * destruct H2 as [-> H2]. split; [reflexivity|]. exists regionID. auto.
      * destruct H2.
Qed.

(** X8. Whatever the snapshot, [RandomChallenge] returns a challenge of
    the list of the region asked for or, without a region, of the list
    of a region of [regionsWithChallenges]; the only error it returns is
    [NoChallengesAvailableError], when the list of the region is empty
    or missing; and it panics only without a region, when
    [regionsWithChallenges] is empty. *)
Theorem RandomChallenge_support (r : Repo.t) (region : option Z) w o :
  In (w, o) (Repo.RandomChallenge r region) ->
  match o with
  | Ok c => exists regionID list,
      Repo.challengesByRegion r !! regionID = Some list /\ In c list /\
      match region with
      | Some given => regionID = given
      | None => In regionID (Repo.regionsWithChallenges r)
      end
  | Err e =>
      e = NoChallengesAvailableError /\
      exists regionID,
        default [] (Repo.challengesByRegion r !! regionID) = [] /\
        match region with
        | Some given => regionID = given
        | None => In regionID (Repo.regionsWithChallenges r)
        end
  | Panic _ => region = None /\ Repo.regionsWithChallenges r = []
  end.
Proof. apply RandomChallenge_outcomes. Qed.


Lemma RandomChallenge_support_witness :
  let r := fst (Repo.updateChallenges Repo.New sample.three) in
  exists regionID list,
    Repo.challengesByRegion r !! regionID = Some list /\
    In (loaded {| ChallengeRow.internalID := 1;
                  ChallengeRow.internalRegionID := 10;
                  ChallengeRow.c := Challenge.zero |} "ae") list /\
    regionID = 10.
Proof.
  intros r.
  apply (RandomChallenge_support r (Some 10) 1%Q
           (Ok (loaded {| ChallengeRow.internalID := 1;
                          ChallengeRow.internalRegionID := 10;
                          ChallengeRow.c := Challenge.zero |} "ae"))).
  vm_compute. left. reflexivity.
Defined.

(** A challenge of a published list is the challenge of a row of the
    region, and the challenge map holds it under the row's id. *)
Lemma published_member (r : Repo.t) rs regionID c :
  snd (Repo.updateChallenges r (inr rs)) = Ok tt ->
  NoDup (rowIDs rs) ->
  let r' := fst (Repo.updateChallenges r (inr rs)) in
  In c (default [] (Repo.challengesByRegion r' !! regionID)) ->
  Repo.Challenge r' (Challenge.ID c) = Ok c /\
  Challenge.RegionID c = strconv.FormatInt regionID.
Proof.
  intros Hok Hnd r' Hin.
  destruct (updateChallenges_publishes r rs Hok) as (Hbind & Hby & _ & _).
  fold r' in Hbind, Hby. rewrite Hby in Hin.
  apply loadedOf_In in Hin as (row & id & Hin & E & He & ->).
  destruct (Hbind Hnd row Hin) as (id' & He' & _ & Hc).
  assert (id' = id) by congruence. subst id'.
  split; [exact Hc|]. cbn. rewrite E. reflexivity.
Qed.

(** X9. After a challenge refresh that succeeds on rows with distinct
    internal ids, a challenge that [RandomChallenge] returns can be
    fetched again: [Challenge] returns the same challenge for its [ID].
    When a region was asked for, the challenge is of that region: its
    [RegionID] is the decimal of the region id. *)
Theorem RandomChallenge_refetch (r : Repo.t) rs (region : option Z) w c :
  snd (Repo.updateChallenges r (inr rs)) = Ok tt ->
  NoDup (rowIDs rs) ->
  let r' := fst (Repo.updateChallenges r (inr rs)) in
  In (w, Ok c) (Repo.RandomChallenge r' region) ->
  Repo.Challenge r' (Challenge.ID c) = Ok c /\
  (forall given, region = Some given ->
     Challenge.RegionID c = strconv.FormatInt given).
Proof.
  intros Hok Hnd r' H.
  apply RandomChallenge_outcomes in H as (regionID & list & Hl & Hc & Hreg).
  assert (Hin : In c (default [] (Repo.challengesByRegion r' !! regionID)))
    by (rewrite Hl; exact Hc).
  destruct (published_member r rs regionID c Hok Hnd Hin) as [H1 H2].
  split; [exact H1|]. intros given ->. subst regionID. exact H2.
Qed.

Lemma RandomChallenge_refetch_witness :
  let r' := fst (Repo.updateChallenges Repo.New sample.three) in
  let c := loaded {| ChallengeRow.internalID := 3;
                     ChallengeRow.internalRegionID := 20;
                     ChallengeRow.c := Challenge.zero |} "am" in
  Repo.Challenge r' (Challenge.ID c) = Ok c /\
  Challenge.RegionID c = "20"%string.
Proof.
  intros r' c.
  destruct (RandomChallenge_refetch Repo.New
              [sample.challengeRow 1 10; sample.challengeRow 2 20;
               sample.challengeRow 3 20] (Some 20) (1 # 2)%Q c) as [H1 H2].
  - vm_compute. reflexivity.
  - apply (bool_decide_unpack _). vm_compute. exact I.
  - vm_compute. right. left. reflexivity.
  - split; [exact H1|]. apply (H2 20). reflexivity.
Defined.

(** ** The region refresh: when it succeeds *)

Lemma not_failed {R} (q : query R) :
  ~ failed q -> exists rs, q = inr rs /\ Forall (fun x => exists row, x = inr row) rs.
Proof.
  intros H. destruct q as [e|rs]; [exfalso; apply H; exact I|].
  exists rs. split; [reflexivity|]. apply List.Forall_forall.
  intros [e|row] Hin; [|eauto].
  exfalso. apply H. exists e. exact Hin.
Qed.

Lemma scanRegions_rows_ok rs : forall out,
  Forall (fun x => exists row, x = inr row) rs ->
  exists out', Repo.scanRegions rs out = Ok out'.
Proof.
  induction rs as [|x rs IH]; intros out H; [eexists; reflexivity|].
  inversion H as [|? ? [row ->] H']; subst. cbn [Repo.scanRegions].
  apply IH. exact H'.
Qed.

Lemma scanMapLayers_rows_ok rs : forall m,
  Forall (fun x => exists row, x = inr row) rs ->
  exists m', Repo.scanMapLayers rs m = Ok m'.
Proof.
  induction rs as [|x rs IH]; intros m H; [eexists; reflexivity|].
  inversion H as [|? ? [row ->] H']; subst. cbn [Repo.scanMapLayers].
  apply IH. exact H'.
Qed.

Lemma attachMapLayers_rows_ok rs mapLayers : forall out,
  Forall (fun x => exists row, x = inr row) rs ->
  exists out', Repo.attachMapLayers rs mapLayers out = Ok out'.
Proof.
  induction rs as [|x rs IH]; intros out H; [eexists; reflexivity|].
  inversion H as [|? ? [[regionID mlID] ->] H']; subst.
  cbn [Repo.attachMapLayers].
  destruct (out !! regionID); [destruct (mapLayers !! mlID)|]; apply IH;
    exact H'.
Qed.

Lemma scanRegions_no_panic rs : forall out m,
  Repo.scanRegions rs out <> Panic m.
Proof.
  induction rs as [|[e|row] rs IH]; intros out m; cbn [Repo.scanRegions];
    [discriminate..|apply IH].
Qed.

Lemma scanMapLayers_no_panic rs : forall acc m,
  Repo.scanMapLayers rs acc <> Panic m.
Proof.
  induction rs as [|[e|row] rs IH]; intros acc m; cbn [Repo.scanMapLayers];
    [discriminate..|apply IH].
Qed.

Lemma attachMapLayers_no_panic rs mapLayers : forall out m,
  Repo.attachMapLayers rs mapLayers out <> Panic m.
Proof.
  induction rs as [|[e|[regionID mlID]] rs IH]; intros out m;
    cbn [Repo.attachMapLayers]; [discriminate..|].
  destruct (out !! regionID); [destruct (mapLayers !! mlID)|]; apply IH.
Qed.

Lemma scanMapLayers_from_empty_keyed rs layers :
  Repo.scanMapLayers rs ∅ = Ok layers -> keyed layers.
Proof.
  apply scanMapLayers_keyed. intros id ml E. rewrite lookup_empty in E.
  discriminate E.
Qed.

(** The region refresh never panics: the [panic(err)] after
    [strconv.Atoi(ml.ID)] is dead code, since [ml.ID] is what
    [FormatInt] printed. *)
Lemma loadRegions_no_panic db net m : Repo.loadRegions db net <> Panic m.
Proof.
  unfold Repo.loadRegions.
  destruct (RegionStore.Begin db); [discriminate|].
  destruct (RegionStore.regions db) as [e|rs]; [discriminate|].
  destruct (Repo.scanRegions rs ∅) as [out| |m'] eqn:Hr; cbn [rbind];
    [|discriminate|exfalso; eapply scanRegions_no_panic, Hr].
  destruct (RegionStore.mapLayers db) as [e|rs']; [discriminate|].
  destruct (Repo.scanMapLayers rs' ∅) as [layers| |m'] eqn:Hm; cbn [rbind];
    [|discriminate|exfalso; eapply scanMapLayers_no_panic, Hm].
  destruct (enrichAll_keyed net layers (scanMapLayers_from_empty_keyed _ _ Hm))
    as (layers' & -> & _).
  cbn [rbind].
  destruct (RegionStore.regionMapLayers db) as [e|rs'']; [discriminate|].
  apply attachMapLayers_no_panic.
Qed.

Lemma loadRegions_store_ok db net :
  ~ storeFails db -> exists out, Repo.loadRegions db net = Ok out.
Proof.
  unfold storeFails, Repo.loadRegions. intros H.
  destruct (RegionStore.Begin db);
    [exfalso; apply H; left; discriminate|].
  destruct (not_failed (RegionStore.regions db)) as (rs & -> & Hrs); [tauto|].
  destruct (scanRegions_rows_ok rs ∅ Hrs) as [out ->]. cbn [rbind].
  destruct (not_failed (RegionStore.mapLayers db)) as (rs' & -> & Hrs');
    [tauto|].
  destruct (scanMapLayers_rows_ok rs' ∅ Hrs') as [layers Hm]. rewrite Hm.
  cbn [rbind].
  destruct (enrichAll_keyed net layers (scanMapLayers_from_empty_keyed _ _ Hm))
    as (layers' & -> & _).
  cbn [rbind].
  destruct (not_failed (RegionStore.regionMapLayers db)) as (rs'' & -> & Hrs'');
    [tauto|].
  apply attachMapLayers_rows_ok. exact Hrs''.
Qed.

Lemma updateRegions_fails (r : Repo.t) db net :
  storeFails db -> exists err, Repo.updateRegions r db net = (r, Err err).
Proof.
  unfold Repo.updateRegions. intros H.
  pose proof (loadRegions_store_error db net H) as Hn.
  pose proof (loadRegions_no_panic db net) as Hp.
  destruct (Repo.loadRegions db net) as [out|e|m];
    [exfalso; eapply Hn; reflexivity|eauto|exfalso; eapply Hp; reflexivity].
Qed.

Lemma updateRegions_no_panic (r : Repo.t) db net m :
  snd (Repo.updateRegions r db net) <> Panic m.
Proof.
  unfold Repo.updateRegions. pose proof (loadRegions_no_panic db net) as Hp.
  destruct (Repo.loadRegions db net) as [out|e|m']; cbn;
    [discriminate..|]. intros [= ->]. eapply Hp; reflexivity.
Qed.

(** X10. A region refresh succeeds exactly when the store does not
    fail, whatever the network answers: a failed capability fetch never
    makes the cycle fail.  When the store fails the cycle returns an
    error and leaves the repo as it was.  The cycle never panics. *)
Theorem updateRegions_outcome (r : Repo.t) db net :
  (storeFails db -> exists err, Repo.updateRegions r db net = (r, Err err)) /\
  (~ storeFails db -> snd (Repo.updateRegions r db net) = Ok tt) /\
  (forall m, snd (Repo.updateRegions r db net) <> Panic m).
Proof.
  split; [apply updateRegions_fails|]. split; [|apply updateRegions_no_panic].
  intros H. unfold Repo.updateRegions.
  destruct (loadRegions_store_ok db net H) as [out ->]. reflexivity.
Qed.

Lemma updateRegions_outcome_witness :
  (exists err, Repo.updateRegions Repo.New sample.down sample.blank
               = (Repo.New, Err err)) /\
  snd (Repo.updateRegions Repo.New sample.layered sample.offline) = Ok tt.
Proof.
  split.
  - apply (proj1 (updateRegions_outcome Repo.New sample.down sample.blank)).
    left. discriminate.
  - apply (proj1 (proj2 (updateRegions_outcome Repo.New sample.layered
                           sample.offline))).
    intros [H|[[e H]|[[e H]|[e H]]]].
    + apply H. reflexivity.
    + destruct H as [H|[]]; discriminate H.
    + destruct H as [H|[]]; discriminate H.
    + destruct H as [H|[]]; discriminate H.
Defined.

(** ** The region refresh: what it publishes *)

(** X11. A region refresh that succeeds does not publish a region that
    some row of [region_map_layers] ties to a layer that the layer query
    did not give or whose capability fetch failed in this cycle, even
    when other rows tie the region to layers that were fetched. *)
Theorem updateRegions_drops_region (r : Repo.t) db net
    layerRows pairs layers regionID mlID :
  snd (Repo.updateRegions r db net) = Ok tt ->
  RegionStore.mapLayers db = inr layerRows ->
  RegionStore.regionMapLayers db = inr pairs ->
  Repo.scanMapLayers layerRows ∅ = Ok layers ->
  In (inr (regionID, mlID)) pairs ->
  (layers !! mlID = None \/
   exists ml err, layers !! mlID = Some ml /\ fetched net mlID ml = inl err) ->
  Repo.Regions (fst (Repo.updateRegions r db net)) !! regionID = None.
Proof.
  unfold Repo.updateRegions. intros Hok Hml Hp Hs Hin Hgone.
  destruct (Repo.loadRegions db net) as [out| |] eqn:Hl;
    cbn in Hok |- *; [|discriminate Hok..].
  destruct (loadRegions_publishes db net out Hl)
    as (regionRows & layerRows' & pairs' & regions & layers' &
        _ & Hml' & Hp' & _ & Hs' & Hdrop & _).
  rewrite Hml in Hml'. injection Hml' as <-.
  rewrite Hp in Hp'. injection Hp' as <-.
  rewrite Hs in Hs'. injection Hs' as <-.
  apply (Hdrop regionID mlID Hin).
  destruct Hgone as [->|(ml & err & -> & Hf)]; [exact I|].
  unfold enriched. rewrite Hf. reflexivity.
Qed.

Lemma updateRegions_drops_region_witness :
  Repo.Regions (fst (Repo.updateRegions Repo.New sample.layered sample.offline))
    !! 1 = None.
Proof.
  eapply (updateRegions_drops_region Repo.New sample.layered sample.offline
            _ _ _ 1 7).
  - vm_compute. reflexivity.
  - reflexivity.
  - reflexivity.
  - reflexivity.
  - left. reflexivity.
  - right. eexists. eexists. split; [vm_compute; reflexivity|].
    vm_compute. reflexivity.
Defined.

Lemma scanRegions_rows rs : forall out out' k reg,
  Repo.scanRegions rs out = Ok out' -> out' !! k = Some reg ->
  (exists row, In (inr row) rs /\ RegionRow.internalID row = k /\
     reg = Region.setID (RegionRow.r row) (strconv.FormatInt k)) \/
  out !! k = Some reg.
Proof.
  induction rs as [|[e|row] rs IH]; intros out out' k reg H Hl;
    cbn [Repo.scanRegions] in H.
  - injection H as <-. right. exact Hl.
  - discriminate.
  - destruct (IH _ _ _ _ H Hl) as [(row' & Hin & Hk & Hreg)|Ho].
    + left. exists row'. split; [right; exact Hin|]. split; assumption.
    + destruct (Z.eq_dec (RegionRow.internalID row) k) as [E|Hne].
      * rewrite E, lookup_insert_eq in Ho. injection Ho as <-.
        left. exists row. split; [left; reflexivity|].
        split; [exact E|]. reflexivity.
      * rewrite lookup_insert_ne in Ho by assumption. right. exact Ho.
Qed.

Lemma attachMapLayers_fields rs mapLayers : forall out out' k region,
  Repo.attachMapLayers rs mapLayers out = Ok out' ->
  out' !! k = Some region ->
  exists reg, out !! k = Some reg /\
              region = Region.setMapLayer reg (Region.MapLayer region).
Proof.
  induction rs as [|[e|[regionID mlID]] rs IH]; intros out out' k region H Hl;
    cbn [Repo.attachMapLayers] in H.
  - injection H as <-. exists region. split; [exact Hl|].
    destruct region; reflexivity.
  - discriminate.
  - destruct (out !! regionID) as [prev|] eqn:Hprev;
      [destruct (mapLayers !! mlID) as [ml|]|];
      destruct (IH _ _ _ _ H Hl) as (reg & Ho & Hreg).
    + destruct (Z.eq_dec regionID k) as [->|Hne].
      * rewrite lookup_insert_eq in Ho. injection Ho as <-.
        exists prev. split; [exact Hprev|]. rewrite Hreg. reflexivity.
      * rewrite lookup_insert_ne in Ho by assumption. eauto.
    + destruct (Z.eq_dec regionID k) as [->|Hne].
      * rewrite lookup_delete_eq in Ho. discriminate Ho.
      * rewrite lookup_delete_ne in Ho by assumption. eauto.
    + eauto.
Qed.

(** X12. Every region that a refresh publishes is a row of the region
    query: it is stored under the row's internal id, its [ID] is the
    decimal of that id, and its other columns are the row's; the refresh
    changes nothing of it but [MapLayer]. *)
Theorem updateRegions_publishes_rows (r : Repo.t) db net regionID region :
  snd (Repo.updateRegions r db net) = Ok tt ->
  Repo.Regions (fst (Repo.updateRegions r db net)) !! regionID = Some region ->
  exists regionRows row,
    RegionStore.regions db = inr regionRows /\
    In (inr row) regionRows /\
    RegionRow.internalID row = regionID /\
    Region.ID region = strconv.FormatInt regionID /\
    region = Region.setMapLayer
               (Region.setID (RegionRow.r row) (strconv.FormatInt regionID))
               (Region.MapLayer region).
Proof.
  unfold Repo.updateRegions, Repo.Regions. intros Hok Hl.
  destruct (Repo.loadRegions db net) as [out| |] eqn:Hload;
    cbn in Hok, Hl; [|discriminate Hok..].
  unfold Repo.loadRegions in Hload.
  destruct (RegionStore.Begin db); [discriminate|].
  destruct (RegionStore.regions db) as [e|regionRows]; [discriminate|].
  destruct (Repo.scanRegions regionRows ∅) as [regions| |] eqn:Hr;
    cbn [rbind] in Hload; [|discriminate..].
  destruct (RegionStore.mapLayers db) as [e|layerRows]; [discriminate|].
  destruct (Repo.scanMapLayers layerRows ∅) as [layers| |] eqn:Hm;
    cbn [rbind] in Hload; [|discriminate..].
  destruct (Repo.enrichAll net layers) as [layers'| |];
    cbn [rbind] in Hload; [|discriminate..].
  destruct (RegionStore.regionMapLayers db) as [e|pairs]; [discriminate|].
  destruct (attachMapLayers_fields _ _ _ _ _ _ Hload Hl) as (reg & Ho & Hreg).
  destruct (scanRegions_rows _ _ _ _ _ Hr Ho) as [(row & Hin & Hk & ->)|He];
    [|rewrite lookup_empty in He; discriminate He].
  exists regionRows, row. split; [reflexivity|]. split; [exact Hin|].
  split; [exact Hk|]. split; [rewrite Hreg; reflexivity|exact Hreg].
Qed.

Lemma updateRegions_publishes_rows_witness :
  let region :=
    Region.setMapLayer (Region.setID Region.zero "1")
      (MapLayer.setID (MapLayer.setCapabilitiesXML MapLayer.zero EmptyString)
         "7") in
  exists regionRows row,
    RegionStore.regions sample.layered = inr regionRows /\
    In (inr row) regionRows /\
    RegionRow.internalID row = 1 /\
    Region.ID region = strconv.FormatInt 1 /\
    region = Region.setMapLayer
               (Region.setID (RegionRow.r row) (strconv.FormatInt 1))
               (Region.MapLayer region).
Proof.
  intros region.
  apply (updateRegions_publishes_rows Repo.New sample.layered sample.blank 1
           region).
  - vm_compute. reflexivity.
  - vm_compute. reflexivity.
Defined.

Lemma attachMapLayers_app pre mapLayers : forall rest out,
  Repo.attachMapLayers (pre ++ rest) mapLayers out
  = rbind (Repo.attachMapLayers pre mapLayers out)
          (Repo.attachMapLayers rest mapLayers).
Proof.
  induction pre as [|[e|[regionID mlID]] pre IH]; intros rest out;
    cbn [app Repo.attachMapLayers rbind]; [reflexivity..|].
  destruct (out !! regionID); [destruct (mapLayers !! mlID)|]; apply IH.
Qed.

Lemma attachMapLayers_untouched rs mapLayers regionID : forall out out',
  (forall mlID, ~ In (inr (regionID, mlID)) rs) ->
  Repo.attachMapLayers rs mapLayers out = Ok out' ->
  out' !! regionID = out !! regionID.
Proof.
  induction rs as [|[e|[regionID' mlID']] rs IH]; intros out out' Hno H;
    cbn [Repo.attachMapLayers] in H.
  - injection H as <-. reflexivity.
  - discriminate.
  - assert (Hne : regionID' <> regionID).
    { intros ->. apply (Hno mlID'). left. reflexivity. }
    assert (Hno' : forall mlID, ~ In (inr (regionID, mlID)) rs).
    { intros mlID Hin. apply (Hno mlID). right. exact Hin. }
    destruct (out !! regionID') as [prev|];
      [destruct (mapLayers !! mlID') as [ml|]|];
      rewrite (IH _ _ Hno' H).
    + apply lookup_insert_ne. exact Hne.
    + apply lookup_delete_ne. exact Hne.
    + reflexivity.
Qed.

(** X13. When several rows of [region_map_layers] name a region, the
    last of them decides: a published region carries the layer of the
    last row that names it, with the text fetched for that layer in this
    cycle.  The query has no [ORDER BY], so which row is last is the
    store's choice. *)
Theorem updateRegions_last_row_wins (r : Repo.t) db net
    layerRows layers pre post regionID mlID region :
  snd (Repo.updateRegions r db net) = Ok tt ->
  RegionStore.mapLayers db = inr layerRows ->
  Repo.scanMapLayers layerRows ∅ = Ok layers ->
  RegionStore.regionMapLayers db = inr (pre ++ inr (regionID, mlID) :: post) ->
  (forall mlID', ~ In (inr (regionID, mlID')) post) ->
  Repo.Regions (fst (Repo.updateRegions r db net)) !! regionID = Some region ->
  exists ml xml,
    layers !! mlID = Some ml /\ fetched net mlID ml = inr xml /\
    Region.MapLayer region = MapLayer.setCapabilitiesXML ml xml.
Proof.
  unfold Repo.updateRegions, Repo.Regions. intros Hok Hml Hs Hp Hlast Hl.
  destruct (Repo.loadRegions db net) as [out| |] eqn:Hload;
    cbn in Hok, Hl; [|discriminate Hok..].
  unfold Repo.loadRegions in Hload.
  destruct (RegionStore.Begin db); [discriminate|].
  destruct (RegionStore.regions db) as [e|regionRows]; [discriminate|].
  destruct (Repo.scanRegions regionRows ∅) as [regions| |];
    cbn [rbind] in Hload; [|discriminate..].
  rewrite Hml, Hs in Hload. cbn [rbind] in Hload.
  destruct (enrichAll_keyed net layers (scanMapLayers_from_empty_keyed _ _ Hs))
    as (layers' & He & Hl').
  rewrite He, Hp in Hload. cbn [rbind] in Hload.
  rewrite attachMapLayers_app in Hload.
  destruct (Repo.attachMapLayers pre layers' regions) as [o1| |];
    cbn [rbind Repo.attachMapLayers] in Hload; [|discriminate..].
  destruct (o1 !! regionID) as [prev|] eqn:Hprev.
  - destruct (layers' !! mlID) as [ml'|] eqn:Hml'.
    + rewrite (attachMapLayers_untouched _ _ _ _ _ Hlast Hload) in Hl.
      rewrite lookup_insert_eq in Hl. injection Hl as <-.
      rewrite Hl' in Hml'.
      destruct (layers !! mlID) as [ml|]; [|discriminate Hml'].
      unfold enriched in Hml'.
      destruct (fetched net mlID ml) as [e|xml] eqn:Hf; [discriminate Hml'|].
      injection Hml' as <-. exists ml, xml.
      split; [reflexivity|]. split; [exact Hf|reflexivity].
    + rewrite (attachMapLayers_gone _ _ _ _ _ (lookup_delete_eq _ _) Hload)
        in Hl.
      discriminate Hl.
  - rewrite (attachMapLayers_gone _ _ _ _ _ Hprev Hload) in Hl.
    discriminate Hl.
Qed.

(** Two layers for region 1: the rows name layer 7, then layer 8. *)
Lemma updateRegions_last_row_wins_witness :
  let db := {| RegionStore.Begin := None;
               RegionStore.regions := inr [sample.regionRow 1];
               RegionStore.mapLayers :=
                 inr [sample.layerRow 7 "https://a.example/wmts";
                      sample.layerRow 8 "https://b.example/wmts"];
               RegionStore.regionMapLayers := inr ([inr (1, 7)] ++ inr (1, 8) :: []) |} in
  exists ml xml,
    ({[ 7 := MapLayer.setID (MapLayer.setCapabilitiesXML MapLayer.zero
                               "https://a.example/wmts") "7";
        8 := MapLayer.setID (MapLayer.setCapabilitiesXML MapLayer.zero
                               "https://b.example/wmts") "8" ]}
       : gmap Z MapLayer.t) !! 8 = Some ml /\
    fetched sample.blank 8 ml = inr xml /\
    MapLayer.ID ml = "8"%string.
Proof.
  intros db.
  destruct (updateRegions_last_row_wins Repo.New db sample.blank
              [sample.layerRow 7 "https://a.example/wmts";
               sample.layerRow 8 "https://b.example/wmts"]
              ({[ 7 := MapLayer.setID (MapLayer.setCapabilitiesXML MapLayer.zero
                               "https://a.example/wmts") "7";
                  8 := MapLayer.setID (MapLayer.setCapabilitiesXML MapLayer.zero
                               "https://b.example/wmts") "8" ]})
              [inr (1, 7)] [] 1 8
              (Region.setMapLayer (Region.setID Region.zero "1")
                 (MapLayer.setCapabilitiesXML
                    (MapLayer.setID (MapLayer.setCapabilitiesXML MapLayer.zero
                               "https://b.example/wmts") "8") EmptyString)))
    as (ml & xml & H1 & H2 & H3).
  - vm_compute. reflexivity.
  - reflexivity.
  - vm_compute. reflexivity.
  - reflexivity.
  - intros mlID' [].
  - vm_compute. reflexivity.
  - exists ml, xml. split; [exact H1|]. split; [exact H2|].
    change (MapLayer.ID ml)
      with (MapLayer.ID (MapLayer.setCapabilitiesXML ml xml)).
    rewrite <- H3. reflexivity.
Defined.

(** ** The updater loops *)

Lemma updateChallenges_snd (r1 r2 : Repo.t) db :
  snd (Repo.updateChallenges r1 db) = snd (Repo.updateChallenges r2 db).
Proof.
  unfold Repo.updateChallenges. destruct db as [e|rs]; [reflexivity|].
  destruct (Repo.scanChallenges rs ∅ ∅) as [[ch cbr]| |]; reflexivity.
Qed.

Lemma updateChallenges_regions (r : Repo.t) db :
  Repo.regions (fst (Repo.updateChallenges r db)) = Repo.regions r.
Proof.
  unfold Repo.updateChallenges. destruct db as [e|rs]; [reflexivity|].
  destruct (Repo.scanChallenges rs ∅ ∅) as [[ch cbr]| |]; reflexivity.
Qed.

Lemma updateChallenges_ok_fst (r1 r2 : Repo.t) db :
  Repo.regions r1 = Repo.regions r2 ->
  snd (Repo.updateChallenges r1 db) = Ok tt ->
  fst (Repo.updateChallenges r1 db) = fst (Repo.updateChallenges r2 db).
Proof.
  unfold Repo.updateChallenges. intros E. destruct db as [e|rs]; [discriminate|].
  destruct (Repo.scanChallenges rs ∅ ∅) as [[ch cbr]| |]; cbn;
    [|discriminate..].
  intros _. rewrite E. reflexivity.
Qed.

(** Ticks whose cycles return an error leave the repo as it is. *)
Lemma challengesTicks_errors post : forall r,
  (forall db, In db post ->
     exists err, snd (Repo.updateChallenges r db) = Err err) ->
  challengesTicks r (map Tick post) = (r, Selecting).
Proof.
  induction post as [|db post IH]; intros r H; [reflexivity|].
  cbn [map challengesTicks].
  destruct (H db (or_introl eq_refl)) as [err He].
  pose proof (updateChallenges_not_ok r db) as Hsame.
  destruct (Repo.updateChallenges r db) as [r' res]. cbn in He, Hsame.
  subst res. rewrite Hsame by discriminate.
  apply IH. intros db' Hin. apply H. right. exact Hin.
Qed.

(** Ticks whose cycles do not panic keep the loop going, and the
    regions of the repo are not theirs to change. *)
Lemma challengesTicks_app pre : forall r rest,
  (forall db m, In db pre -> snd (Repo.updateChallenges r db) <> Panic m) ->
  exists r1, Repo.regions r1 = Repo.regions r /\
    challengesTicks r (map Tick pre ++ rest) = challengesTicks r1 rest.
Proof.
  induction pre as [|db pre IH]; intros r rest H.
  - exists r. split; reflexivity.
  - cbn [map app challengesTicks].
    pose proof (H db) as Hdb. pose proof (updateChallenges_regions r db) as Hreg.
    destruct (Repo.updateChallenges r db) as [r' res] eqn:Hu. cbn in Hdb, Hreg.
    assert (Hrec : exists r1, Repo.regions r1 = Repo.regions r /\
              challengesTicks r' (map Tick pre ++ rest)
              = challengesTicks r1 rest).
    { destruct (IH r' rest) as (r1 & Hr1 & Ht).
      - intros db' m Hin. rewrite (updateChallenges_snd r' r db').
        apply H. right. exact Hin.
      - exists r1. split; [congruence|exact Ht]. }
    destruct res as [u|e|m]; [exact Hrec..|].
    exfalso. apply (Hdb m); [left; reflexivity|reflexivity].
Qed.

(** X14. [challengesUpdater] signals readiness exactly when its first
    cycle succeeds; a first cycle that returns an error ends the process
    and leaves the repo as it was.  Once started, a cycle that returns
    an error is only logged: after ticks of which the last one that
    succeeded was answered by [db], and none panicked, the updater is
    still in its loop and the repo is what the cycle on [db] published,
    however many failed cycles came after it. *)
Theorem challengesUpdater_keeps_last_good (r : Repo.t)
    (first : query ChallengeRow.t) :
  (forall err events,
     snd (Repo.updateChallenges r first) = Err err ->
     challengesUpdater r first events
     = {| Updater.repo := r; Updater.initDone := false;
          Updater.now := Fatal_exit err |}) /\
  (forall pre db post,
     snd (Repo.updateChallenges r first) = Ok tt ->
     (forall x m, In x pre -> snd (Repo.updateChallenges r x) <> Panic m) ->
     snd (Repo.updateChallenges r db) = Ok tt ->
     (forall x, In x post ->
        exists err, snd (Repo.updateChallenges r x) = Err err) ->
     challengesUpdater r first (map Tick pre ++ Tick db :: map Tick post)
     = {| Updater.repo := fst (Repo.updateChallenges r db);
          Updater.initDone := true; Updater.now := Selecting |}).
Proof.
  split.
  - intros err events H. unfold challengesUpdater.
    pose proof (updateChallenges_not_ok r first) as Hsame.
    destruct (Repo.updateChallenges r first) as [r' res]. cbn in H, Hsame.
    subst res. rewrite Hsame by discriminate. reflexivity.
  - intros pre db post Hfirst Hpre Hdb Hpost. unfold challengesUpdater.
    pose proof (updateChallenges_regions r first) as Hreg0.
    destruct (Repo.updateChallenges r first) as [r0 res]. cbn in Hfirst, Hreg0.
    subst res.
    destruct (challengesTicks_app pre r0 (Tick db :: map Tick post))
      as (r1 & Hr1 & ->).
    { intros x m Hin. rewrite (updateChallenges_snd r0 r x). apply Hpre, Hin. }
    cbn [challengesTicks].
    assert (Hr : Repo.regions r1 = Repo.regions r) by congruence.
    pose proof (updateChallenges_ok_fst r1 r db Hr) as Hfst.
    rewrite (updateChallenges_snd r1 r db) in Hfst. specialize (Hfst Hdb).
    pose proof (updateChallenges_snd r1 r db) as Hsnd. rewrite Hdb in Hsnd.
    destruct (Repo.updateChallenges r1 db) as [r2 res]. cbn in Hfst, Hsnd.
    subst r2 res.
    rewrite challengesTicks_errors; [reflexivity|].
    intros x Hin. rewrite (updateChallenges_snd _ r x). apply Hpost, Hin.
Qed.

Lemma challengesUpdater_keeps_last_good_witness :
  challengesUpdater Repo.New (inl sample.refused) [Done]
  = {| Updater.repo := Repo.New; Updater.initDone := false;
       Updater.now := Fatal_exit sample.refused |} /\
  challengesUpdater Repo.New (inr [])
    (map Tick [inl sample.refused] ++ Tick sample.three
     :: map Tick [inl sample.refused; inr [inl sample.refused]])
  = {| Updater.repo := fst (Repo.updateChallenges Repo.New sample.three);
       Updater.initDone := true; Updater.now := Selecting |}.
Proof.
  split.
  - apply (proj1 (challengesUpdater_keeps_last_good Repo.New
                    (inl sample.refused))).
    reflexivity.
  - apply (proj2 (challengesUpdater_keeps_last_good Repo.New (inr []))).
    + reflexivity.
    + intros x m [<-|[]]. discriminate.
    + vm_compute. reflexivity.
    + intros x [<-|[<-|[]]]; eexists; reflexivity.
Defined.

Lemma updateRegions_snd (r1 r2 : Repo.t) db net :
  snd (Repo.updateRegions r1 db net) = snd (Repo.updateRegions r2 db net).
Proof.
  unfold Repo.updateRegions. destruct (Repo.loadRegions db net); reflexivity.
Qed.

Lemma updateRegions_challengeFields (r : Repo.t) db net :
  challengeFields (fst (Repo.updateRegions r db net)) = challengeFields r.
Proof.
  unfold Repo.updateRegions. destruct (Repo.loadRegions db net); reflexivity.
Qed.

Lemma updateRegions_ok_fst (r1 r2 : Repo.t) db net :
  challengeFields r1 = challengeFields r2 ->
  snd (Repo.updateRegions r1 db net) = Ok tt ->
  fst (Repo.updateRegions r1 db net) = fst (Repo.updateRegions r2 db net).
Proof.
  unfold Repo.updateRegions, challengeFields. intros [= E1 E2 E3].
  destruct (Repo.loadRegions db net); cbn; [|discriminate..].
  intros _. rewrite E1, E2, E3. reflexivity.
Qed.

Lemma regionsTicks_errors post : forall r,
  (forall x, In x post -> storeFails (fst x)) ->
  regionsTicks r (map Tick post) = (r, Selecting).
Proof.
  induction post as [|[db net] post IH]; intros r H; [reflexivity|].
  cbn [map regionsTicks].
  destruct (updateRegions_fails r db net (H _ (or_introl eq_refl)))
    as [err ->].
  apply IH. intros x Hin. apply H. right. exact Hin.
Qed.

Lemma regionsTicks_app pre : forall r rest,
  exists r1, challengeFields r1 = challengeFields r /\
    regionsTicks r (map Tick pre ++ rest) = regionsTicks r1 rest.
Proof.
  induction pre as [|[db net] pre IH]; intros r rest.
  - exists r. split; reflexivity.
  - cbn [map app regionsTicks].
    pose proof (updateRegions_no_panic r db net) as Hp.
    pose proof (updateRegions_challengeFields r db net) as Hf.
    destruct (Repo.updateRegions r db net) as [r' res]. cbn in Hp, Hf.
    destruct (IH r' rest) as (r1 & Hr1 & Ht).
    destruct res as [u|e|m];
      [exists r1; split; [congruence|exact Ht]..|].
    exfalso. apply (Hp m). reflexivity.
Qed.

(** The loop of [regionsUpdater] never ends the process. *)
Lemma regionsTicks_standing events : forall r,
  snd (regionsTicks r events) = Selecting \/
  snd (regionsTicks r events) = Returned.
Proof.
  induction events as [|[[db net]|] events IH]; intros r;
    cbn [regionsTicks]; [left; reflexivity| |right; reflexivity].
  pose proof (updateRegions_no_panic r db net) as Hp.
  destruct (Repo.updateRegions r db net) as [r' res]. cbn in Hp.
  destruct res as [u|e|m]; [apply IH..|].
  exfalso. apply (Hp m). reflexivity.
Qed.

(** X15. [regionsUpdater] ends the process only at start-up, when the
    store fails during its first cycle; the network cannot do that.
    Once the first cycle has succeeded the updater signals readiness and,
    whatever the store and the network answer later, it is in its loop
    until it is cancelled.  A cycle during which the store fails is only
    logged: the repo stays what the last cycle that succeeded
    published. *)
Theorem regionsUpdater_keeps_last_good (r : Repo.t)
    (first : RegionStore.t * network) :
  (forall events,
     storeFails (fst first) ->
     exists err,
       regionsUpdater r first events
       = {| Updater.repo := r; Updater.initDone := false;
            Updater.now := Fatal_exit err |}) /\
  (forall events,
     ~ storeFails (fst first) ->
     Updater.initDone (regionsUpdater r first events) = true /\
     (Updater.now (regionsUpdater r first events) = Selecting \/
      Updater.now (regionsUpdater r first events) = Returned)) /\
  (forall pre db net post,
     ~ storeFails (fst first) -> ~ storeFails db ->
     (forall x, In x post -> storeFails (fst x)) ->
     regionsUpdater r first (map Tick pre ++ Tick (db, net) :: map Tick post)
     = {| Updater.repo := fst (Repo.updateRegions r db net);
          Updater.initDone := true; Updater.now := Selecting |}).
Proof.
  assert (Hok : forall r0 db net, ~ storeFails db ->
            snd (Repo.updateRegions r0 db net) = Ok tt).
  { intros r0 db net H. unfold Repo.updateRegions.
    destruct (loadRegions_store_ok db net H) as [out ->]. reflexivity. }
  split; [|split].
  - intros events H. unfold regionsUpdater.
    destruct (updateRegions_fails r _ (snd first) H) as [err ->].
    exists err. reflexivity.
  - intros events H. unfold regionsUpdater.
    pose proof (Hok r _ (snd first) H) as H1.
    destruct (Repo.updateRegions r (fst first) (snd first)) as [r0 res].
    cbn in H1. subst res. cbn [Updater.initDone Updater.now].
    split; [reflexivity|apply regionsTicks_standing].
  - intros pre db net post Hfirst Hdb Hpost. unfold regionsUpdater.
    pose proof (Hok r _ (snd first) Hfirst) as H1.
    pose proof (updateRegions_challengeFields r (fst first) (snd first)) as Hf0.
    destruct (Repo.updateRegions r (fst first) (snd first)) as [r0 res].
    cbn in H1, Hf0. subst res.
    destruct (regionsTicks_app pre r0 (Tick (db, net) :: map Tick post))
      as (r1 & Hr1 & ->).
    cbn [regionsTicks].
    assert (Hr : challengeFields r1 = challengeFields r) by congruence.
    pose proof (updateRegions_ok_fst r1 r db net Hr (Hok r1 db net Hdb)) as Hfst.
    pose proof (Hok r1 db net Hdb) as Hsnd.
    destruct (Repo.updateRegions r1 db net) as [r2 res]. cbn in Hfst, Hsnd.
    subst r2 res.
    rewrite regionsTicks_errors by exact Hpost. reflexivity.
Qed.

Lemma regionsUpdater_keeps_last_good_witness :
  (exists err,
     regionsUpdater Repo.New (sample.down, sample.blank) [Done]
     = {| Updater.repo := Repo.New; Updater.initDone := false;
          Updater.now := Fatal_exit err |}) /\
  regionsUpdater Repo.New (sample.unlayered, sample.offline)
    (map Tick [] ++ Tick (sample.layered, sample.blank)
     :: map Tick [(sample.down, sample.blank)])
  = {| Updater.repo :=
         fst (Repo.updateRegions Repo.New sample.layered sample.blank);
       Updater.initDone := true; Updater.now := Selecting |}.
Proof.
  assert (Hl : ~ storeFails sample.layered).
  { intros [H|[[e H]|[[e H]|[e H]]]].
    - apply H. reflexivity.
    - destruct H as [H|[]]; discriminate H.
    - destruct H as [H|[]]; discriminate H.
    - destruct H as [H|[]]; discriminate H. }
  assert (Hu : ~ storeFails sample.unlayered).
  { intros [H|[[e H]|[[e H]|[e H]]]].
    - apply H. reflexivity.
    - destruct H as [H|[]]; discriminate H.
    - destruct H.
    - destruct H. }
  split.
  - apply (proj1 (regionsUpdater_keeps_last_good Repo.New
                    (sample.down, sample.blank))).
    left. discriminate.
  - apply (proj2 (proj2 (regionsUpdater_keeps_last_good Repo.New
                           (sample.unlayered, sample.offline)))).
    + exact Hu.
    + exact Hl.
    + intros x [<-|[]]. left. discriminate.
Defined.

(** ** The handlers *)

(** X16. [handleGetChallenge] never panics.  It answers 500, not 404
    or 400, exactly when the codec rejects the id; it answers 404 when
    the id decodes to an internal id that is not loaded, and the
    challenge otherwise.  So an id with a character outside the
    alphabet, other than CR and LF and with no byte [0xFF], is answered
    with 500. *)
Theorem handleGetChallenge_status (repo : Repo.t) (id : string) :
  (((exists off, decodeChallengeID id = Err (CorruptInputError off)) /\
    handleGetChallenge repo id = Ok (HttpError "internal server error" 500)) \/
   (exists internalID,
      decodeChallengeID id = Ok internalID /\
      Repo.challenges repo !! internalID = None /\
      handleGetChallenge repo id = Ok (HttpError "challenge not found" 404)) \/
   (exists internalID challenge,
      decodeChallengeID id = Ok internalID /\
      Repo.challenges repo !! internalID = Some challenge /\
      handleGetChallenge repo id = Ok (Json challenge))) /\
  (Forall (fun b => b <> 255) (bytes_of_string id) ->
   Exists (fun b => ~ inAlphabet b /\ b <> 13 /\ b <> 10) (bytes_of_string id) ->
   handleGetChallenge repo id = Ok (HttpError "internal server error" 500)).
Proof.
  unfold handleGetChallenge, Repo.Challenge. split.
  - destruct (decodeChallengeID_total id) as [[i Hi]|[off Hoff]].
    + right. rewrite Hi.
      destruct (Repo.challenges repo !! i) as [c|] eqn:Hl.
      * right. exists i, c. repeat split. exact Hl.
      * left. exists i. repeat split. exact Hl.
    + left. rewrite Hoff. split; [exists off|]; reflexivity.
  - intros Hff Hbad.
    destruct (decodeChallengeID_rejects id Hff Hbad) as [off ->].
    reflexivity.
Qed.

Lemma handleGetChallenge_status_witness :
  handleGetChallenge Repo.New "not-base32!"
  = Ok (HttpError "internal server error" 500).
Proof.
  apply (proj2 (handleGetChallenge_status Repo.New "not-base32!")).
  - vm_compute. repeat constructor; lia.
  - apply Exists_cons_tl, Exists_cons_tl, Exists_cons_tl, Exists_cons_hd.
    vm_compute. repeat split; lia.
Defined.



(** ** The earlier revision's challenge map *)

Lemma rev1_scanChallenges_keyed rs : forall ch cbr ch' cbr',
  repos_rev1.Repo.scanChallenges rs ch cbr = Ok (ch', cbr') ->
  (forall k, ch !! k = last (default [] (cbr !! k))) ->
  (forall k c, ch !! k = Some c -> repos_rev1.Challenge.RegionID c = k) ->
  (forall k, ch' !! k = last (default [] (cbr' !! k))) /\
  (forall k c, ch' !! k = Some c -> repos_rev1.Challenge.RegionID c = k).
Proof.
  induction rs as [|[e|row] rs IH]; intros ch cbr ch' cbr' H Hlast Hkey;
    cbn [repos_rev1.Repo.scanChallenges] in H.
  - injection H as <- <-. split; assumption.
  - discriminate.
  - destruct (encodeChallengeID _) as [s| |]; cbn [rbind] in H;
      [|discriminate..].
    apply (IH _ _ _ _ H).
    + intros k.
      destruct (Z.eq_dec
                  (repos_rev1.Challenge.RegionID
                     (repos_rev1.Challenge.setID
                        (repos_rev1.ChallengeRow.c row) s)) k) as [E|Hne].
      * rewrite E, !lookup_insert_eq. cbn [default from_option id].
        rewrite last_snoc. reflexivity.
      * rewrite !lookup_insert_ne by assumption. apply Hlast.
    + intros k c Hl.
      destruct (Z.eq_dec
                  (repos_rev1.Challenge.RegionID
                     (repos_rev1.Challenge.setID
                        (repos_rev1.ChallengeRow.c row) s)) k) as [E|Hne].
      * rewrite E, lookup_insert_eq in Hl. injection Hl as <-. exact E.
      * rewrite lookup_insert_ne in Hl by assumption. eapply Hkey, Hl.
Qed.

(** X18. In the earlier revision the challenge map is keyed by region,
    whatever the rows: after a refresh that succeeds, every challenge of
    the map is stored under its own [RegionID], and a region id is bound
    to the last challenge of the region's list.  So the map holds one
    challenge per region, and [Challenge] can find no other. *)
Theorem rev1_challenges_one_per_region (r : repos_rev1.Repo.t) rs :
  snd (repos_rev1.Repo.updateChallenges r (inr rs)) = Ok tt ->
  let r' := fst (repos_rev1.Repo.updateChallenges r (inr rs)) in
  (forall regionID,
     repos_rev1.Repo.challenges r' !! regionID
     = last (default [] (repos_rev1.Repo.challengesByRegion r' !! regionID))) /\
  (forall key c, repos_rev1.Repo.challenges r' !! key = Some c ->
     repos_rev1.Challenge.RegionID c = key).
Proof.
  unfold repos_rev1.Repo.updateChallenges.
  destruct (repos_rev1.Repo.scanChallenges rs ∅ ∅) as [[ch cbr]| |] eqn:Hs;
    cbn; [intros _|discriminate..].
  apply (rev1_scanChallenges_keyed _ _ _ _ _ Hs).
  - intros k. rewrite !lookup_empty. reflexivity.
  - intros k c Hl. rewrite lookup_empty in Hl. discriminate Hl.
Qed.

Lemma rev1_challenges_one_per_region_witness :
  let r' := fst (repos_rev1.Repo.updateChallenges repos_rev1.Repo.New
                   (inr [sample.rev1Row])) in
  (forall regionID,
     repos_rev1.Repo.challenges r' !! regionID
     = last (default [] (repos_rev1.Repo.challengesByRegion r' !! regionID))) /\
  (forall key c, repos_rev1.Repo.challenges r' !! key = Some c ->
     repos_rev1.Challenge.RegionID c = key).
Proof.
  apply (rev1_challenges_one_per_region repos_rev1.Repo.New [sample.rev1Row]).
  vm_compute. reflexivity.
Defined.

(** ** Probabilities *)

Local Open Scope Q_scope.

Lemma sumQ_app l1 l2 : sumQ (l1 ++ l2) == sumQ l1 + sumQ l2.
Proof.
  induction l1 as [|q l1 IH]; cbn [sumQ app]; [ring|].
  rewrite IH. ring.
Qed.

Lemma sumQ_scale q l : sumQ (map (Qmult q) l) == q * sumQ l.
Proof.
  induction l as [|x l IH]; cbn [sumQ map]; [ring|].
  rewrite IH. ring.
Qed.

Lemma sumQ_ext {A} (f g : A -> Q) l :
  (forall x, In x l -> f x == g x) -> sumQ (map f l) == sumQ (map g l).
Proof.
  induction l as [|x l IH]; intros H; cbn [sumQ map];
    [reflexivity|].
  rewrite IH by (intros y Hy; apply H; right; exact Hy).
  rewrite (H x) by (left; reflexivity). reflexivity.
Qed.

Lemma prob_expect {A} (E : A -> bool) d : prob E d == expect (fun a => ind (E a)) d.
Proof.
  unfold expect. induction d as [|[w a] d IH];
    cbn [prob sumQ map fst snd]; [reflexivity|].
  rewrite <- IH. unfold ind. destruct (E a); ring.
Qed.

Lemma expect_dret {A} (f : A -> Q) a : expect f (dret a) == f a.
Proof. unfold expect, dret. cbn. ring. Qed.

Lemma expect_ext {A} (f g : A -> Q) d :
  (forall a, f a == g a) -> expect f d == expect g d.
Proof.
  intros H. unfold expect. apply sumQ_ext. intros [w a] _. cbn.
  rewrite H. reflexivity.
Qed.

Lemma expect_dbind {A B} (f : B -> Q) (d : dist A) (k : A -> dist B) :
  expect f (dbind d k) == expect (fun a => expect f (k a)) d.
Proof.
  unfold expect, dbind. induction d as [|[w a] d IH];
    cbn [flat_map map sumQ fst snd]; [reflexivity|].
  rewrite map_app, sumQ_app.
  rewrite IH. apply Qplus_comp; [|reflexivity].
  rewrite map_map. cbn [fst snd].
  rewrite <- sumQ_scale, map_map. apply sumQ_ext. intros [w' b] _. cbn. ring.
Qed.

Lemma prob_dbind {A B} (E : B -> bool) (d : dist A) (k : A -> dist B) :
  prob E (dbind d k) == expect (fun a => prob E (k a)) d.
Proof.
  rewrite prob_expect, expect_dbind. apply expect_ext. intros a.
  symmetry. apply prob_expect.
Qed.

Lemma sumQ_zero {A} (f : A -> Q) l :
  (forall x, In x l -> f x == 0) -> sumQ (map f l) == 0.
Proof.
  induction l as [|x l IH]; intros H; cbn [sumQ map]; [reflexivity|].
  rewrite IH by (intros y Hy; apply H; right; exact Hy).
  rewrite (H x) by (left; reflexivity). ring.
Qed.

Lemma sumQ_single {A} (f : A -> Q) l x0 :
  NoDup l -> In x0 l ->
  (forall x, In x l -> x <> x0 -> f x == 0) ->
  sumQ (map f l) == f x0.
Proof.
  induction l as [|x l IH]; intros Hnd Hin H; [destruct Hin|].
  apply NoDup_cons in Hnd as [Hx Hnd]. rewrite list_elem_of_In in Hx.
  cbn [sumQ map]. destruct Hin as [->|Hin].
  - rewrite sumQ_zero; [ring|]. intros y Hy. apply H; [right; exact Hy|].
    intros ->. contradiction.
  - rewrite IH by (auto; intros y Hy; apply H; right; exact Hy).
    rewrite (H x); [ring|left; reflexivity|]. intros ->. contradiction.
Qed.

(** Indexing a slice at every position gives its elements. *)
Lemma index_seq {A} (l : list A) : forall pre,
  map (fun i => index (pre ++ l) (Z.of_nat i)) (seq (length pre) (length l))
  = map Ok l.
Proof.
  induction l as [|a l IH]; intros pre; [reflexivity|].
  cbn [length seq map]. f_equal.
  - unfold index.
    destruct (Z.ltb_spec (Z.of_nat (length pre)) 0); [lia|].
    destruct (Z.leb_spec (Z.of_nat (length (pre ++ a :: l)))
                (Z.of_nat (length pre)));
      [rewrite length_app in *; cbn [length] in *; lia|].
    cbn [orb]. rewrite Nat2Z.id, nth_error_app2 by lia.
    rewrite Nat.sub_diag. reflexivity.
  - specialize (IH (pre ++ [a])). rewrite <- app_assoc in IH.
    rewrite length_app in IH. cbn [length app] in IH.
    rewrite Nat.add_1_r in IH. exact IH.
Qed.

Lemma len_pos {A} (l : list A) : l <> [] -> (0 < len l)%Z.
Proof. destruct l; [congruence|]. unfold len. cbn [length]. lia. Qed.

Lemma Qmake_inv (n : Z) : (0 < n)%Z -> 1 # Z.to_pos n == / inject_Z n.
Proof. destruct n as [|p|p]; try lia. intros _. reflexivity. Qed.

(** Drawing an index with [Intn] and reading the slice there: the mean
    of [F] is the average of [F] over the slice. *)
Lemma expect_draw {A} (l : list A) (F : result A -> Q) :
  l <> [] ->
  expect F (draw! i := Intn (len l) in rand_ret (index l i))
  == / inject_Z (len l) * sumQ (map (fun x => F (Ok x)) l).
Proof.
  intros Hl. pose proof (len_pos l Hl) as Hpos.
  unfold rand_bind. rewrite expect_dbind. unfold Intn.
  destruct (Z.leb_spec (len l) 0); [lia|].
  unfold expect at 1. rewrite map_map. cbn [fst snd].
  rewrite (sumQ_ext _ (fun i => (1 # Z.to_pos (len l)) *
                                F (index l (Z.of_nat i)))).
  - rewrite <- (map_map (fun i => F (index l (Z.of_nat i)))
                        (Qmult (1 # Z.to_pos (len l)))).
    rewrite sumQ_scale, Qmake_inv by assumption.
    apply Qmult_comp; [reflexivity|].
    rewrite <- (map_map (fun i => index l (Z.of_nat i)) F).
    unfold len. rewrite Nat2Z.id.
    pose proof (index_seq l []) as Hseq. cbn [app length] in Hseq.
    rewrite Hseq, map_map. reflexivity.
  - intros i _. unfold rand_ret. rewrite expect_dret. reflexivity.
Qed.

Lemma prob_draw {A} (l : list A) (E : result A -> bool) :
  l <> [] ->
  prob E (draw! i := Intn (len l) in rand_ret (index l i))
  == / inject_Z (len l) * sumQ (map (fun x => ind (E (Ok x))) l).
Proof.
  intros Hl. rewrite prob_expect.
  apply (expect_draw l (fun a => ind (E a)) Hl).
Qed.

(** The same, followed by a second computation. *)
Lemma prob_draw_then {A B} (l : list A) (k : A -> rand B)
    (E : result B -> bool) :
  l <> [] ->
  prob E (draw! x := (draw! i := Intn (len l) in rand_ret (index l i)) in k x)
  == / inject_Z (len l) * sumQ (map (fun x => prob E (k x)) l).
Proof.
  intros Hl. unfold rand_bind at 1. rewrite prob_dbind.
  rewrite (expect_draw l _ Hl). reflexivity.
Qed.

Lemma ind_eqb_single (l : list Z) (x0 : Z) :
  NoDup l -> In x0 l -> sumQ (map (fun x => ind (x =? x0)%Z) l) == 1.
Proof.
  intros Hnd Hin. rewrite (sumQ_single _ l x0 Hnd Hin).
  - rewrite Z.eqb_refl. reflexivity.
  - intros x _ Hne. destruct (Z.eqb_spec x x0); [contradiction|reflexivity].
Qed.

Lemma returns_single (list : list Challenge.t) (c : Challenge.t) :
  NoDup (map Challenge.ID list) -> In c list ->
  sumQ (map (fun c' => ind (returns c (Ok c'))) list) == 1.
Proof.
  intros Hnd Hin. cbn [returns].
  rewrite <- (map_map Challenge.ID (fun s => ind (String.eqb s (Challenge.ID c)))).
  rewrite (sumQ_single _ _ (Challenge.ID c) Hnd (in_map _ _ _ Hin)).
  - rewrite String.eqb_refl. reflexivity.
  - intros s _ Hne. destruct (String.eqb_spec s (Challenge.ID c));
      [contradiction|reflexivity].
Qed.

Lemma returns_none (list : list Challenge.t) (c : Challenge.t) :
  ~ In (Challenge.ID c) (map Challenge.ID list) ->
  sumQ (map (fun c' => ind (returns c (Ok c'))) list) == 0.
Proof.
  intros Hn. apply sumQ_zero. intros c' Hc'. cbn [returns].
  destruct (String.eqb_spec (Challenge.ID c') (Challenge.ID c)) as [E|_];
    [|reflexivity].
  exfalso. apply Hn. rewrite <- E. apply in_map. exact Hc'.
Qed.

(** Stage two on its own: a challenge of the region's list, uniformly. *)
Lemma pickChallenge_prob (r : Repo.t) regionID (E : result Challenge.t -> bool) :
  let list := default [] (Repo.challengesByRegion r !! regionID) in
  list <> [] ->
  prob E (Repo.pickChallenge r regionID)
  == / inject_Z (len list) * sumQ (map (fun c => ind (E (Ok c))) list).
Proof.
  intros list Hl. unfold Repo.pickChallenge. fold list.
  pose proof (len_pos list Hl).
  destruct (Z.eqb_spec (len list) 0); [lia|].
  apply prob_draw. exact Hl.
Qed.

Lemma pickChallenge_elsewhere (r : Repo.t) regionID c :
  (forall list, Repo.challengesByRegion r !! regionID = Some list ->
     ~ In (Challenge.ID c) (map Challenge.ID list)) ->
  prob (returns c) (Repo.pickChallenge r regionID) == 0.
Proof.
  intros H. destruct (Repo.challengesByRegion r !! regionID) as [list|] eqn:Hl.
  - destruct list as [|c0 list].
    + unfold Repo.pickChallenge. rewrite Hl. reflexivity.
    + rewrite pickChallenge_prob by (rewrite Hl; discriminate).
      rewrite Hl. cbn [default from_option].
      rewrite returns_none by (apply H; reflexivity). ring.
  - unfold Repo.pickChallenge. rewrite Hl. reflexivity.
Qed.

(** C5.  With regions that have challenges, listed once each,
    [RandomChallenge(nil)] draws in two stages.  Stage one picks every
    listed region with probability one over the number of regions,
    whatever the number of its challenges.  Stage two picks every
    challenge of the region's list with probability one over the length
    of the list.  So a challenge is returned with the product of the two,
    which is not one over the number of all challenges: with one
    challenge in one region and two in another, the first comes with
    probability one half, not one third. *)
Theorem RandomChallenge_two_stage :
  (forall r : Repo.t,
     let regions := Repo.regionsWithChallenges r in
     regions <> [] -> NoDup regions ->
     Repo.RandomChallenge r None
     = (draw! regionID := Repo.pickRegion r None in
        Repo.pickChallenge r regionID) /\
     (forall regionID, In regionID regions ->
        prob (picks regionID) (Repo.pickRegion r None)
        == 1 / inject_Z (len regions)) /\
     (forall regionID list c,
        Repo.challengesByRegion r !! regionID = Some list ->
        In c list -> NoDup (map Challenge.ID list) ->
        prob (returns c) (Repo.pickChallenge r regionID)
        == 1 / inject_Z (len list)) /\
     (forall regionID list c,
        In regionID regions ->
        Repo.challengesByRegion r !! regionID = Some list ->
        In c list -> NoDup (map Challenge.ID list) ->
        (forall regionID' list', In regionID' regions ->
           regionID' <> regionID ->
           Repo.challengesByRegion r !! regionID' = Some list' ->
           ~ In (Challenge.ID c) (map Challenge.ID list')) ->
        prob (returns c) (Repo.RandomChallenge r None)
        == (1 / inject_Z (len regions)) * (1 / inject_Z (len list)))) /\
  (let r := fst (Repo.updateChallenges Repo.New sample.three) in
   exists c,
     Repo.Challenge r "ae" = Ok c /\
     Repo.ChallengesPerRegion r = {[ 10%Z := 1%Z; 20%Z := 2%Z ]} /\
     prob (returns c) (Repo.RandomChallenge r None) == 1 # 2 /\
     ~ prob (returns c) (Repo.RandomChallenge r None) == 1 # 3).
Proof.
  split.
  - intros r regions Hne Hnd.
    assert (Hstage2 : forall regionID list c,
              Repo.challengesByRegion r !! regionID = Some list ->
              In c list -> NoDup (map Challenge.ID list) ->
              prob (returns c) (Repo.pickChallenge r regionID)
              == 1 / inject_Z (len list)).
    { intros regionID list c Hl Hin Hids.
      assert (Hlist : default [] (Repo.challengesByRegion r !! regionID) = list)
        by (rewrite Hl; reflexivity).
      rewrite pickChallenge_prob by (rewrite Hlist; intros ->; destruct Hin).
      rewrite Hlist, returns_single by assumption.
      unfold Qdiv. ring. }
    split; [reflexivity|]. split; [|split; [exact Hstage2|]].
    + intros regionID Hin. unfold Repo.pickRegion. fold regions.
      rewrite prob_draw by exact Hne. cbn [picks].
      rewrite ind_eqb_single by assumption. unfold Qdiv. ring.
    + intros regionID list c Hin Hl Hc Hids Hother.
      unfold Repo.RandomChallenge, Repo.pickRegion. fold regions.
      rewrite prob_draw_then by exact Hne.
      rewrite (sumQ_single _ regions regionID Hnd Hin).
      * rewrite (Hstage2 regionID list c Hl Hc Hids). unfold Qdiv. ring.
      * intros x Hx Hxne. apply pickChallenge_elsewhere.
        intros list' Hl'. eapply Hother; eassumption.
  - cbv zeta. eexists. split; [vm_compute; reflexivity|].
    split; [vm_compute; reflexivity|]. split; [vm_compute; reflexivity|].
    vm_compute. discriminate.
Qed.

Lemma RandomChallenge_two_stage_witness :
  let r := fst (Repo.updateChallenges Repo.New sample.three) in
  prob (picks 20) (Repo.pickRegion r None)
  == 1 / inject_Z (len (Repo.regionsWithChallenges r)) /\
  (forall c, Repo.Challenge r "ai" = Ok c ->
     prob (returns c) (Repo.RandomChallenge r None)
     == (1 / inject_Z (len (Repo.regionsWithChallenges r)))
        * (1 / inject_Z (len (default [] (Repo.challengesByRegion r !! 20%Z))))).
Proof.
  cbv zeta.
  assert (Hne : Repo.regionsWithChallenges
                  (fst (Repo.updateChallenges Repo.New sample.three)) <> [])
    by (vm_compute; discriminate).
  assert (Hnd : NoDup (Repo.regionsWithChallenges
                  (fst (Repo.updateChallenges Repo.New sample.three))))
    by (apply (bool_decide_unpack _); vm_compute; exact I).
  destruct (proj1 RandomChallenge_two_stage _ Hne Hnd) as (_ & H1 & _ & H3).
  split.
  - apply (H1 20%Z). vm_compute. right. left. reflexivity.
  - intros c Hc. vm_compute in Hc. injection Hc as <-.
    eapply (H3 20%Z).
    + vm_compute. right. left. reflexivity.
    + vm_compute. reflexivity.
    + vm_compute. left. reflexivity.
    + apply (bool_decide_unpack _). vm_compute. exact I.
    + intros regionID' list' Hin Hne' Hl.
      vm_compute in Hin. destruct Hin as [<-|[<-|[]]]; [|congruence].
      vm_compute in Hl. injection Hl as <-. vm_compute.
      intros [H|[]]. discriminate H.
Defined.

(** ** [RandomChallenge] after a refresh *)

Lemma sumQ_ones {A} (f : A -> Q) (l : list A) :
  (forall x, In x l -> f x == 1) -> sumQ (map f l) == inject_Z (len l).
Proof.
  unfold len. induction l as [|x l IH]; intros H; [reflexivity|].
  cbn [map sumQ length]. rewrite IH by (intros y Hy; apply H; right; exact Hy).
  rewrite (H x) by (left; reflexivity).
  rewrite Nat2Z.inj_succ. unfold Z.succ. rewrite inject_Z_plus. ring.
Qed.

Lemma average_ones {A} (f : A -> Q) (l : list A) :
  l <> [] -> (forall x, In x l -> f x == 1) ->
  / inject_Z (len l) * sumQ (map f l) == 1.
Proof.
  intros Hl H. rewrite (sumQ_ones f l H). rewrite Qmult_comm.
  apply Qmult_inv_r. pose proof (len_pos l Hl) as Hpos.
  intros E. unfold Qeq in E. cbn in E. lia.
Qed.

Lemma pickChallenge_answers (r : Repo.t) regionID :
  default [] (Repo.challengesByRegion r !! regionID) <> [] ->
  prob answered (Repo.pickChallenge r regionID) == 1.
Proof.
  intros Hl. rewrite pickChallenge_prob by exact Hl.
  apply average_ones; [exact Hl|]. intros c _. reflexivity.
Qed.

(** X19. After a challenge refresh that succeeds on at least one row,
    [RandomChallenge] without a region returns a challenge with
    probability one: it neither panics nor fails.  With a region it
    returns a challenge with probability one when the region has rows,
    and [NoChallengesAvailableError] when it has none. *)
Theorem RandomChallenge_answers (r : Repo.t) rs :
  snd (Repo.updateChallenges r (inr rs)) = Ok tt ->
  let r' := fst (Repo.updateChallenges r (inr rs)) in
  (rs <> [] -> prob answered (Repo.RandomChallenge r' None) == 1) /\
  (forall regionID, (0 < rowsIn regionID rs)%Z ->
     prob answered (Repo.RandomChallenge r' (Some regionID)) == 1) /\
  (forall regionID, rowsIn regionID rs = 0%Z ->
     Repo.RandomChallenge r' (Some regionID)
     = dret (Err NoChallengesAvailableError)).
Proof.
  intros Hok r'.
  destruct (updateChallenges_publishes r rs Hok) as (_ & Hby & _ & Hreg).
  fold r' in Hby, Hreg.
  assert (Hg : Forall goodRow rs).
  { unfold Repo.updateChallenges in Hok.
    destruct (Repo.scanChallenges rs ∅ ∅) as [res| |] eqn:Hs;
      [|discriminate Hok..].
    eapply scanChallenges_ok_rows, Hs. }
  assert (Hlen : forall regionID,
            len (default [] (Repo.challengesByRegion r' !! regionID))
            = rowsIn regionID rs).
  { intros regionID. rewrite Hby. apply loadedOf_length. exact Hg. }
  split; [|split].
  - intros Hne.
    assert (Hregions : Repo.regionsWithChallenges r' <> []).
    { destruct rs as [|x rs']; [congruence|].
      inversion Hg as [|? ? (row & -> & Hid) _]; subst.
      assert (Hin : In (ChallengeRow.internalRegionID row)
                      (Repo.regionsWithChallenges r')).
      { apply Hreg. cbn [loadedOf flat_map]. rewrite Z.eqb_refl.
        destruct (decode_encodeChallengeID _ Hid) as (s & -> & _).
        discriminate. }
      intros E. rewrite E in Hin. destruct Hin. }
    unfold Repo.RandomChallenge, Repo.pickRegion.
    rewrite prob_draw_then by exact Hregions.
    apply average_ones; [exact Hregions|]. intros regionID Hin.
    apply pickChallenge_answers. rewrite Hby. apply Hreg, Hin.
  - intros regionID Hpos.
    unfold Repo.RandomChallenge, Repo.pickRegion, rand_bind at 1, rand_ret.
    rewrite prob_dbind, expect_dret.
    apply pickChallenge_answers. intros E. specialize (Hlen regionID).
    rewrite E in Hlen. unfold len in Hlen. cbn in Hlen. lia.
  - intros regionID Hzero. apply RandomChallenge_region_empty.
    specialize (Hlen regionID). rewrite Hzero in Hlen.
    destruct (default [] (Repo.challengesByRegion r' !! regionID));
      [reflexivity|]. unfold len in Hlen. cbn [length] in Hlen. lia.
Qed.

Lemma RandomChallenge_answers_witness :
  let r' := fst (Repo.updateChallenges Repo.New sample.three) in
  prob answered (Repo.RandomChallenge r' None) == 1 /\
  prob answered (Repo.RandomChallenge r' (Some 20%Z)) == 1 /\
  Repo.RandomChallenge r' (Some 30%Z) = dret (Err NoChallengesAvailableError).
Proof.
  intros r'.
  destruct (RandomChallenge_answers Repo.New
              [sample.challengeRow 1 10; sample.challengeRow 2 20;
               sample.challengeRow 3 20]) as (H1 & H2 & H3).
  - vm_compute. reflexivity.
  - split; [apply H1; discriminate|].
    split; [apply H2; vm_compute; reflexivity|apply H3; vm_compute; reflexivity].
Defined.
